(** * xeokit chatbot: ingestion, retry and question answering

    A shallow embedding of [chatbot.ts] (the variant with batching and
    retry) and the properties of its retry helper, its batched writer,
    its directory loader and its question-answering chain.

    Conventions.
    - JavaScript numbers that count things ([retries], delays, indices)
      are integers: [Z] where the source subtracts or compares against a
      caller-supplied bound, [nat] for array indices. [maxRetries] is a
      whole number in [Async], where the call is a tree of suspension
      points, and any number (a ratio, an infinity or [NaN]) in [Js].
    - An [async] function is a tree of suspension points ([task]): each
      [await] on something external is a node whose continuation receives
      what the awaited promise settled with.
    - External services (file system, cheerio, the web and GitHub loaders,
      the retriever, the language model) are parameters; how each write
      to the vector store settles, and when, is left to the environment. *)

From Stdlib Require Import ZArith List String Ascii Lia Bool Arith.
From stdpp Require Import base option list gmap strings.
From Equations Require Import Equations.
Import ListNotations.

Set Default Proof Using "Type".

(* ================================================================== *)
(** * Suspended computations *)
(* ================================================================== *)

Module Async.

Section Task.
Context {A E : Type}.

(** How a call of [retryWithBackoff] ends: [return await fn()] gives
    [Returned], [throw error] gives [Thrown], and leaving the [while]
    loop without either gives the implicit [undefined]. *)
Inductive outcome :=
| Returned (a : A)
| Thrown (e : E)
| Undefined.

(** [console.log(`Retry ${retries} after ${delay}ms`)] *)
Inductive log_msg :=
| RetryMsg (retries delay : Z).

(** The body of an [async] function up to its next suspension.
    [AwaitFn k]: [fn()] has been called and the function awaits its
    promise; [k] receives the settlement ([inl] fulfilled, [inr]
    rejected). [AwaitTimeout d k]: a timer of [d] ms has been set. *)
Inductive task :=
| Done (o : outcome)
| AwaitFn (k : A + E -> task)
| ConsoleLog (m : log_msg) (k : task)
| AwaitTimeout (delay : Z) (k : task).

(** The [while (retries < maxRetries)] loop of [retryWithBackoff], from
    the value [retries] has at the loop head. *)
Equations? retry_loop (maxRetries initialDelay retries : Z) : task
  by wf (Z.to_nat (maxRetries - retries)) lt :=
retry_loop maxRetries initialDelay retries
    with Z_lt_dec retries maxRetries := {
  | left _ =>
      AwaitFn (fun settled =>
        match settled with
        | inl a => Done (Returned a)
        | inr error =>
            let retries' := (retries + 1)%Z in
            if (retries' =? maxRetries)%Z then Done (Thrown error)
            else
              let delay := (initialDelay * 2 ^ retries')%Z in
              ConsoleLog (RetryMsg retries' delay)
                (AwaitTimeout delay
                   (retry_loop maxRetries initialDelay retries'))
        end)
  | right _ => Done Undefined }.
Proof. lia. Qed.

(** [async function retryWithBackoff(fn, maxRetries = 3, initialDelay = 1000)];
    [let retries = 0]. The operation [fn] is whatever answers the
    [AwaitFn] nodes. *)
Definition retryWithBackoff (maxRetries initialDelay : Z) : task :=
  retry_loop maxRetries initialDelay 0.

Definition DEFAULT_MAX_RETRIES : Z := 3.
Definition DEFAULT_INITIAL_DELAY : Z := 1000.

(** The call as [initializeVectorStore] makes it: both optional
    arguments left out. *)
Definition retryWithBackoff_default : task :=
  retryWithBackoff DEFAULT_MAX_RETRIES DEFAULT_INITIAL_DELAY.

(** ** One call run to completion

    What a single call does, observed from outside: the operation is
    invoked, a line is logged, a timer is set. *)
Inductive effect :=
| EInvoke
| ELog (m : log_msg)
| ESetTimeout (delay : Z).

(** [run t fn n]: run [t] to its end, where the operation's [k]-th
    invocation (counted from 0 over the whole run, [n] of them made so
    far) settles with [fn k]. *)
Fixpoint run (t : task) (fn : nat -> A + E) (n : nat)
  : list effect * outcome :=
  match t with
  | Done o => ([], o)
  | AwaitFn k =>
      let '(tr, o) := run (k (fn n)) fn (S n) in (EInvoke :: tr, o)
  | ConsoleLog m k =>
      let '(tr, o) := run k fn n in (ELog m :: tr, o)
  | AwaitTimeout d k =>
      let '(tr, o) := run k fn n in (ESetTimeout d :: tr, o)
  end.

Definition is_invoke (ev : effect) : bool :=
  match ev with EInvoke => true | _ => false end.

Definition invocations (tr : list effect) : nat :=
  length (filter (fun ev => is_invoke ev = true) tr).

(** Invocations after the first one. *)
Definition reinvocations (tr : list effect) : nat :=
  Nat.pred (invocations tr).

Definition timeouts (tr : list effect) : list Z :=
  omap (fun ev => match ev with ESetTimeout d => Some d | _ => None end) tr.

Definition failed (settled : A + E) : Prop :=
  match settled with inl _ => False | inr _ => True end.

(** What the loop does between a failed invocation and the next one,
    when it is the [i]-th retry that follows. *)
Definition retry_round (initialDelay : Z) (i : nat) : list effect :=
  let delay := (initialDelay * 2 ^ Z.of_nat i)%Z in
  [ELog (RetryMsg (Z.of_nat i) delay); ESetTimeout delay; EInvoke].

End Task.

Arguments outcome : clear implicits.
Arguments task : clear implicits.

End Async.

(* ================================================================== *)
(** * [retryWithBackoff] with any number for [maxRetries] *)
(* ================================================================== *)

Module Js.
Import Async.

(** A JavaScript number, as far as [retryWithBackoff] compares
    [maxRetries] with its counter: a finite number is the ratio
    [num / den] (every finite double is one), and there are the two
    infinities and [NaN]. *)
Inductive number :=
| Finite (num : Z) (den : positive)
| PosInfinity
| NegInfinity
| NaN.


(** [retries < maxRetries], for the whole number [retries]. *)
Definition lt (retries : Z) (maxRetries : number) : bool :=
  match maxRetries with
  | Finite num den => (retries * Z.pos den <? num)%Z
  | PosInfinity => true
  | NegInfinity | NaN => false
  end.

(** [retries === maxRetries], for the whole number [retries]. *)
Definition strict_eq (retries : Z) (maxRetries : number) : bool :=
  match maxRetries with
  | Finite num den => (retries * Z.pos den =? num)%Z
  | PosInfinity | NegInfinity | NaN => false
  end.




Section Loop.
Context {A E : Type}.

(** The [while (retries < maxRetries)] loop run to its end, from the
    value [retries] has at the loop head, where the operation's [k]-th
    invocation settles with [fn k] and [n] invocations were made so far.
    With [maxRetries = Infinity] and an operation that keeps failing
    the loop does not end: [fuel] bounds the iterations, and [None]
    says they were not enough. The counter is exact, as it is in
    JavaScript below 2^53 iterations. *)
Fixpoint while_loop (fuel : nat) (maxRetries : number)
    (initialDelay retries : Z) (fn : nat -> A + E) (n : nat)
  : option (list effect * outcome A E) :=
  match fuel with
  | 0 => None
  | S fuel =>
      if lt retries maxRetries then
        match fn n with
        | inl a => Some ([EInvoke], Returned a)
        | inr error =>
            let retries' := (retries + 1)%Z in
            if strict_eq retries' maxRetries
            then Some ([EInvoke], Thrown error)
            else
              let delay := (initialDelay * 2 ^ retries')%Z in
              match while_loop fuel maxRetries initialDelay retries' fn (S n)
              with
              | Some (tr, o) =>
                  Some (EInvoke :: ELog (RetryMsg retries' delay)
                          :: ESetTimeout delay :: tr, o)
              | None => None
              end
        end
      else Some ([], Undefined)
  end.

(** [async function retryWithBackoff(fn, maxRetries = 3, initialDelay = 1000)]
    run to its end. *)
Definition retryWithBackoff (fuel : nat) (maxRetries : number)
    (initialDelay : Z) (fn : nat -> A + E)
  : option (list effect * outcome A E) :=
  while_loop fuel maxRetries initialDelay 0 fn 0.

End Loop.
End Js.

(* ================================================================== *)
(** * [initializeVectorStore]: batches, the concurrency limit and the event loop *)
(* ================================================================== *)

Module Ingest.
Import Async.

Section Model.
Context {Doc A E : Type}.

(** [const batchSize = 50] and [const limit = pLimit(5)]. *)
Definition batchSize : nat := 50.
Definition concurrency : nat := 5.

(** [docs.slice(start, stop)] *)
Definition slice (docs : list Doc) (start stop : nat) : list Doc :=
  take (stop - start) (drop start docs).

(** The promise made by one [limit(() => retryWithBackoff(...))] call:
    still in p-limit's queue, started and suspended at an [await], or
    settled. *)
Inductive status :=
| Queued
| Running (t : task A E)
| Settled (o : outcome A E).

(** One such call: made for [docs[e_id]] while the loop variable [i]
    had the value [e_batch]. *)
Record entry := Entry {
  e_batch : nat;
  e_id : nat;
  e_doc : Doc;
  e_status : status;
}.

Definition with_status (st : status) (en : entry) : entry :=
  {| e_batch := e_batch en; e_id := e_id en; e_doc := e_doc en;
     e_status := st |}.

(** Where [initializeVectorStore] itself stands: suspended at
    [await Promise.all(...)] of the batch that starts at [i], returned,
    or left by the exception the [await] rethrew. *)
Inductive main_pc :=
| AwaitingAll (i : nat)
| Finished
| Failed (e : E).

(** What can be observed, with the batch and the document index of the
    write concerned: [fn()] is called (a write request goes out), the
    retry line is logged, the back-off timer is set, the promise of
    [retryWithBackoff] settles, and the progress line
    [Processed ${i + batch.length} out of ${docs.length} documents]. *)
Inductive event :=
| EvIssue (i id : nat)
| EvRetryLog (i id : nat) (m : log_msg)
| EvTimer (i id : nat) (delay : Z)
| EvSettled (i id : nat) (o : outcome A E)
| EvProgress (processed total : nat).

(** [st_trace] has the most recent event first. *)
Record state := State {
  st_main : main_pc;
  st_tasks : list entry;
  st_trace : list event;
}.

Definition is_running (st : status) : bool :=
  match st with Running _ => true | _ => false end.

Definition is_fulfilled (o : outcome A E) : bool :=
  match o with Thrown _ => false | _ => true end.

Definition active (ts : list entry) : nat :=
  length (filter (fun en => is_running (e_status en) = true) ts).

(** Run the body of a started call up to its next suspension or its
    end. *)
Fixpoint advance (i id : nat) (t : task A E) (tr : list event)
  : status * list event :=
  match t with
  | Done o => (Settled o, EvSettled i id o :: tr)
  | AwaitFn k => (Running (AwaitFn k), EvIssue i id :: tr)
  | ConsoleLog m k => advance i id k (EvRetryLog i id m :: tr)
  | AwaitTimeout d k => (Running (AwaitTimeout d k), EvTimer i id d :: tr)
  end.

(** p-limit: queued calls are started in the order they were made,
    as long as fewer than [concurrency] are running. [running] is the
    number of calls running in the whole list. *)
Fixpoint start_queued (running : nat) (ts : list entry) (tr : list event)
  : list entry * list event :=
  match ts with
  | [] => ([], tr)
  | en :: rest =>
      match e_status en with
      | Queued =>
          if running <? concurrency then
            let '(st, tr1) :=
              advance (e_batch en) (e_id en) retryWithBackoff_default tr in
            let running1 := if is_running st then S running else running in
            let '(rest', tr2) := start_queued running1 rest tr1 in
            (with_status st en :: rest', tr2)
          else (en :: rest, tr)
      | _ =>
          let '(rest', tr1) := start_queued running rest tr in
          (en :: rest', tr1)
      end
  end.

Definition pump (ts : list entry) (tr : list event)
  : list entry * list event :=
  start_queued (active ts) ts tr.

(** [batch.map(doc => limit(...))]: one queued call per document of the
    batch. *)
Definition new_entries (i : nat) (batch : list Doc) : list entry :=
  imap (fun j doc =>
          {| e_batch := i; e_id := i + j; e_doc := doc;
             e_status := Queued |}) batch.

(** The [for] loop at its head with loop variable [i]: either the next
    batch is cut, its calls are handed to the limiter and the function
    suspends at [await Promise.all], or the loop and the function end. *)
Definition loop_head (docs : list Doc) (i : nat)
    (ts : list entry) (tr : list event) : state :=
  if i <? length docs then
    let batch := slice docs i (i + batchSize) in
    let '(ts1, tr1) := pump (ts ++ new_entries i batch) tr in
    {| st_main := AwaitingAll i; st_tasks := ts1; st_trace := tr1 |}
  else {| st_main := Finished; st_tasks := ts; st_trace := tr |}.

(** [async function initializeVectorStore(docs)], at its first
    suspension. The client and the embeddings object it makes, and the
    line that logs them, have no part in what follows and are left out. *)
Definition initializeVectorStore (docs : list Doc) : state :=
  loop_head docs 0 [] [].

(** [Promise.all] over the calls of batch [i] is fulfilled once each of
    them is. *)
Definition batch_fulfilled (i : nat) (ts : list entry) : bool :=
  forallb (fun en =>
             if e_batch en =? i then
               match e_status en with
               | Settled o => is_fulfilled o
               | _ => false
               end
             else true) ts.

(** What the settlement [o] of a call of batch [b] means for
    [initializeVectorStore]. While it awaits the [Promise.all] of that
    batch: a rejection rejects the [Promise.all], the [await] throws and
    the function is left; the last fulfilment lets it log the progress
    line and go round the loop. Otherwise nothing. *)
Definition on_settled (docs : list Doc) (b : nat) (o : outcome A E)
    (main : main_pc) (ts : list entry) (tr : list event) : state :=
  match main with
  | AwaitingAll i =>
      if b =? i then
        match o with
        | Thrown e => {| st_main := Failed e; st_tasks := ts; st_trace := tr |}
        | _ =>
            if batch_fulfilled i ts then
              let batch := slice docs i (i + batchSize) in
              loop_head docs (i + batchSize) ts
                (EvProgress (i + length batch) (length docs) :: tr)
            else {| st_main := main; st_tasks := ts; st_trace := tr |}
        end
      else {| st_main := main; st_tasks := ts; st_trace := tr |}
  | _ => {| st_main := main; st_tasks := ts; st_trace := tr |}
  end.

Definition set_status (id : nat) (st : status) (ts : list entry)
  : list entry :=
  map (fun en => if e_id en =? id then with_status st en else en) ts.

(** The call [en] goes on with [t]. When it settles, p-limit starts
    the next queued call, and the [Promise.all] it belongs to reacts. *)
Definition resume (docs : list Doc) (en : entry) (t : task A E)
    (s : state) : state :=
  let '(st, tr1) := advance (e_batch en) (e_id en) t (st_trace s) in
  let ts1 := set_status (e_id en) st (st_tasks s) in
  match st with
  | Settled o =>
      let '(ts2, tr2) := pump ts1 tr1 in
      on_settled docs (e_batch en) o (st_main s) ts2 tr2
  | _ => {| st_main := st_main s; st_tasks := ts1; st_trace := tr1 |}
  end.

(** What the outside world does: the write a call awaits settles, or a
    back-off timer fires. In which order, and how each write settles, is
    not up to the program. *)
Inductive action :=
| WriteSettles (id : nat) (settled : A + E)
| TimerFires (id : nat).

Definition fire (docs : list Doc) (a : action) (s : state)
  : option state :=
  match a with
  | WriteSettles id settled =>
      match find (fun en => e_id en =? id) (st_tasks s) with
      | Some en =>
          match e_status en with
          | Running (AwaitFn k) => Some (resume docs en (k settled) s)
          | _ => None
          end
      | None => None
      end
  | TimerFires id =>
      match find (fun en => e_id en =? id) (st_tasks s) with
      | Some en =>
          match e_status en with
          | Running (AwaitTimeout _ k) => Some (resume docs en k s)
          | _ => None
          end
      | None => None
      end
  end.

Fixpoint exec (docs : list Doc) (acts : list action) (s : state)
  : option state :=
  match acts with
  | [] => Some s
  | a :: rest =>
      match fire docs a s with
      | Some s' => exec docs rest s'
      | None => None
      end
  end.

(** The states [initializeVectorStore docs] can be in. *)
Definition reachable (docs : list Doc) (s : state) : Prop :=
  exists acts, exec docs acts (initializeVectorStore docs) = Some s.

(** ** Reading a trace *)

(** The progress lines, oldest first. *)
Definition progress_reports (tr : list event) : list (nat * nat) :=
  omap (fun ev => match ev with
                  | EvProgress p t => Some (p, t)
                  | _ => None
                  end) (rev tr).

Definition is_rejection (ev : event) : Prop :=
  match ev with EvSettled _ _ (Thrown _) => True | _ => False end.

Definition is_progress (ev : event) : Prop :=
  match ev with EvProgress _ _ => True | _ => False end.

(** The batch a write request belongs to, for other events [None]. *)
Definition issue_batch (ev : event) : option nat :=
  match ev with EvIssue i _ => Some i | _ => None end.

(** ** What holds in every reachable state *)

Definition settled_ok (en : entry) : Prop :=
  exists o, e_status en = Settled o /\ is_fulfilled o = true.

(** The call for [docs[k]] of batch [b] was fulfilled within [tr]. *)
Definition fulfilled_in (b k : nat) (tr : list event) : Prop :=
  exists o, is_fulfilled o = true /\ In (EvSettled b k o) tr.

(** The part that does not depend on where [initializeVectorStore]
    stands; [cur] is the start index of the batch cut last. *)
Record core (cur : nat) (ts : list entry) (tr : list event) : Prop := {
  core_ids : map e_id ts = seq 0 (length ts);
  core_bat : forall en, In en ts ->
    e_batch en <= cur /\ (e_batch en < cur -> settled_ok en);
  core_s2e : forall en o, In en ts -> e_status en = Settled o ->
    In (EvSettled (e_batch en) (e_id en) o) tr;
  core_e2s : forall b k o, In (EvSettled b k o) tr ->
    exists en, In en ts /\ e_batch en = b /\ e_id en = k
               /\ e_status en = Settled o;
  core_iss : forall b k, In (EvIssue b k) tr -> b <= cur;
  core_ord : forall later earlier i id,
    tr = later ++ EvIssue i id :: earlier ->
    (forall en, In en ts -> e_batch en < i ->
       fulfilled_in (e_batch en) (e_id en) earlier)
    /\ (forall b k, In (EvIssue b k) earlier -> b <= i);
}.

(** How one step changes a call. It keeps its batch, index and
    document; its status changes at most from unsettled to something
    else, and a settlement is in the new part [new] of the trace. *)
Definition upd (new : list event) (en en' : entry) : Prop :=
  en' = en
  \/ exists st,
       en' = with_status st en
       /\ (forall o, e_status en <> Settled o)
       /\ (forall o, st = Settled o ->
             In (EvSettled (e_batch en) (e_id en) o) new).

(** What p-limit does when it looks at its queue: calls that were
    queued may now be running, each with its first write request out. *)
Definition started (en en' : entry) : Prop :=
  en' = en
  \/ (e_status en = Queued
      /\ exists k, en' = with_status (Running (AwaitFn k)) en
                   /\ forall a, k (inl a) = Done (Returned a)).

(** The calls made once [n] batches have been cut, and the progress
    lines logged once [m] batches are through. *)
Definition planned (docs : list Doc) (n : nat) : list (nat * nat * Doc) :=
  flat_map (fun k =>
              let i := k * batchSize in
              imap (fun j doc => (i, i + j, doc))
                   (slice docs i (i + batchSize)))
           (seq 0 n).

Definition expected_progress (docs : list Doc) (m : nat)
  : list (nat * nat) :=
  map (fun k =>
         let i := k * batchSize in
         (i + length (slice docs i (i + batchSize)), length docs))
      (seq 0 m).

Definition static (en : entry) : nat * nat * Doc :=
  (e_batch en, e_id en, e_doc en).

(** The part that depends on where [initializeVectorStore] stands,
    after [n] batches have been cut. *)
Definition main_ok (docs : list Doc) (n : nat) (main : main_pc)
    (ts : list entry) (tr : list event) : Prop :=
  match main with
  | AwaitingAll i =>
      1 <= n /\ i = (n - 1) * batchSize /\ i < length docs
      /\ (forall ev, In ev tr -> ~ is_rejection ev)
      /\ progress_reports tr = expected_progress docs (n - 1)
  | Finished =>
      length docs <= n * batchSize
      /\ (forall ev, In ev tr -> ~ is_rejection ev)
      /\ (forall en, In en ts -> settled_ok en)
      /\ progress_reports tr = expected_progress docs n
  | Failed e0 =>
      1 <= n
      /\ progress_reports tr = expected_progress docs (n - 1)
      /\ exists later id earlier,
           tr = later ++ EvSettled ((n - 1) * batchSize) id (Thrown e0)
                        :: earlier
           /\ (forall ev, In ev earlier -> ~ is_rejection ev)
           /\ (forall ev, In ev later -> ~ is_progress ev)
  end.

Record inv (docs : list Doc) (n : nat) (s : state) : Prop := {
  inv_core : core ((n - 1) * batchSize) (st_tasks s) (st_trace s);
  inv_plan : map static (st_tasks s) = planned docs n;
  inv_cut : n = 0 \/ (n - 1) * batchSize < length docs;
  inv_main : main_ok docs n (st_main s) (st_tasks s) (st_trace s);
}.

(** ** Runs in which every write succeeds at its first attempt *)

Definition succeeds_at_once (a : action) : Prop :=
  match a with
  | WriteSettles _ (inl _) => True
  | _ => False
  end.

Definition is_settled (st : status) : bool :=
  match st with Settled _ => true | _ => false end.

Definition settled_count (ts : list entry) : nat :=
  length (List.filter (fun en => is_settled (e_status en)) ts).

(** A call that has not failed yet: queued, waiting for its first
    write, or fulfilled. *)
Definition at_first_attempt (st : status) : Prop :=
  match st with
  | Queued => True
  | Running t =>
      exists k, t = AwaitFn k /\ forall a, k (inl a) = Done (Returned a)
  | Settled o => exists a, o = Returned a
  end.

(** What holds along such a run once [m] writes have settled. The last
    part is p-limit's: a call waits in the queue only while
    [concurrency] others are running. *)
Record calm (s : state) (m : nat) : Prop := {
  calm_status : forall en, In en (st_tasks s) ->
    at_first_attempt (e_status en);
  calm_count : settled_count (st_tasks s) = m;
  calm_main :
    match st_main s with
    | AwaitingAll i =>
        exists en, In en (st_tasks s) /\ e_batch en = i
                   /\ is_settled (e_status en) = false
    | Finished => True
    | Failed _ => False
    end;
  calm_queue :
    (exists en, In en (st_tasks s) /\ e_status en = Queued) ->
    concurrency <= active (st_tasks s);
}.

(** The schedule in which every write succeeds at its first attempt,
    in document order. *)
Definition all_succeed (a : A) (n : nat) : list action :=
  map (fun id => WriteSettles id (inl a)) (seq 0 n).

End Model.

Arguments status : clear implicits.
Arguments entry : clear implicits.
Arguments main_pc : clear implicits.
Arguments event : clear implicits.
Arguments state : clear implicits.
Arguments action : clear implicits.

End Ingest.

(* ================================================================== *)
(** * Documents and [loadDocumentsFromDirectory] *)
(* ================================================================== *)

Module Loader.

Open Scope string_scope.

(** langchain's [Document]: [{ pageContent, metadata }]. The metadata
    this program writes are strings. *)
Record Document := mkDocument {
  pageContent : string;
  metadata : gmap string string;
}.

Definition nl : string := String (ascii_of_nat 10) EmptyString.

Section Loader.
Context {Err Dom : Type}.

(** What the loader calls and does not define: [fs.readdir] with
    [{ recursive: true }], [fs.readFile] with ['utf-8'], [path.join],
    [path.extname], [String.prototype.toLowerCase], [cheerio.load] and
    the three selections made on the loaded page,
    [$('title').text()], [$('meta[name="description"]').attr('content')]
    and [$('.content').text()]. A promise that rejects and a call that
    throws are [inl]. *)
Record Env := mkEnv {
  readdir : string -> Err + list string;
  readFile : string -> Err + string;
  path_join : string -> string -> string;
  path_extname : string -> string;
  toLowerCase : string -> string;
  cheerio_load : string -> Err + Dom;
  title_text : Dom -> string;
  description_attr : Dom -> option string;
  content_text : Dom -> string;
}.

(** What the loader does to the outside, oldest first. *)
Inductive effect :=
| Readdir (directoryPath : string)
| ReadFile (filePath : string)
| LogParsing (filePath : string)
| WarnUnsupported (file : string)
| ErrorProcessing (file : string) (error : Err).

(** How the [try] block of one iteration ends: it runs to its end with
    [content] and [metadata] set, it leaves by [continue], or it
    throws. *)
Inductive completion :=
| Normal (content : string) (metadata : gmap string string)
| Continue
| Throw (error : Err).

Variable env : Env.

(** [attr('content') || '']: [undefined] and the empty string both give
    the empty string. *)
Definition or_empty (attr : option string) : string :=
  match attr with
  | Some s => s
  | None => ""
  end.

(** The [try] block: [let metadata = { source: file }] and the
    [switch (ext)]. *)
Definition try_block (filePath file ext : string)
  : completion * list effect :=
  let metadata : gmap string string := {[ "source" := file ]} in
  if (ext =? ".txt") || (ext =? ".md") then
    match readFile env filePath with
    | inr content => (Normal content metadata, [ReadFile filePath])
    | inl error => (Throw error, [ReadFile filePath])
    end
  else if ext =? ".html" then
    match readFile env filePath with
    | inr htmlContent =>
        match cheerio_load env htmlContent with
        | inr dom =>
            let title := title_text env dom in
            let description := or_empty (description_attr env dom) in
            let mainContent := content_text env dom in
            let content :=
              title ++ nl ++ nl ++ description ++ nl ++ nl ++ mainContent in
            (Normal content
               (<["description" := description]>
                  (<["title" := title]> metadata)),
             [LogParsing filePath; ReadFile filePath])
        | inl error => (Throw error, [LogParsing filePath; ReadFile filePath])
        end
    | inl error => (Throw error, [LogParsing filePath; ReadFile filePath])
    end
  else (Continue, [WarnUnsupported file]).

(** One iteration of [for (const file of files)]: the [try] block, then
    [documents.push(...)] if it ran to its end, [console.error] if it
    threw. *)
Definition iteration (directoryPath file : string)
    (documents : list Document) : list Document * list effect :=
  let filePath := path_join env directoryPath file in
  let ext := toLowerCase env (path_extname env file) in
  match try_block filePath file ext with
  | (Normal content metadata, effs) =>
      ((documents ++ [mkDocument content metadata])%list, effs)
  | (Continue, effs) => (documents, effs)
  | (Throw error, effs) =>
      (documents, (effs ++ [ErrorProcessing file error])%list)
  end.

Fixpoint for_files (directoryPath : string) (files : list string)
    (documents : list Document) : list Document * list effect :=
  match files with
  | [] => (documents, [])
  | file :: rest =>
      let '(documents1, effs1) := iteration directoryPath file documents in
      let '(documents2, effs2) := for_files directoryPath rest documents1 in
      (documents2, (effs1 ++ effs2)%list)
  end.

(** [async function loadDocumentsFromDirectory(directoryPath)]. The
    [readdir] is outside every [try]: if it rejects, so does the
    function. *)
Definition loadDocumentsFromDirectory (directoryPath : string)
  : (Err + list Document) * list effect :=
  match readdir env directoryPath with
  | inl error => (inl error, [Readdir directoryPath])
  | inr files =>
      let '(documents, effs) := for_files directoryPath files [] in
      (inr documents, Readdir directoryPath :: effs)
  end.

(** ** The loader in the words of the specification *)

(** A file has a recognized extension. *)
Definition recognized (file : string) : bool :=
  let ext := toLowerCase env (path_extname env file) in
  (ext =? ".txt") || (ext =? ".md") || (ext =? ".html").

Definition is_html (file : string) : bool :=
  toLowerCase env (path_extname env file) =? ".html".

(** A recognized file reads and, for a page, parses. *)
Definition reads_and_parses (directoryPath file : string) : bool :=
  match readFile env (path_join env directoryPath file) with
  | inr text =>
      if is_html file then
        match cheerio_load env text with
        | inr _ => true
        | inl _ => false
        end
      else true
  | inl _ => false
  end.

Definition succeeds (directoryPath file : string) : bool :=
  recognized file && reads_and_parses directoryPath file.

(** The Document a file that succeeds is turned into: raw text for
    [.txt] and [.md], title, description and main content for a page. *)
Definition loaded_from (directoryPath file : string) (doc : Document)
  : Prop :=
  metadata doc !! "source" = Some file
  /\ if is_html file then
       exists text dom,
         readFile env (path_join env directoryPath file) = inr text
         /\ cheerio_load env text = inr dom
         /\ pageContent doc =
            title_text env dom ++ nl ++ nl
            ++ or_empty (description_attr env dom) ++ nl ++ nl
            ++ content_text env dom
         /\ metadata doc !! "title" = Some (title_text env dom)
         /\ metadata doc !! "description" =
            Some (or_empty (description_attr env dom))
     else
       readFile env (path_join env directoryPath file)
       = inr (pageContent doc).

End Loader.

Arguments Env : clear implicits.
Arguments effect : clear implicits.
Arguments completion : clear implicits.

(** ** The text splitter *)

(** Modelled from the spec: langchain's [RecursiveCharacterTextSplitter],
    which [initializeChatbot] calls with [chunkSize: 1000] and
    [chunkOverlap: 200], is a dependency and not under src/. The
    specification (4.2, 3) asks of it: windows of at most [chunkSize]
    characters, consecutive windows of one Document overlapping by
    [chunkOverlap] characters, order kept, no chunk for an empty
    Document, and each chunk carrying the metadata of its Document. *)
Fixpoint windows (fuel chunkSize chunkOverlap : nat) (text : string)
  : list string :=
  match fuel with
  | 0 => []
  | S fuel =>
      if Nat.eqb (String.length text) 0 then []
      else if Nat.leb (String.length text) chunkSize then [text]
      else
        String.substring 0 chunkSize text
        :: windows fuel chunkSize chunkOverlap
             (String.substring (chunkSize - chunkOverlap)
                (String.length text - (chunkSize - chunkOverlap)) text)
  end.

Definition split_text (chunkSize chunkOverlap : nat) (text : string)
  : list string :=
  windows (String.length text) chunkSize chunkOverlap text.

Definition splitDocuments (chunkSize chunkOverlap : nat)
    (documents : list Document) : list Document :=
  flat_map (fun doc =>
              map (fun text => mkDocument text (metadata doc))
                  (split_text chunkSize chunkOverlap (pageContent doc)))
           documents.

End Loader.

(* ================================================================== *)
(** * [initializeChatbot], [createChatbot] and [askQuestion] *)
(* ================================================================== *)

Module Chatbot.
Import Loader.

Open Scope string_scope.

(** ** Prompt templates *)

(** langchain's f-string templates, as [PromptTemplate.fromTemplate]
    reads them: [{name}] is an input variable, [{{] and [}}] stand for a
    brace, a brace on its own is an error. *)
Inductive node :=
| Literal (text : string)
| InputVariable (name : string).

Inductive mode :=
| InLiteral (text : string)
| InVariable (name : string).

Definition flush (text : string) (nodes : list node) : list node :=
  if text =? "" then nodes else Literal text :: nodes.

Definition snoc (s : string) (c : ascii) : string :=
  s ++ String c EmptyString.

Fixpoint scan (template : string) (m : mode) : option (list node) :=
  match template, m with
  | EmptyString, InLiteral text => Some (flush text [])
  | EmptyString, InVariable _ => None
  | String c rest, InLiteral text =>
      if Ascii.eqb c "{"%char then
        match rest with
        | String c' rest' =>
            if Ascii.eqb c' "{"%char
            then scan rest' (InLiteral (snoc text c))
            else option_map (flush text) (scan rest (InVariable ""))
        | EmptyString => None
        end
      else if Ascii.eqb c "}"%char then
        match rest with
        | String c' rest' =>
            if Ascii.eqb c' "}"%char
            then scan rest' (InLiteral (snoc text c))
            else None
        | EmptyString => None
        end
      else scan rest (InLiteral (snoc text c))
  | String c rest, InVariable name =>
      if Ascii.eqb c "}"%char
      then option_map (cons (InputVariable name)) (scan rest (InLiteral ""))
      else scan rest (InVariable (snoc name c))
  end.

Definition parseFString (template : string) : option (list node) :=
  scan template (InLiteral "").

(** Values are put in as they are: a brace inside a value is not read
    again. A variable without a value is an error. *)
Fixpoint interpolate (nodes : list node) (values : string -> option string)
  : option string :=
  match nodes with
  | [] => Some ""
  | Literal text :: rest =>
      option_map (fun tail => text ++ tail) (interpolate rest values)
  | InputVariable name :: rest =>
      match values name with
      | Some value =>
          option_map (fun tail => value ++ tail) (interpolate rest values)
      | None => None
      end
  end.

Definition format (template : string) (values : string -> option string)
  : option string :=
  match parseFString template with
  | Some nodes => interpolate nodes values
  | None => None
  end.

(** The template literal of [createChatbot], with the line breaks and
    the indentation it has in the source. *)
Definition TEMPLATE : string :=
  "Answer the following question based on the context:" ++ nl
  ++ "        Context: {context}" ++ nl
  ++ "        Question: {question}" ++ nl
  ++ "        Answer:".

(** The template with both values in place. *)
Definition rendered (context question : string) : string :=
  "Answer the following question based on the context:" ++ nl
  ++ "        Context: " ++ context ++ nl
  ++ "        Question: " ++ question ++ nl
  ++ "        Answer:".

Section Chatbot.
Context {Err Dom Response : Type}.

(** An exception is either made by the program itself,
    [new Error(message)], or comes out of a service. *)
Inductive error :=
| JsError (message : string)
| External (e : Err).

(** The services the program talks to: what the directory loader
    needs, the two loaders of langchain
    ([new CheerioWebBaseLoader(url).load()] and
    [new GithubRepoLoader(repoUrl, { branch: "master", recursive: true,
    unknown: "warn" }).load()]), the retriever of the vector store and
    the chat model. *)
Record Services := mkServices {
  files : Loader.Env Err Dom;
  web_load : string -> Err + list Document;
  github_load : string -> Err + list Document;
  getRelevantDocuments : string -> Err + list Document;
  ollama_invoke : string -> Err + Response;
}.

(** What the program does to the outside, oldest first. *)
Inductive effect :=
| Load (e : Loader.effect Err)
| WebLoad (url : string)
| GithubLoad (repoUrl : string)
| LogRawDocs (n : nat)
| SplitDocuments (n : nat)
| Retrieve (question : string)
| InvokeModel (prompt : string).

Variable services : Services.

(** How far [initializeChatbot] gets before the vector store comes in:
    it throws, or it reaches [await initializeVectorStore(docs)]. From
    there on it does what [Ingest.initializeVectorStore docs] does. *)
Inductive initialized :=
| Threw (e : error)
| Ingesting (docs : list Document).

Definition chunkSize : nat := 1000.
Definition chunkOverlap : nat := 200.

(** The [switch (sourceType)]: [None] is its [default] branch. *)
Definition load_source (source sourceType : string)
  : option ((Err + list Document) * list effect) :=
  if sourceType =? "directory" then
    let '(loaded, effs) := loadDocumentsFromDirectory (files services) source in
    Some (loaded, map Load effs)
  else if sourceType =? "url" then
    Some (web_load services source, [WebLoad source])
  else if sourceType =? "github" then
    Some (github_load services source, [GithubLoad source])
  else None.

Definition initializeChatbot (source sourceType : string)
  : initialized * list effect :=
  match load_source source sourceType with
  | None => (Threw (JsError "Invalid source type"), [])
  | Some (inl e, effs) => (Threw (External e), effs)
  | Some (inr rawDocs, effs) =>
      let docs := splitDocuments chunkSize chunkOverlap rawDocs in
      (Ingesting docs,
       (effs ++ [LogRawDocs (length rawDocs);
                 SplitDocuments (length rawDocs)])%list)
  end.

(** The values the first step of the chain hands to the prompt. *)
Definition prompt_values (context question : string) (name : string)
  : option string :=
  if name =? "context" then Some context
  else if name =? "question" then Some question
  else None.

(** A runnable chain, by what [chain.invoke({ question })] does. *)
Definition Runnable : Type := string -> (error + Response) * list effect.

(** [async function createChatbot()]: the
    [RunnableSequence.from([{ context, question }, prompt, ollama])] it
    returns. Invoked, the chain retrieves, joins the page contents with a
    line break, fills in the template and calls the model. The vector
    store and the chat model that [createChatbot] sets up are the
    retriever and the model of [services]. *)
Definition createChatbot : Runnable := fun question =>
  match getRelevantDocuments services question with
  | inl e => (inl (External e), [Retrieve question])
  | inr docs =>
      let context := String.concat nl (map pageContent docs) in
      match format TEMPLATE (prompt_values context question) with
      | None => (inl (JsError "Invalid prompt"), [Retrieve question])
      | Some prompt =>
          match ollama_invoke services prompt with
          | inl e =>
              (inl (External e), [Retrieve question; InvokeModel prompt])
          | inr response =>
              (inr response, [Retrieve question; InvokeModel prompt])
          end
      end
  end.

(** [async function askQuestion(chain, question)] *)
Definition askQuestion (chain : Runnable) (question : string)
  : (error + Response) * list effect :=
  chain question.

Definition model_calls (effs : list effect) : list string :=
  omap (fun eff => match eff with
                   | InvokeModel prompt => Some prompt
                   | _ => None
                   end) effs.

Definition retrievals (effs : list effect) : list string :=
  omap (fun eff => match eff with
                   | Retrieve question => Some question
                   | _ => None
                   end) effs.

End Chatbot.

Arguments error : clear implicits.
Arguments Services : clear implicits.
Arguments effect : clear implicits.
Arguments initialized : clear implicits.

End Chatbot.

(* ================================================================== *)
(** * Concrete operations, directories and services *)
(* ================================================================== *)

Module Examples.
Import Async Ingest Loader Chatbot.

Open Scope string_scope.

(** A write that fails once with a connection error and then succeeds,
    and one that never succeeds. *)
Definition flaky (k : nat) : nat + string :=
  if Nat.ltb k 1 then inr "ECONNRESET" else inl 7.

Definition always_failing (k : nat) : nat + string :=
  inr "ECONNREFUSED".

(** 120 chunks, and 60 chunks of which the one at index 52 cannot be
    written: the first batch goes through, then the three attempts for
    chunk 52 fail. *)
Definition chunks120 : list nat := seq 0 120.

Definition chunks60 : list nat := seq 0 60.

Definition chunk52_rejected : list (action unit string) :=
  (all_succeed tt 50
   ++ [WriteSettles 52 (inr "ECONNREFUSED"); TimerFires 52;
       WriteSettles 52 (inr "ECONNREFUSED"); TimerFires 52;
       WriteSettles 52 (inr "ECONNREFUSED");
       WriteSettles 50 (inl tt)])%list.

Definition after_rejection : state nat unit string :=
  default (initializeVectorStore chunks60)
    (exec chunks60 chunk52_rejected (initializeVectorStore chunks60)).

(** A directory [docs] with [a.md], which reads "Hello world", and
    [b.unknown]. The record is a test double, not a model of Node: its
    functions answer as [fs], [path.join], [path.extname] and
    [toLowerCase] do for this directory and its two files, which is all
    the loader asks them when it is given [docs]; no other directory
    exists. *)
Definition two_files : Env string unit := {|
  readdir := fun directoryPath =>
    if directoryPath =? "docs" then inr ["a.md"; "b.unknown"]
    else inl "ENOENT";
  readFile := fun filePath =>
    if filePath =? "docs/a.md" then inr "Hello world" else inl "ENOENT";
  path_join := fun directoryPath file =>
    if (directoryPath =? "docs") && (file =? "a.md") then "docs/a.md"
    else if (directoryPath =? "docs") && (file =? "b.unknown")
         then "docs/b.unknown"
         else "";
  path_extname := fun file =>
    if file =? "a.md" then ".md"
    else if file =? "b.unknown" then ".unknown"
    else "";
  toLowerCase := fun ext =>
    if ext =? ".md" then ".md"
    else if ext =? ".unknown" then ".unknown"
    else "";
  cheerio_load := fun _ => inr tt;
  title_text := fun _ => "";
  description_attr := fun _ => None;
  content_text := fun _ => "";
|}.

Definition hello_world : Document :=
  {| pageContent := "Hello world"; metadata := {[ "source" := "a.md" ]} |}.

(** A directory [docs] whose only file, [empty.txt], is empty; a test
    double in the same way. *)
Definition empty_file : Env string unit := {|
  readdir := fun directoryPath =>
    if directoryPath =? "docs" then inr ["empty.txt"] else inl "ENOENT";
  readFile := fun filePath =>
    if filePath =? "docs/empty.txt" then inr "" else inl "ENOENT";
  path_join := fun directoryPath file =>
    if (directoryPath =? "docs") && (file =? "empty.txt")
    then "docs/empty.txt" else "";
  path_extname := fun file => if file =? "empty.txt" then ".txt" else "";
  toLowerCase := fun ext => if ext =? ".txt" then ".txt" else "";
  cheerio_load := fun _ => inr tt;
  title_text := fun _ => "";
  description_attr := fun _ => None;
  content_text := fun _ => "";
|}.

(** Whatever is asked, one chunk is retrieved, "X is a widget.", and the
    model answers "A widget.". *)
Definition mocked : Services string unit string := {|
  files := two_files;
  web_load := fun _ => inl "ENETUNREACH";
  github_load := fun _ => inl "ENETUNREACH";
  getRelevantDocuments := fun _ =>
    inr [{| pageContent := "X is a widget."; metadata := ∅ |}];
  ollama_invoke := fun _ => inr "A widget.";
|}.

End Examples.

(* ================================================================== *)
(** * Further readings of a run of [retryWithBackoff] *)
(* ================================================================== *)

Module Backoff.
Import Async.

(** The delays a call asks [setTimeout] for, added up. How long the
    timers then take is up to the runtime, and is not modelled. *)
Definition requested_delay (tr : list effect) : Z :=
  fold_right Z.add 0%Z (timeouts tr).

Definition log_lines (tr : list effect) : list log_msg :=
  omap (fun ev => match ev with ELog m => Some m | _ => None end) tr.

End Backoff.

(* ================================================================== *)
(** * Reading the log of [loadDocumentsFromDirectory] *)
(* ================================================================== *)

Module LoaderLog.
Import Loader.

Section Log.
Context {Err : Type}.
Implicit Type effs : list (effect Err).

(** The paths handed to [fs.readFile], oldest first. *)
Definition files_read effs : list string :=
  omap (fun eff => match eff with ReadFile p => Some p | _ => None end) effs.

(** The files [console.warn] names. *)
Definition warned effs : list string :=
  omap (fun eff => match eff with WarnUnsupported f => Some f | _ => None end)
       effs.

(** The files [console.error] names. *)
Definition errored effs : list string :=
  omap (fun eff => match eff with ErrorProcessing f _ => Some f | _ => None end)
       effs.

End Log.
End LoaderLog.

(* ================================================================== *)
(** * The limiter and the write budget of [initializeVectorStore] *)
(* ================================================================== *)

Module Flow.
Import Async Ingest.

Section Flow.
Context {Doc A E : Type}.

(** A call that has started and has not settled stands at an [await]:
    of a write, or of a back-off timer. *)
Definition suspended (t : task A E) : Prop :=
  match t with
  | AwaitFn _ | AwaitTimeout _ _ => True
  | _ => False
  end.

(** What p-limit keeps, and what keeps [initializeVectorStore] waiting:
    at most [concurrency] calls run, a call is left in the queue only
    while that many run, every running call is suspended, and the batch
    awaited has a call that has not settled. *)
Record flow (s : state Doc A E) : Prop := {
  flow_ceiling : active (st_tasks s) <= concurrency;
  flow_queue :
    (exists en, In en (st_tasks s) /\ e_status en = Queued) ->
    concurrency <= active (st_tasks s);
  flow_suspended : forall en t,
    In en (st_tasks s) -> e_status en = Running t -> suspended t;
  flow_main : forall i,
    st_main s = AwaitingAll i ->
    exists en, In en (st_tasks s) /\ e_batch en = i
               /\ is_settled (e_status en) = false;
}.

(** The batch and the document of the [j]-th call. *)
Definition call_of (j : nat) (doc : Doc) : nat * nat * Doc :=
  (j / batchSize * batchSize, j, doc).

(** The [k]-th progress line, counted from 0. *)
Definition progress_line (docs : list Doc) (k : nat) : nat * nat :=
  (Nat.min ((k + 1) * batchSize) (length docs), length docs).

(** The write requests sent for [docs[id]]. *)
Definition issues (id : nat) (tr : list (event A E)) : nat :=
  length (List.filter (fun ev => match ev with
                                 | EvIssue _ k => k =? id
                                 | _ => false
                                 end) tr).

(** The attempts [retryWithBackoff] is called with by
    [initializeVectorStore]: the default. *)
Definition attempts : nat := Z.to_nat DEFAULT_MAX_RETRIES.

(** From [t] on, a call sends at most [n] write requests, and exactly
    [n] if it ends by throwing. *)
Fixpoint attempts_left (n : nat) (t : task A E) : Prop :=
  match t with
  | Done (Thrown _) => n = 0
  | Done _ => True
  | AwaitFn k =>
      match n with
      | 0 => False
      | S n' => forall settled, attempts_left n' (k settled)
      end
  | ConsoleLog _ k => attempts_left n k
  | AwaitTimeout _ k => attempts_left n k
  end.

(** A call that has sent [c] write requests is within its budget. *)
Definition within_budget (c : nat) (st : status A E) : Prop :=
  match st with
  | Queued => c = 0
  | Running (AwaitFn k) =>
      1 <= c <= attempts /\ forall settled, attempts_left (attempts - c) (k settled)
  | Running (AwaitTimeout _ k) =>
      1 <= c <= attempts /\ attempts_left (attempts - c) k
  | Running _ => False
  | Settled (Thrown _) => c = attempts
  | Settled (Returned _) => 1 <= c <= attempts
  | Settled Undefined => c <= attempts
  end.

(** Every call is within its budget, and no write request is sent for
    a document that has no call yet. *)
Record budget (ts : list (entry Doc A E)) (tr : list (event A E))
  : Prop := {
  budget_calls : forall en,
    In en ts -> within_budget (issues (e_id en) tr) (e_status en);
  budget_fresh : forall id,
    (forall en, In en ts -> e_id en <> id) -> issues id tr = 0;
}.

End Flow.
End Flow.

(* ================================================================== *)
(** * [main] *)
(* ================================================================== *)

Module Main.
Import Loader Chatbot.

Open Scope string_scope.

(** [const question] of [main]. *)
Definition QUESTION : string :=
  "What is the main feature of xeokit ? What is xeokit advantage of alternatives ? How do i load LAS file into Viewer ? Please give me running javascript code example.".

Section Main.
Context {Err Dom Response Time : Type}.

Variable services : Services Err Dom Response.

(** [QdrantVectorStore.fromExistingCollection(...)], which
    [loadVectorStore] awaits: it resolves with the store whose
    retriever is that of [services], or rejects. *)
Variable fromExistingCollection : Err + unit.

(** [answer.content], and [performance.now() - start]. *)
Variable content : Response -> string.
Variable minus : Time -> Time -> Time.

(** What [main] does to the outside, oldest first. *)
Inductive output :=
| LoadCollection
| Chain (e : effect Err)
| LogStart (start : Time)
| LogEnd (elapsed : Time)
| LogQ (question : string)
| LogA (answer : string)
| ConsoleError (e : error Err).

(** [async function loadVectorStore()] *)
Definition loadVectorStore : (Err + unit) * list output :=
  (fromExistingCollection, [LoadCollection]).

(** [async function createChatbot()], with the [await loadVectorStore()]
    it starts with. *)
Definition createChatbot : (error Err + Runnable) * list output :=
  match loadVectorStore with
  | (inl e, out) => (inl (External e), out)
  | (inr _, out) => (inr (Chatbot.createChatbot services), out)
  end.

(** [async function main()]; [now1] and [now2] are the two readings of
    [performance.now()]. *)
Definition main (now1 now2 : Time) : (error Err + unit) * list output :=
  match createChatbot with
  | (inl e, out) => (inl e, out)
  | (inr chatbot, out) =>
      let start := now1 in
      let '(answer, effs) := askQuestion chatbot QUESTION in
      match answer with
      | inl e => (inl e, (out ++ LogStart start :: map Chain effs)%list)
      | inr response =>
          (inr tt,
           (out ++ LogStart start :: map Chain effs
                ++ [LogEnd (minus now2 start); LogQ QUESTION;
                    LogA (content response)])%list)
      end
  end.

(** [main().catch(console.error)] *)
Definition run_main (now1 now2 : Time) : list output :=
  match main now1 now2 with
  | (inl e, out) => (out ++ [ConsoleError e])%list
  | (inr _, out) => out
  end.

(** What is printed, without the calls made. *)
Definition is_answer (o : output) : bool :=
  match o with LogA _ => true | _ => false end.

Definition is_question (o : output) : bool :=
  match o with LogQ _ => true | _ => false end.

Definition is_error (o : output) : bool :=
  match o with ConsoleError _ => true | _ => false end.

End Main.

Arguments output : clear implicits.

End Main.

(* ================================================================== *)
(** * The other two versions of the directory loader *)
(* ================================================================== *)

(** The version that takes the main content of a page and adds no
    metadata. *)
Module Variant3.
Import Loader.

Open Scope string_scope.

Section Loader.
Context {Err Dom : Type}.
Variable env : Env Err Dom.

Definition try_block (filePath file ext : string)
  : completion Err * list (effect Err) :=
  let metadata : gmap string string := {[ "source" := file ]} in
  if (ext =? ".txt") || (ext =? ".md") then
    match readFile env filePath with
    | inr content => (Normal content metadata, [ReadFile filePath])
    | inl error => (Throw error, [ReadFile filePath])
    end
  else if ext =? ".html" then
    match readFile env filePath with
    | inr htmlContent =>
        match cheerio_load env htmlContent with
        | inr dom =>
            (Normal (content_text env dom) metadata,
             [LogParsing filePath; ReadFile filePath])
        | inl error => (Throw error, [LogParsing filePath; ReadFile filePath])
        end
    | inl error => (Throw error, [LogParsing filePath; ReadFile filePath])
    end
  else (Continue, [WarnUnsupported file]).

Definition iteration (directoryPath file : string)
    (documents : list Document) : list Document * list (effect Err) :=
  let filePath := path_join env directoryPath file in
  let ext := toLowerCase env (path_extname env file) in
  match try_block filePath file ext with
  | (Normal content metadata, effs) =>
      ((documents ++ [mkDocument content metadata])%list, effs)
  | (Continue, effs) => (documents, effs)
  | (Throw error, effs) =>
      (documents, (effs ++ [ErrorProcessing file error])%list)
  end.

Fixpoint for_files (directoryPath : string) (files : list string)
    (documents : list Document) : list Document * list (effect Err) :=
  match files with
  | [] => (documents, [])
  | file :: rest =>
      let '(documents1, effs1) := iteration directoryPath file documents in
      let '(documents2, effs2) := for_files directoryPath rest documents1 in
      (documents2, (effs1 ++ effs2)%list)
  end.

Definition loadDocumentsFromDirectory (directoryPath : string)
  : (Err + list Document) * list (effect Err) :=
  match readdir env directoryPath with
  | inl error => (inl error, [Readdir directoryPath])
  | inr files =>
      let '(documents, effs) := for_files directoryPath files [] in
      (inr documents, Readdir directoryPath :: effs)
  end.

(** How the Document [doc] of the loader above and the Document [old]
    of this version, made from the same file, compare: the same for a
    text file; for a page, [doc] has the title and the description in
    front of the content of [old], and in its metadata. *)
Definition enriches (directoryPath : string) (doc old : Document) : Prop :=
  exists file,
    metadata old = {[ "source" := file ]}
    /\ if is_html env file then
         exists text dom,
           readFile env (path_join env directoryPath file) = inr text
           /\ cheerio_load env text = inr dom
           /\ pageContent old = content_text env dom
           /\ pageContent doc =
              title_text env dom ++ nl ++ nl
              ++ or_empty (description_attr env dom) ++ nl ++ nl
              ++ pageContent old
           /\ metadata doc =
              <["description" := or_empty (description_attr env dom)]>
                (<["title" := title_text env dom]> (metadata old))
       else doc = old.

End Loader.
End Variant3.

(** The version that lists the directory itself only, takes the whole
    body of a page and does not log the pages it parses. *)
Module Variant2.
Import Loader.

Open Scope string_scope.

Section Loader.
Context {Err Dom : Type}.

(** What this version calls beside the above: [fs.readdir] without
    options, and [$('body').text()]. *)
Record Env2 := mkEnv2 {
  base : Env Err Dom;
  readdir_flat : string -> Err + list string;
  body_text : Dom -> string;
}.

Variable env : Env2.

Definition try_block (filePath file ext : string)
  : completion Err * list (effect Err) :=
  let metadata : gmap string string := {[ "source" := file ]} in
  if (ext =? ".txt") || (ext =? ".md") then
    match readFile (base env) filePath with
    | inr content => (Normal content metadata, [ReadFile filePath])
    | inl error => (Throw error, [ReadFile filePath])
    end
  else if ext =? ".html" then
    match readFile (base env) filePath with
    | inr htmlContent =>
        match cheerio_load (base env) htmlContent with
        | inr dom => (Normal (body_text env dom) metadata, [ReadFile filePath])
        | inl error => (Throw error, [ReadFile filePath])
        end
    | inl error => (Throw error, [ReadFile filePath])
    end
  else (Continue, [WarnUnsupported file]).

Definition iteration (directoryPath file : string)
    (documents : list Document) : list Document * list (effect Err) :=
  let filePath := path_join (base env) directoryPath file in
  let ext := toLowerCase (base env) (path_extname (base env) file) in
  match try_block filePath file ext with
  | (Normal content metadata, effs) =>
      ((documents ++ [mkDocument content metadata])%list, effs)
  | (Continue, effs) => (documents, effs)
  | (Throw error, effs) =>
      (documents, (effs ++ [ErrorProcessing file error])%list)
  end.

Fixpoint for_files (directoryPath : string) (files : list string)
    (documents : list Document) : list Document * list (effect Err) :=
  match files with
  | [] => (documents, [])
  | file :: rest =>
      let '(documents1, effs1) := iteration directoryPath file documents in
      let '(documents2, effs2) := for_files directoryPath rest documents1 in
      (documents2, (effs1 ++ effs2)%list)
  end.

Definition loadDocumentsFromDirectory (directoryPath : string)
  : (Err + list Document) * list (effect Err) :=
  match readdir_flat env directoryPath with
  | inl error => (inl error, [Readdir directoryPath])
  | inr files =>
      let '(documents, effs) := for_files directoryPath files [] in
      (inr documents, Readdir directoryPath :: effs)
  end.

(** A log without the [Parsing ...] lines. *)
Definition without_parsing (effs : list (effect Err)) : list (effect Err) :=
  List.filter (fun eff => match eff with LogParsing _ => false | _ => true end)
              effs.

(** How the Documents the two versions make from the same file
    compare: the same metadata, and the same content unless the file is
    a page. *)
Definition same_file (doc2 doc3 : Document) : Prop :=
  exists file,
    metadata doc2 = {[ "source" := file ]}
    /\ metadata doc3 = {[ "source" := file ]}
    /\ (is_html (base env) file = false -> doc2 = doc3).

End Loader.

Arguments Env2 : clear implicits.

End Variant2.

(* ================================================================== *)
(** * More concrete inputs *)
(* ================================================================== *)

Module MoreExamples.
Import Async Ingest Loader Chatbot Examples.

Open Scope string_scope.

(** A write that behaves as [flaky] for its first three invocations and
    is down afterwards. *)
Definition flaky_then_down (k : nat) : nat + string :=
  if Nat.ltb k 3 then flaky k else inr "ECONNREFUSED".

(** Three chunks, each written at the first attempt. *)
Definition chunks3 : list nat := [10; 11; 12].

Definition three_written : state nat unit string :=
  default (initializeVectorStore chunks3)
    (exec chunks3 (all_succeed tt 3) (initializeVectorStore chunks3)).

(** 60 chunks, before anything has settled. *)
Definition just_started : state nat unit string :=
  initializeVectorStore chunks60.

(** The directory [docs] of [two_files], which has no sub-directory:
    listed without options it gives the same two files. *)
Definition flat_docs : Variant2.Env2 string unit := {|
  Variant2.base := two_files;
  Variant2.readdir_flat := fun directoryPath =>
    if directoryPath =? "docs" then inr ["a.md"; "b.unknown"]
    else inl "ENOENT";
  Variant2.body_text := fun _ => "";
|}.

End MoreExamples.

(* ================================================================== *)
(** * Properties of [retryWithBackoff] *)
(* ================================================================== *)

Section RetryFacts.
Import Async.
Context {A E : Type}.
Implicit Types (fn : nat -> A + E) (maxRetries initialDelay : Z).

Lemma retry_loop_head_true maxRetries initialDelay retries :
  (retries < maxRetries)%Z ->
  retry_loop (A:=A) (E:=E) maxRetries initialDelay retries =
  AwaitFn (fun settled =>
    match settled with
    | inl a => Done (Returned a)
    | inr error =>
        if (retries + 1 =? maxRetries)%Z then Done (Thrown error)
        else
          ConsoleLog
            (RetryMsg (retries + 1) (initialDelay * 2 ^ (retries + 1)))
            (AwaitTimeout (initialDelay * 2 ^ (retries + 1))
               (retry_loop maxRetries initialDelay (retries + 1)))
    end).
Proof.
  intros Hlt. rewrite retry_loop_equation_1.
  destruct (Z_lt_dec retries maxRetries) as [Hl|Hl]; [reflexivity|lia].
Qed.

Lemma retry_loop_head_false maxRetries initialDelay retries :
  ~ (retries < maxRetries)%Z ->
  retry_loop (A:=A) (E:=E) maxRetries initialDelay retries = Done Undefined.
Proof.
  intros Hge. rewrite retry_loop_equation_1.
  destruct (Z_lt_dec retries maxRetries) as [Hl|Hl]; [lia|reflexivity].
Qed.

Lemma run_retry_success fn maxRetries initialDelay a (j : nat) :
  forall (c n : nat),
    (Z.of_nat c + Z.of_nat j < maxRetries)%Z ->
    (forall k, k < j -> failed (fn (n + k))) ->
    fn (n + j) = inl a ->
    run (retry_loop maxRetries initialDelay (Z.of_nat c)) fn n =
    (EInvoke :: flat_map (retry_round initialDelay) (seq (S c) j),
     Returned a).
Proof.
  induction j as [|j IH]; intros c n Hlt Hfail Hok.
  - rewrite retry_loop_head_true by lia. simpl.
    rewrite Nat.add_0_r in Hok. rewrite Hok. reflexivity.
  - rewrite retry_loop_head_true by lia. simpl.
    pose proof (Hfail 0 ltac:(lia)) as H0. rewrite Nat.add_0_r in H0.
    destruct (fn n) as [a0|e] eqn:Hn; [destruct H0|].
    destruct (Z.eqb_spec (Z.of_nat c + 1) maxRetries) as [Heq|Hne]; [lia|].
    simpl. replace (Z.of_nat c + 1)%Z with (Z.of_nat (S c)) by lia.
    rewrite (IH (S c) (S n)).
    + reflexivity.
    + lia.
    + intros k Hk. replace (S n + k) with (n + S k) by lia.
      apply Hfail. lia.
    + replace (S n + j) with (n + S j) by lia. exact Hok.
Qed.

Lemma run_retry_exhausted fn maxRetries initialDelay e (j : nat) :
  forall (c n : nat),
    (Z.of_nat c + Z.of_nat j + 1 = maxRetries)%Z ->
    (forall k, k < j -> failed (fn (n + k))) ->
    fn (n + j) = inr e ->
    run (retry_loop maxRetries initialDelay (Z.of_nat c)) fn n =
    (EInvoke :: flat_map (retry_round initialDelay) (seq (S c) j),
     Thrown e).
Proof.
  induction j as [|j IH]; intros c n Hlt Hfail Hlast.
  - rewrite retry_loop_head_true by lia. simpl.
    rewrite Nat.add_0_r in Hlast. rewrite Hlast.
    destruct (Z.eqb_spec (Z.of_nat c + 1) maxRetries) as [Heq|Hne]; [|lia].
    reflexivity.
  - rewrite retry_loop_head_true by lia. simpl.
    pose proof (Hfail 0 ltac:(lia)) as H0. rewrite Nat.add_0_r in H0.
    destruct (fn n) as [a0|e0] eqn:Hn; [destruct H0|].
    destruct (Z.eqb_spec (Z.of_nat c + 1) maxRetries) as [Heq|Hne]; [lia|].
    simpl. replace (Z.of_nat c + 1)%Z with (Z.of_nat (S c)) by lia.
    rewrite (IH (S c) (S n)).
    + reflexivity.
    + lia.
    + intros k Hk. replace (S n + k) with (n + S k) by lia.
      apply Hfail. lia.
    + replace (S n + j) with (n + S j) by lia. exact Hlast.
Qed.

(** Either some invocation among the first [m] succeeds, and there is
    a first one, or all of them fail. *)
Lemma first_success fn (m : nat) :
  (exists j a, j < m /\ (forall k, k < j -> failed (fn k)) /\ fn j = inl a)
  \/ (forall k, k < m -> failed (fn k)).
Proof.
  induction m as [|m [(j & a & Hj & Hf & Ha)|Hall]].
  - right. intros k Hk. lia.
  - left. exists j, a. split; [lia|]. split; assumption.
  - destruct (fn m) as [a|e] eqn:Hm.
    + left. exists m, a. split; [lia|]. split; assumption.
    + right. intros k Hk. destruct (Nat.eq_dec k m) as [->|Hne].
      * rewrite Hm. exact I.
      * apply Hall. lia.
Qed.

Lemma invocations_rounds initialDelay (c j : nat) :
  invocations (EInvoke :: flat_map (retry_round initialDelay) (seq c j)) = S j.
Proof.
  unfold invocations. simpl. f_equal. revert c.
  induction j as [|j IH]; intros c; simpl; [reflexivity|].
  rewrite (IH (S c)). reflexivity.
Qed.

Lemma timeouts_rounds initialDelay (c j : nat) :
  timeouts (EInvoke :: flat_map (retry_round initialDelay) (seq c j)) =
  map (fun i => (initialDelay * 2 ^ Z.of_nat i)%Z) (seq c j).
Proof.
  unfold timeouts. simpl. revert c.
  induction j as [|j IH]; intros c; simpl; [reflexivity|].
  rewrite (IH (S c)). reflexivity.
Qed.

Lemma retryWithBackoff_success fn maxRetries initialDelay a (j : nat) :
  (Z.of_nat j < maxRetries)%Z ->
  (forall k, k < j -> failed (fn k)) ->
  fn j = inl a ->
  run (retryWithBackoff maxRetries initialDelay) fn 0 =
  (EInvoke :: flat_map (retry_round initialDelay) (seq 1 j), Returned a).
Proof.
  intros Hj Hf Ha.
  apply (run_retry_success fn maxRetries initialDelay a j 0 0);
    [lia|exact Hf|exact Ha].
Qed.

Lemma retryWithBackoff_exhausted fn maxRetries initialDelay e (j : nat) :
  (Z.of_nat j + 1 = maxRetries)%Z ->
  (forall k, k < j -> failed (fn k)) ->
  fn j = inr e ->
  run (retryWithBackoff maxRetries initialDelay) fn 0 =
  (EInvoke :: flat_map (retry_round initialDelay) (seq 1 j), Thrown e).
Proof.
  intros Hj Hf He.
  apply (run_retry_exhausted fn maxRetries initialDelay e j 0 0);
    [lia|exact Hf|exact He].
Qed.

(** Every run of [retryWithBackoff], whatever the operation does, has
    one of three shapes. *)
Lemma run_retry_shapes fn maxRetries initialDelay :
  let res := run (retryWithBackoff maxRetries initialDelay) fn 0 in
  ((maxRetries <= 0)%Z /\ res = ([], Undefined))
  \/ (exists j a,
        (Z.of_nat j < maxRetries)%Z
        /\ (forall k, k < j -> failed (fn k)) /\ fn j = inl a
        /\ res = (EInvoke :: flat_map (retry_round initialDelay) (seq 1 j),
                  Returned a))
  \/ (exists j e,
        (Z.of_nat j + 1 = maxRetries)%Z
        /\ (forall k, k < j -> failed (fn k)) /\ fn j = inr e
        /\ res = (EInvoke :: flat_map (retry_round initialDelay) (seq 1 j),
                  Thrown e)).
Proof.
  intros res. subst res. unfold retryWithBackoff.
  destruct (Z_lt_dec 0 maxRetries) as [Hpos|Hnpos].
  - right.
    destruct (first_success fn (Z.to_nat maxRetries))
      as [(j & a & Hj & Hf & Ha)|Hall].
    + left. exists j, a. repeat split; try assumption; [lia|].
      apply retryWithBackoff_success; [lia|exact Hf|exact Ha].
    + right. set (j := Z.to_nat maxRetries - 1).
      pose proof (Hall j ltac:(lia)) as Hj.
      destruct (fn j) as [a|e] eqn:Hlast; [destruct Hj|].
      exists j, e. repeat split; [lia| |exact Hlast|].
      * intros k Hk. apply Hall. lia.
      * apply retryWithBackoff_exhausted; [lia| |exact Hlast].
        intros k Hk. apply Hall. lia.
  - left. split; [lia|]. rewrite retry_loop_head_false by lia. reflexivity.
Qed.

End RetryFacts.

Section RetryClaims.
Import Async.
Context {A E : Type}.
Implicit Types (fn : nat -> A + E) (maxRetries initialDelay : Z).

(** C1. For every operation [fn] and every [r] with [r < maxRetries]:
    if [fn] fails on its first [r] invocations and succeeds on the next
    one, [retryWithBackoff] returns that success and [fn] has been
    invoked exactly [r + 1] times; if [fn] fails on every invocation,
    [retryWithBackoff] throws the error of the last invocation, after
    exactly [maxRetries] invocations. *)
Theorem retryWithBackoff_attempts fn maxRetries initialDelay (r : nat) :
  (Z.of_nat r < maxRetries)%Z ->
  let res := run (retryWithBackoff maxRetries initialDelay) fn 0 in
  (forall a,
      (forall k, k < r -> failed (fn k)) -> fn r = inl a ->
      snd res = Returned a /\ invocations (fst res) = r + 1)
  /\ ((forall k, failed (fn k)) ->
      exists e,
        fn (Z.to_nat maxRetries - 1) = inr e
        /\ snd res = Thrown e
        /\ Z.of_nat (invocations (fst res)) = maxRetries).
Proof.
  intros Hr res. subst res. split.
  - intros a Hfail Hok.
    rewrite (retryWithBackoff_success fn maxRetries initialDelay a r);
      [|lia|exact Hfail|exact Hok].
    simpl fst. simpl snd. rewrite invocations_rounds. split; [reflexivity|lia].
  - intros Hall. set (j := Z.to_nat maxRetries - 1).
    pose proof (Hall j) as Hj.
    destruct (fn j) as [a|e] eqn:Hlast; [destruct Hj|].
    exists e. split; [reflexivity|].
    rewrite (retryWithBackoff_exhausted fn maxRetries initialDelay e j);
      [|lia|intros k _; apply Hall|exact Hlast].
    simpl fst. simpl snd. rewrite invocations_rounds. split; [reflexivity|lia].
Qed.


(** C4. In every run of [retryWithBackoff] the timers set are, in
    order, [initialDelay * 2^1], [initialDelay * 2^2], ..., one before
    each retry: the [i]-th re-invocation of the operation, for [i] from
    1 up to the number of retries taken, is preceded by the log line
    "Retry i" and a timer of [initialDelay * 2^i]. The default
    [initialDelay] is 1000. *)
Theorem retryWithBackoff_delays fn maxRetries initialDelay :
  let tr := fst (run (retryWithBackoff maxRetries initialDelay) fn 0) in
  let taken := reinvocations tr in
  (tr = [] \/
   tr = EInvoke :: flat_map (retry_round initialDelay) (seq 1 taken))
  /\ timeouts tr =
     map (fun i => (initialDelay * 2 ^ Z.of_nat i)%Z) (seq 1 taken)
  /\ DEFAULT_INITIAL_DELAY = 1000%Z
  /\ retryWithBackoff_default (A:=A) (E:=E) = retryWithBackoff 3 1000.
Proof.
  intros tr taken. subst taken tr.
  destruct (run_retry_shapes fn maxRetries initialDelay)
    as [[Hle Hres]|[(j & a & Hj & Hf & Ha & Hres)|(j & e & Hj & Hf & He & Hres)]];
    rewrite Hres; simpl fst.
  - split; [left; reflexivity|]. split; [reflexivity|]. split; reflexivity.
  - unfold reinvocations. rewrite invocations_rounds. simpl Nat.pred.
    split; [right; reflexivity|]. rewrite timeouts_rounds.
    split; [reflexivity|]. split; reflexivity.
  - unfold reinvocations. rewrite invocations_rounds. simpl Nat.pred.
    split; [right; reflexivity|]. rewrite timeouts_rounds.
    split; [reflexivity|]. split; reflexivity.
Qed.

End RetryClaims.

(* ================================================================== *)
(** * [retryWithBackoff] when [maxRetries] is any number *)
(* ================================================================== *)

Section JsFacts.
Import Async.
Context {A E : Type}.
Implicit Types (fn : nat -> A + E) (initialDelay : Z) (num : Z)
  (den : positive).












End JsFacts.

Section JsClaims.
Import Async.
Context {A E : Type}.
Implicit Types (fn : nat -> A + E) (initialDelay : Z).

End JsClaims.

(* ================================================================== *)
(** * Properties of [initializeVectorStore] *)
(* ================================================================== *)

Section ListFacts.
Context {X Y : Type}.

Lemma map_key_unique (f : X -> Y) (l : list X) :
  NoDup (map f l) ->
  forall x y, In x l -> In y l -> f x = f y -> x = y.
Proof.
  induction l as [|z l IH]; intros Hnd x y Hx Hy Hxy; [destruct Hx|].
  simpl in Hnd. apply NoDup_cons in Hnd as [Hz Hl].
  destruct Hx as [->|Hx], Hy as [->|Hy].
  - reflexivity.
  - exfalso. apply Hz. rewrite Hxy. apply list_elem_of_In, in_map, Hy.
  - exfalso. apply Hz. rewrite <- Hxy. apply list_elem_of_In, in_map, Hx.
  - apply IH; assumption.
Qed.

(** Where an element of [new ++ old] that is singled out can sit. *)
Lemma split_new_old (new old later earlier : list X) (x : X) :
  new ++ old = later ++ x :: earlier ->
  (exists mid, new = later ++ x :: mid /\ earlier = mid ++ old)
  \/ (exists mid, later = new ++ mid /\ old = mid ++ x :: earlier).
Proof.
  revert later. induction new as [|y new IH]; intros later Heq.
  - right. exists later. split; [reflexivity|exact Heq].
  - destruct later as [|z later]; simpl in Heq.
    + injection Heq as -> <-. left. exists new. split; reflexivity.
    + injection Heq as -> Heq. destruct (IH later Heq) as [(mid & -> & ->)|(mid & -> & ->)].
      * left. exists mid. split; reflexivity.
      * right. exists mid. split; reflexivity.
Qed.

(** Two ways to single out an element of one list. *)
Lemma split_twice (l1 r1 l2 r2 : list X) (x y : X) :
  l1 ++ x :: r1 = l2 ++ y :: r2 ->
  (l1 = l2 /\ x = y /\ r1 = r2)
  \/ (exists mid, l2 = l1 ++ x :: mid /\ r1 = mid ++ y :: r2)
  \/ (exists mid, l1 = l2 ++ y :: mid /\ r2 = mid ++ x :: r1).
Proof.
  intros Heq. destruct (split_new_old _ _ _ _ _ Heq) as [(mid & H1 & H2)|(mid & H1 & H2)].
  - right. right. exists mid. split; assumption.
  - destruct mid as [|z mid]; simpl in H2.
    + injection H2 as -> ->. left. rewrite app_nil_r in H1. auto.
    + injection H2 as <- ->. right. left. exists mid. split; [exact H1|reflexivity].
Qed.
End ListFacts.

Section ListRelFacts.
Context {X Y : Type}.

Lemma Forall2_in_r (R : X -> Y -> Prop) l l' y :
  Forall2 R l l' -> In y l' -> exists x, In x l /\ R x y.
Proof.
  induction 1 as [|x y' l l' HR _ IH]; intros Hy; [destruct Hy|].
  destruct Hy as [->|Hy].
  - exists x. split; [left; reflexivity|exact HR].
  - destruct (IH Hy) as (x0 & Hx0 & HR0). exists x0. split; [right|]; assumption.
Qed.

Lemma Forall2_in_l (R : X -> Y -> Prop) l l' x :
  Forall2 R l l' -> In x l -> exists y, In y l' /\ R x y.
Proof.
  induction 1 as [|x' y l l' HR _ IH]; intros Hx; [destruct Hx|].
  destruct Hx as [->|Hx].
  - exists y. split; [left; reflexivity|exact HR].
  - destruct (IH Hx) as (y0 & Hy0 & HR0). exists y0. split; [right|]; assumption.
Qed.

Lemma Forall2_map_self (R : X -> X -> Prop) (f : X -> X) l :
  (forall x, In x l -> R x (f x)) -> Forall2 R l (map f l).
Proof.
  induction l as [|x l IH]; intros H; simpl; constructor.
  - apply H. left. reflexivity.
  - apply IH. intros y Hy. apply H. right. exact Hy.
Qed.

Lemma Forall2_map_eq {Z : Type} (R : X -> Y -> Prop) (f : X -> Z) (g : Y -> Z) l l' :
  Forall2 R l l' -> (forall x y, R x y -> f x = g y) -> map f l = map g l'.
Proof.
  induction 1 as [|x y l l' HR _ IH]; intros H; simpl; [reflexivity|].
  rewrite (H _ _ HR), (IH H). reflexivity.
Qed.
End ListRelFacts.

Section IngestFacts.
Import Async Ingest.
Context {Doc A E : Type}.
Implicit Types (docs : list Doc) (ts : list (entry Doc A E))
  (tr new : list (event A E)) (en : entry Doc A E) (s : state Doc A E).

Lemma advance_spec i id (t : task A E) :
  forall tr,
  exists logs,
    (forall ev, In ev logs -> exists m, ev = EvRetryLog i id m)
    /\ ((exists o,
           advance i id t tr = (Settled o, EvSettled i id o :: logs ++ tr))
        \/ (exists k,
              advance i id t tr =
              (Running (AwaitFn k), EvIssue i id :: logs ++ tr))
        \/ (exists d k,
              advance i id t tr =
              (Running (AwaitTimeout d k), EvTimer i id d :: logs ++ tr))).
Proof.
  induction t as [o|k _|m t IH|d t _]; intros tr.
  - exists []. split; [intros ev []|]. left. exists o. reflexivity.
  - exists []. split; [intros ev []|]. right. left. exists k. reflexivity.
  - destruct (IH (EvRetryLog i id m :: tr)) as (logs & Hlogs & Hcases).
    exists (logs ++ [EvRetryLog i id m]). split.
    + intros ev Hev. apply in_app_iff in Hev as [Hev|[<-|[]]].
      * apply Hlogs, Hev.
      * exists m. reflexivity.
    + simpl. rewrite <- app_assoc. simpl. exact Hcases.
  - exists []. split; [intros ev []|]. right. right. exists d, t. reflexivity.
Qed.

Lemma retryWithBackoff_default_head :
  exists k,
    retryWithBackoff_default (A:=A) (E:=E) = AwaitFn k
    /\ forall a, k (inl a) = Done (Returned a).
Proof.
  unfold retryWithBackoff_default, retryWithBackoff.
  rewrite retry_loop_head_true by (unfold DEFAULT_MAX_RETRIES; lia).
  eexists. split; reflexivity.
Qed.

Lemma start_queued_spec ts :
  forall running tr,
  exists new ts',
    start_queued running ts tr = (ts', new ++ tr)
    /\ Forall2 started ts ts'
    /\ (forall ev, In ev new ->
          exists en, In en ts /\ e_status en = Queued
                     /\ ev = EvIssue (e_batch en) (e_id en)).
Proof.
  induction ts as [|en ts IH]; intros running tr.
  - exists [], []. split; [reflexivity|]. split; [constructor|intros ev []].
  - simpl. destruct (e_status en) eqn:Hst.
    + destruct (running <? concurrency).
      * destruct retryWithBackoff_default_head as (k0 & Hk0 & Hk0ok).
        rewrite Hk0. simpl.
        destruct (IH (S running) (EvIssue (e_batch en) (e_id en) :: tr))
          as (new & ts' & Heq & Hrel & Hnew).
        rewrite Heq.
        exists (new ++ [EvIssue (e_batch en) (e_id en)]), (with_status (Running (AwaitFn k0)) en :: ts').
        split; [rewrite <- app_assoc; reflexivity|]. split.
        -- constructor; [|exact Hrel]. right. split; [exact Hst|].
           exists k0. split; [reflexivity|exact Hk0ok].
        -- intros ev Hev. apply in_app_iff in Hev as [Hev|[<-|[]]].
           ++ destruct (Hnew ev Hev) as (en0 & Hin & Hq & ->).
              exists en0. split; [right; exact Hin|]. split; [exact Hq|reflexivity].
           ++ exists en. split; [left; reflexivity|]. split; [exact Hst|reflexivity].
      * exists [], (en :: ts). split; [reflexivity|]. split.
        -- apply Forall2_same_length_lookup_2; [reflexivity|].
           intros i x y Hx Hy. left. congruence.
        -- intros ev [].
    + destruct (IH running tr) as (new & ts' & Heq & Hrel & Hnew). rewrite Heq.
      exists new, (en :: ts'). split; [reflexivity|]. split.
      * constructor; [left; reflexivity|exact Hrel].
      * intros ev Hev. destruct (Hnew ev Hev) as (en0 & Hin & Hq & ->).
        exists en0. split; [right; exact Hin|]. split; [exact Hq|reflexivity].
    + destruct (IH running tr) as (new & ts' & Heq & Hrel & Hnew). rewrite Heq.
      exists new, (en :: ts'). split; [reflexivity|]. split.
      * constructor; [left; reflexivity|exact Hrel].
      * intros ev Hev. destruct (Hnew ev Hev) as (en0 & Hin & Hq & ->).
        exists en0. split; [right; exact Hin|]. split; [exact Hq|reflexivity].
Qed.

(** ** The state-independent invariant *)

Lemma upd_static new en en' :
  upd new en en' ->
  e_batch en' = e_batch en /\ e_id en' = e_id en /\ e_doc en' = e_doc en.
Proof. intros [->|(st & -> & _)]; repeat split. Qed.

Lemma started_upd new en en' : started en en' -> upd new en en'.
Proof.
  intros [->|(Hq & k & -> & _)]; [left; reflexivity|].
  right. exists (Running (AwaitFn k)). split; [reflexivity|]. split.
  - intros o. rewrite Hq. discriminate.
  - intros o. discriminate.
Qed.

Lemma core_update cur ts tr ts' new :
  core cur ts tr ->
  Forall2 (upd new) ts ts' ->
  (forall b k o, In (EvSettled b k o) new ->
     exists en', In en' ts' /\ e_batch en' = b /\ e_id en' = k
                 /\ e_status en' = Settled o) ->
  (forall b k, In (EvIssue b k) new -> b = cur) ->
  core cur ts' (new ++ tr).
Proof.
  intros [Hids Hbat Hs2e He2s Hiss Hord] Hrel Hnews Hnewi.
  assert (Hkeep : forall en en' o,
             upd new en en' -> e_status en = Settled o -> en' = en).
  { intros en en' o [->|(st & -> & Hns & _)] Ho; [reflexivity|].
    exfalso. exact (Hns o Ho). }
  split.
  - rewrite <- (Forall2_length _ _ _ Hrel), <- Hids. symmetry.
    apply (Forall2_map_eq _ _ _ _ _ Hrel).
    intros x y Hxy. apply upd_static in Hxy. symmetry. tauto.
  - intros en' Hin'.
    destruct (Forall2_in_r _ _ _ _ Hrel Hin') as (en & Hin & Hu).
    destruct (upd_static _ _ _ Hu) as (Hb & _ & _).
    destruct (Hbat en Hin) as [Hle Hset]. rewrite Hb. split; [exact Hle|].
    intros Hlt. destruct (Hset Hlt) as (o & Ho & Hf).
    rewrite (Hkeep en en' o Hu Ho). exists o. split; assumption.
  - intros en' o Hin' Hst.
    destruct (Forall2_in_r _ _ _ _ Hrel Hin') as (en & Hin & Hu).
    apply in_or_app. destruct Hu as [->|(st & -> & Hns & Hev)].
    + right. apply Hs2e; assumption.
    + left. simpl in *. apply Hev, Hst.
  - intros b k o Hev. apply in_app_or in Hev as [Hev|Hev].
    + apply Hnews, Hev.
    + destruct (He2s b k o Hev) as (en & Hin & Hb & Hk & Ho).
      destruct (Forall2_in_l _ _ _ _ Hrel Hin) as (en' & Hin' & Hu).
      rewrite (Hkeep en en' o Hu Ho) in Hin'. exists en. auto.
  - intros b k Hev. apply in_app_or in Hev as [Hev|Hev].
    + rewrite (Hnewi b k Hev). lia.
    + apply (Hiss b k Hev).
  - intros later earlier i id Heq.
    destruct (split_new_old _ _ _ _ _ Heq) as [(mid & Hn & ->)|(mid & -> & Ht)].
    + assert (Hi : i = cur).
      { apply (Hnewi i id). rewrite Hn. apply in_or_app. right. left. reflexivity. }
      subst i. split.
      * intros en' Hin' Hlt.
        destruct (Forall2_in_r _ _ _ _ Hrel Hin') as (en & Hin & Hu).
        destruct (upd_static _ _ _ Hu) as (Hb & Hk & _).
        rewrite Hb in Hlt. destruct (Hbat en Hin) as [_ Hset].
        destruct (Hset Hlt) as (o & Ho & Hf).
        rewrite (Hkeep en en' o Hu Ho). exists o. split; [exact Hf|].
        apply in_or_app. right. apply Hs2e; assumption.
      * intros b k Hev. apply in_app_or in Hev as [Hev|Hev].
        -- assert (b = cur) as ->; [|lia]. apply (Hnewi b k). rewrite Hn.
           apply in_or_app. right. right. exact Hev.
        -- apply (Hiss b k Hev).
    + destruct (Hord mid earlier i id Ht) as [Hord1 Hord2]. split; [|exact Hord2].
      intros en' Hin' Hlt.
      destruct (Forall2_in_r _ _ _ _ Hrel Hin') as (en & Hin & Hu).
      destruct (upd_static _ _ _ Hu) as (Hb & Hk & _).
      rewrite Hb, Hk. apply Hord1; [exact Hin|]. rewrite <- Hb. exact Hlt.
Qed.

Lemma new_entries_ids i (batch : list Doc) :
  map e_id (new_entries (A:=A) (E:=E) i batch) = seq i (length batch).
Proof.
  apply list_eq. intros j. unfold new_entries.
  change (map e_id) with (fmap (M:=list) (e_id (Doc:=Doc) (A:=A) (E:=E))).
  rewrite list_lookup_fmap, list_lookup_imap.
  destruct (batch !! j) as [doc|] eqn:Hj; simpl.
  - symmetry. apply lookup_seq. split; [reflexivity|].
    apply lookup_lt_Some in Hj. exact Hj.
  - symmetry. apply lookup_seq_ge. apply lookup_ge_None. exact Hj.
Qed.

Lemma new_entries_in i (batch : list Doc) en :
  In en (new_entries (A:=A) (E:=E) i batch) ->
  e_batch en = i /\ e_status en = Queued.
Proof.
  intros Hin. apply list_elem_of_In in Hin. unfold new_entries in Hin.
  apply elem_of_lookup_imap in Hin as (j & doc & -> & _). split; reflexivity.
Qed.

Lemma core_new_batch cur i ts tr (batch : list Doc) new :
  core cur ts tr ->
  cur <= i -> i = length ts ->
  (forall en, In en ts -> settled_ok en) ->
  (forall ev, In ev new -> is_progress ev) ->
  core i (ts ++ new_entries i batch) (new ++ tr).
Proof.
  intros [Hids Hbat Hs2e He2s Hiss Hord] Hle Hlen Hall Hnew.
  assert (Hnoiss : forall b k, ~ In (EvIssue b k) new).
  { intros b k Hev. apply Hnew in Hev. exact Hev. }
  assert (Hnoset : forall b k o, ~ In (EvSettled b k o) new).
  { intros b k o Hev. apply Hnew in Hev. exact Hev. }
  split.
  - rewrite map_app, length_app, Hids, new_entries_ids.
    unfold new_entries. rewrite length_imap, seq_app. subst i. reflexivity.
  - intros en Hin. apply in_app_or in Hin as [Hin|Hin].
    + destruct (Hbat en Hin) as [Hb _]. split; [lia|]. intros _. apply Hall, Hin.
    + apply new_entries_in in Hin as [-> _]. split; lia.
  - intros en o Hin Hst. apply in_app_or in Hin as [Hin|Hin].
    + apply in_or_app. right. apply Hs2e; assumption.
    + apply new_entries_in in Hin as [_ Hq]. rewrite Hq in Hst. discriminate.
  - intros b k o Hev. apply in_app_or in Hev as [Hev|Hev].
    + destruct (Hnoset _ _ _ Hev).
    + destruct (He2s b k o Hev) as (en & Hin & H). exists en. split; [|exact H].
      apply in_or_app. left. exact Hin.
  - intros b k Hev. apply in_app_or in Hev as [Hev|Hev].
    + destruct (Hnoiss _ _ Hev).
    + pose proof (Hiss b k Hev). lia.
  - intros later earlier i' id Heq.
    destruct (split_new_old _ _ _ _ _ Heq) as [(mid & Hn & ->)|(mid & -> & Ht)].
    + exfalso. apply (Hnoiss i' id). rewrite Hn. apply in_or_app. right. left. reflexivity.
    + destruct (Hord mid earlier i' id Ht) as [Hord1 Hord2]. split; [|exact Hord2].
      intros en Hin Hlt. apply in_app_or in Hin as [Hin|Hin].
      * apply Hord1; assumption.
      * apply new_entries_in in Hin as [Hb _]. exfalso.
        assert (i' <= cur); [|lia]. apply (Hiss i' id). rewrite Ht.
        apply in_or_app. right. left. reflexivity.
Qed.

Lemma omap_none_all {X Y : Type} (f : X -> option Y) (l : list X) :
  (forall x, In x l -> f x = None) -> omap f l = [].
Proof.
  induction l as [|x l IH]; intros H; [reflexivity|]. simpl.
  rewrite (H x (or_introl eq_refl)). apply IH.
  intros y Hy. apply H. right. exact Hy.
Qed.

Lemma progress_reports_app new tr :
  progress_reports (new ++ tr) = progress_reports tr ++ progress_reports new.
Proof. unfold progress_reports. rewrite rev_app_distr. apply omap_app. Qed.

Lemma progress_reports_quiet new :
  (forall ev, In ev new -> ~ is_progress ev) -> progress_reports new = [].
Proof.
  intros H. unfold progress_reports. apply omap_none_all.
  intros ev Hev. apply in_rev in Hev. specialize (H ev Hev).
  destruct ev; try reflexivity. exfalso. apply H. exact I.
Qed.

Lemma unsettled_cur cur ts tr en :
  core cur ts tr -> In en ts -> (forall o, e_status en <> Settled o) ->
  e_batch en = cur.
Proof.
  intros Hc Hin Hns. destruct (core_bat _ _ _ Hc en Hin) as [Hle Hset].
  destruct (Nat.eq_dec (e_batch en) cur) as [Heq|Hne]; [exact Heq|].
  destruct (Hset ltac:(lia)) as (o & Ho & _). destruct (Hns o Ho).
Qed.

Lemma core_ids_unique cur ts tr en1 en2 :
  core cur ts tr -> In en1 ts -> In en2 ts -> e_id en1 = e_id en2 ->
  en1 = en2.
Proof.
  intros Hc. apply (map_key_unique e_id ts).
  rewrite (core_ids _ _ _ Hc). apply NoDup_seq.
Qed.

Lemma core_pump cur ts tr :
  core cur ts tr ->
  exists new ts',
    pump ts tr = (ts', new ++ tr)
    /\ core cur ts' (new ++ tr)
    /\ map static ts' = map static ts
    /\ (forall ev, In ev new -> exists b k, ev = EvIssue b k).
Proof.
  intros Hc. unfold pump.
  destruct (start_queued_spec ts (active ts) tr) as (new & ts' & Heq & Hrel & Hnew).
  exists new, ts'. split; [exact Heq|].
  assert (Hupd : Forall2 (upd new) ts ts').
  { eapply Forall2_impl; [exact Hrel|]. intros x y. apply started_upd. }
  split; [|split].
  - apply (core_update cur ts tr ts' new Hc Hupd).
    + intros b k o Hev. destruct (Hnew _ Hev) as (en & _ & _ & Habs). discriminate.
    + intros b k Hev. destruct (Hnew _ Hev) as (en & Hin & Hq & Heq').
      injection Heq' as -> ->. apply (unsettled_cur cur ts tr en Hc Hin).
      intros o. rewrite Hq. discriminate.
  - symmetry. apply (Forall2_map_eq _ _ _ _ _ Hupd).
    intros x y Hxy. destruct (upd_static _ _ _ Hxy) as (H1 & H2 & H3).
    unfold static. rewrite H1, H2, H3. reflexivity.
  - intros ev Hev. destruct (Hnew _ Hev) as (en & _ & _ & ->). eauto.
Qed.

Lemma set_status_upd cur ts tr en st new t0 :
  core cur ts tr -> In en ts -> e_status en = Running t0 ->
  (forall o, st = Settled o ->
     In (EvSettled (e_batch en) (e_id en) o) new) ->
  Forall2 (upd new) ts (set_status (e_id en) st ts)
  /\ In (with_status st en) (set_status (e_id en) st ts)
  /\ map static (set_status (e_id en) st ts) = map static ts
  /\ e_batch en = cur.
Proof.
  intros Hc Hin Hrun Hev. split; [|split; [|split]].
  - unfold set_status. apply Forall2_map_self. intros en0 Hin0.
    destruct (Nat.eqb_spec (e_id en0) (e_id en)) as [Heq|Hne]; [|left; reflexivity].
    rewrite (core_ids_unique cur ts tr en0 en Hc Hin0 Hin Heq).
    right. exists st. split; [reflexivity|]. split; [|exact Hev].
    intros o. rewrite Hrun. discriminate.
  - unfold set_status. apply in_map_iff. exists en. split; [|exact Hin].
    rewrite Nat.eqb_refl. reflexivity.
  - unfold set_status. rewrite map_map. apply map_ext.
    intros en0. destruct (e_id en0 =? e_id en); reflexivity.
  - apply (unsettled_cur cur ts tr en Hc Hin). intros o. rewrite Hrun. discriminate.
Qed.

(** ** Cutting batches *)

Lemma planned_succ docs n :
  planned docs (S n) =
  planned docs n ++
  imap (fun j doc => (n * batchSize, n * batchSize + j, doc))
       (slice docs (n * batchSize) (n * batchSize + batchSize)).
Proof.
  unfold planned. rewrite seq_S, flat_map_app. simpl. rewrite app_nil_r.
  reflexivity.
Qed.

Lemma slice_length docs i :
  length (slice docs i (i + batchSize)) = Nat.min batchSize (length docs - i).
Proof.
  unfold slice. rewrite length_take, length_drop.
  replace (i + batchSize - i) with batchSize by lia. reflexivity.
Qed.

Lemma planned_length docs n :
  n * batchSize <= length docs -> length (planned docs n) = n * batchSize.
Proof.
  induction n as [|n IH]; intros Hle; [reflexivity|].
  rewrite planned_succ, length_app, length_imap, slice_length, IH; lia.
Qed.

Lemma static_new_entries i (batch : list Doc) :
  map static (new_entries (A:=A) (E:=E) i batch) =
  imap (fun j doc => (i, i + j, doc)) batch.
Proof.
  unfold new_entries.
  change (map static) with (fmap (M:=list) (static (Doc:=Doc) (A:=A) (E:=E))).
  rewrite fmap_imap. reflexivity.
Qed.

Lemma expected_progress_succ docs m :
  expected_progress docs (S m) =
  expected_progress docs m ++
  [(m * batchSize + length (slice docs (m * batchSize) (m * batchSize + batchSize)),
    length docs)].
Proof. unfold expected_progress. rewrite seq_S, map_app. reflexivity. Qed.

(** ** The invariant is kept *)

Lemma upd_refl new ts : Forall2 (upd new) ts ts.
Proof. induction ts; constructor; [left; reflexivity|assumption]. Qed.

Lemma core_progress cur ts tr p t :
  core cur ts tr -> core cur ts (EvProgress p t :: tr).
Proof.
  intros Hc. apply (core_update cur ts tr ts [EvProgress p t] Hc (upd_refl _ ts)).
  - intros b k o [Habs|[]]. discriminate.
  - intros b k [Habs|[]]. discriminate.
Qed.

Lemma batch_fulfilled_all cur ts tr :
  core cur ts tr -> batch_fulfilled cur ts = true ->
  forall en, In en ts -> settled_ok en.
Proof.
  intros Hc Hall en Hin. unfold batch_fulfilled in Hall.
  rewrite forallb_forall in Hall. specialize (Hall en Hin).
  destruct (core_bat _ _ _ Hc en Hin) as [Hle Hset].
  destruct (Nat.eqb_spec (e_batch en) cur) as [Heq|Hne].
  - destruct (e_status en) as [|t|o] eqn:Hst; try discriminate.
    exists o. split; [exact Hst|exact Hall].
  - apply Hset. lia.
Qed.

Lemma main_ok_quiet docs n main ts ts' tr new :
  main_ok docs n main ts tr ->
  main <> Finished ->
  (forall ev, In ev new -> ~ is_progress ev) ->
  ((forall e0, main <> Failed e0) ->
   forall ev, In ev new -> ~ is_rejection ev) ->
  main_ok docs n main ts' (new ++ tr).
Proof.
  intros Hm Hnf Hquiet Hrej. destruct main as [i| |e0]; simpl in *.
  - destruct Hm as (Hn & Hi & Hlt & Hnorej & Hprog).
    split; [exact Hn|]. split; [exact Hi|]. split; [exact Hlt|]. split.
    + intros ev Hev. apply in_app_or in Hev as [Hev|Hev].
      * apply Hrej; [intros e0; discriminate|exact Hev].
      * apply Hnorej, Hev.
    + rewrite progress_reports_app, (progress_reports_quiet new Hquiet), app_nil_r.
      exact Hprog.
  - destruct (Hnf eq_refl).
  - destruct Hm as (Hn & Hprog & later & id & earlier & Htr & Hnorej & Hnoprog).
    split; [exact Hn|]. split.
    + rewrite progress_reports_app, (progress_reports_quiet new Hquiet), app_nil_r.
      exact Hprog.
    + exists (new ++ later), id, earlier. split; [rewrite Htr, app_assoc; reflexivity|].
      split; [exact Hnorej|].
      intros ev Hev. apply in_app_or in Hev as [Hev|Hev]; [apply Hquiet|apply Hnoprog]; exact Hev.
Qed.

Lemma inv_loop_head docs n ts tr :
  core ((n - 1) * batchSize) ts tr ->
  map static ts = planned docs n ->
  n = 0 \/ (n - 1) * batchSize < length docs ->
  (forall en, In en ts -> settled_ok en) ->
  (forall ev, In ev tr -> ~ is_rejection ev) ->
  progress_reports tr = expected_progress docs n ->
  exists n', inv docs n' (loop_head docs (n * batchSize) ts tr).
Proof.
  intros Hc Hplan Hcut Hall Hnorej Hprog. unfold loop_head.
  destruct (Nat.ltb_spec (n * batchSize) (length docs)) as [Hlt|Hge].
  - set (i := n * batchSize).
    assert (Hlen : i = length ts).
    { rewrite <- (length_map static ts), Hplan. symmetry.
      apply planned_length. fold i. lia. }
    pose proof (core_new_batch _ i ts tr (slice docs i (i + batchSize)) []
                  Hc ltac:(unfold batchSize in *; lia) Hlen Hall
                  ltac:(intros ev [])) as Hc1.
    simpl in Hc1.
    destruct (core_pump _ _ _ Hc1) as (new & ts' & Hp & Hc2 & Hst & Hnew).
    rewrite Hp. exists (S n). split; simpl.
    + rewrite Nat.sub_0_r. exact Hc2.
    + rewrite Hst, map_app, Hplan, static_new_entries, planned_succ. reflexivity.
    + right. rewrite Nat.sub_0_r. exact Hlt.
    + rewrite Nat.sub_0_r. split; [lia|]. split; [reflexivity|]. split; [exact Hlt|].
      split.
      * intros ev Hev. apply in_app_or in Hev as [Hev|Hev]; [|apply Hnorej, Hev].
        destruct (Hnew _ Hev) as (b & k & ->). intros [].
      * rewrite progress_reports_app, (progress_reports_quiet new), app_nil_r;
          [exact Hprog|].
        intros ev Hev. destruct (Hnew _ Hev) as (b & k & ->). intros [].
  - exists n. split; simpl; try assumption.
    split; [exact Hge|]. split; [exact Hnorej|]. split; [exact Hall|exact Hprog].
Qed.

Lemma inv_init docs :
  exists n, inv docs n (initializeVectorStore (A:=A) (E:=E) docs).
Proof.
  unfold initializeVectorStore.
  apply (inv_loop_head docs 0 [] []).
  - split; simpl; try (intros; contradiction); try reflexivity.
    intros later earlier i id Heq. destruct later; discriminate.
  - reflexivity.
  - left. reflexivity.
  - intros en [].
  - intros ev [].
  - reflexivity.
Qed.

(** After a fulfilment in the batch awaited: go round the loop if it
    was the last one, keep waiting otherwise. *)
Lemma inv_after_fulfilment docs n ts tr :
  let i := (n - 1) * batchSize in
  core i ts tr ->
  map static ts = planned docs n ->
  1 <= n -> i < length docs ->
  (forall ev, In ev tr -> ~ is_rejection ev) ->
  progress_reports tr = expected_progress docs (n - 1) ->
  exists n',
    inv docs n'
      (if batch_fulfilled i ts then
         loop_head docs (i + batchSize) ts
           (EvProgress (i + length (slice docs i (i + batchSize)))
                       (length docs) :: tr)
       else {| st_main := AwaitingAll i; st_tasks := ts; st_trace := tr |}).
Proof.
  intros i Hc Hplan Hn Hlt Hnorej Hprog.
  destruct (batch_fulfilled i ts) eqn:Hall.
  - set (p := i + length (slice docs i (i + batchSize))).
    replace (i + batchSize) with (n * batchSize)
      by (unfold i, batchSize; lia).
    apply inv_loop_head.
    + apply core_progress. exact Hc.
    + exact Hplan.
    + right. exact Hlt.
    + apply (batch_fulfilled_all i ts tr Hc Hall).
    + intros ev [<-|Hev]; [intros []|apply Hnorej, Hev].
    + change (EvProgress p (length docs) :: tr)
        with ([EvProgress p (length docs)] ++ tr).
      rewrite progress_reports_app, Hprog.
      transitivity (expected_progress docs (S (n - 1))); [|f_equal; lia].
      rewrite expected_progress_succ. reflexivity.
  - exists n. split; simpl; try assumption; [right; exact Hlt|].
    split; [exact Hn|]. split; [reflexivity|]. split; [exact Hlt|].
    split; [exact Hnorej|exact Hprog].
Qed.

Lemma inv_resume docs n s en t t0 :
  inv docs n s -> In en (st_tasks s) -> e_status en = Running t0 ->
  exists n', inv docs n' (resume docs en t s).
Proof.
  intros [Hc Hplan Hcut Hm] Hin Hrun. destruct s as [main ts tr]. simpl in *.
  assert (Hmain : main <> Finished).
  { intros ->. simpl in Hm. destruct Hm as (_ & _ & Hall & _).
    destruct (Hall en Hin) as (o & Ho & _). rewrite Hrun in Ho. discriminate. }
  unfold resume. simpl.
  destruct (advance_spec (e_batch en) (e_id en) t tr)
    as (logs & Hlogs & [(o & Hadv)|[(k & Hadv)|(d & k & Hadv)]]); rewrite Hadv.
  - (* the call settles *)
    set (new1 := EvSettled (e_batch en) (e_id en) o :: logs).
    destruct (set_status_upd _ ts tr en (Settled o) new1 t0 Hc Hin Hrun)
      as (Hupd & Hin1 & Hst1 & Hb).
    { intros o' [= ->]. left. reflexivity. }
    assert (Hc1 : core ((n - 1) * batchSize)
                    (set_status (e_id en) (Settled o) ts) (new1 ++ tr)).
    { apply (core_update _ ts tr _ new1 Hc Hupd).
      - intros b k o' [[= <- <- <-]|Hev].
        + exists (with_status (Settled o) en). repeat split. exact Hin1.
        + destruct (Hlogs _ Hev) as (m & Habs). discriminate.
      - intros b k [Habs|Hev]; [discriminate|].
        destruct (Hlogs _ Hev) as (m & Habs). discriminate. }
    destruct (core_pump _ _ _ Hc1) as (new2 & ts2 & Hp & Hc2 & Hst2 & Hnew2).
    change (EvSettled (e_batch en) (e_id en) o :: logs ++ tr) with (new1 ++ tr).
    rewrite Hp.
    assert (Hplan2 : map static ts2 = planned docs n).
    { rewrite Hst2, Hst1. exact Hplan. }
    assert (Hquiet : forall ev, In ev (new2 ++ new1) -> ~ is_progress ev).
    { intros ev Hev. apply in_app_or in Hev as [Hev|[<-|Hev]].
      - destruct (Hnew2 _ Hev) as (b & k & ->). intros [].
      - intros [].
      - destruct (Hlogs _ Hev) as (m & ->). intros []. }
    assert (Hlogrej : forall ev, In ev logs -> ~ is_rejection ev).
    { intros ev Hev. destruct (Hlogs _ Hev) as (m & ->). intros []. }
    assert (Hnew2rej : forall ev, In ev new2 -> ~ is_rejection ev).
    { intros ev Hev. destruct (Hnew2 _ Hev) as (b & k & ->). intros []. }
    unfold on_settled. destruct main as [i| |e0].
    + simpl in Hm. destruct Hm as (Hn & Hi & Hlt & Hnorej & Hprog).
      rewrite Hb, <- Hi, Nat.eqb_refl.
      assert (Hfulfilled : is_fulfilled o = true ->
                exists n', inv docs n'
                  (if batch_fulfilled i ts2 then
                     loop_head docs (i + batchSize) ts2
                       (EvProgress (i + length (slice docs i (i + batchSize)))
                                   (length docs) :: new2 ++ new1 ++ tr)
                   else {| st_main := AwaitingAll i; st_tasks := ts2;
                           st_trace := new2 ++ new1 ++ tr |})).
      { intros Hf. subst i. apply inv_after_fulfilment; try assumption.
        - intros ev Hev. apply in_app_or in Hev as [Hev|[<-|Hev]].
          + apply Hnew2rej, Hev.
          + simpl. destruct o; [intros []|discriminate|intros []].
          + apply in_app_or in Hev as [Hev|Hev]; [apply Hlogrej|apply Hnorej]; exact Hev.
        - rewrite app_assoc, progress_reports_app.
          rewrite (progress_reports_quiet _ Hquiet), app_nil_r. exact Hprog. }
      destruct o as [a|e|].
      * apply Hfulfilled. reflexivity.
      * exists n. split; cbn [st_main st_tasks st_trace main_ok]; try assumption.
        split; [exact Hn|]. split.
        -- rewrite app_assoc, progress_reports_app.
           rewrite (progress_reports_quiet _ Hquiet), app_nil_r. exact Hprog.
        -- exists new2, (e_id en), (logs ++ tr). rewrite <- Hb.
           split; [reflexivity|].
           split.
           ++ intros ev Hev. apply in_app_or in Hev as [Hev|Hev];
                [apply Hlogrej|apply Hnorej]; exact Hev.
           ++ intros ev Hev. apply Hquiet. apply in_or_app. left. exact Hev.
      * apply Hfulfilled. reflexivity.
    + destruct (Hmain eq_refl).
    + exists n. split; cbn [st_main st_tasks st_trace]; try assumption.
      rewrite app_assoc. apply (main_ok_quiet docs n (Failed e0) ts ts2 tr).
      * exact Hm.
      * discriminate.
      * exact Hquiet.
      * intros Habs. destruct (Habs e0 eq_refl).
  - (* the call has sent its next write request *)
    set (new1 := EvIssue (e_batch en) (e_id en) :: logs).
    destruct (set_status_upd _ ts tr en (Running (AwaitFn k)) new1 t0 Hc Hin Hrun)
      as (Hupd & Hin1 & Hst1 & Hb).
    { intros o' Habs. discriminate. }
    exists n. split; simpl.
    + apply (core_update _ ts tr _ new1 Hc Hupd).
      * intros b k' o' [Habs|Hev]; [discriminate|].
        destruct (Hlogs _ Hev) as (m & Habs). discriminate.
      * intros b k' [[= <- <-]|Hev]; [exact Hb|].
        destruct (Hlogs _ Hev) as (m & Habs). discriminate.
    + rewrite Hst1. exact Hplan.
    + exact Hcut.
    + apply (main_ok_quiet docs n main ts _ tr new1 Hm Hmain).
      * intros ev [<-|Hev]; [intros []|].
        destruct (Hlogs _ Hev) as (m & ->). intros [].
      * intros _ ev [<-|Hev]; [intros []|].
        destruct (Hlogs _ Hev) as (m & ->). intros [].
  - (* the call has set its back-off timer *)
    set (new1 := EvTimer (e_batch en) (e_id en) d :: logs).
    destruct (set_status_upd _ ts tr en (Running (AwaitTimeout d k)) new1 t0 Hc Hin Hrun)
      as (Hupd & Hin1 & Hst1 & Hb).
    { intros o' Habs. discriminate. }
    exists n. split; simpl.
    + apply (core_update _ ts tr _ new1 Hc Hupd).
      * intros b k' o' [Habs|Hev]; [discriminate|].
        destruct (Hlogs _ Hev) as (m & Habs). discriminate.
      * intros b k' [Habs|Hev]; [discriminate|].
        destruct (Hlogs _ Hev) as (m & Habs). discriminate.
    + rewrite Hst1. exact Hplan.
    + exact Hcut.
    + apply (main_ok_quiet docs n main ts _ tr new1 Hm Hmain).
      * intros ev [<-|Hev]; [intros []|].
        destruct (Hlogs _ Hev) as (m & ->). intros [].
      * intros _ ev [<-|Hev]; [intros []|].
        destruct (Hlogs _ Hev) as (m & ->). intros [].
Qed.

Lemma inv_fire docs n s a s' :
  inv docs n s -> fire docs a s = Some s' -> exists n', inv docs n' s'.
Proof.
  intros Hinv Hfire. destruct a as [id settled|id]; simpl in Hfire.
  - destruct (find _ (st_tasks s)) as [en|] eqn:Hfind; [|discriminate].
    apply find_some in Hfind as [Hin _].
    destruct (e_status en) as [|[o|k|m t|d t]|o] eqn:Hst; try discriminate.
    injection Hfire as <-. apply (inv_resume docs n s en _ _ Hinv Hin Hst).
  - destruct (find _ (st_tasks s)) as [en|] eqn:Hfind; [|discriminate].
    apply find_some in Hfind as [Hin _].
    destruct (e_status en) as [|[o|k|m t|d t]|o] eqn:Hst; try discriminate.
    injection Hfire as <-. apply (inv_resume docs n s en _ _ Hinv Hin Hst).
Qed.

Lemma inv_exec docs acts :
  forall n s s',
    inv docs n s -> exec docs acts s = Some s' -> exists n', inv docs n' s'.
Proof.
  induction acts as [|a acts IH]; intros n s s' Hinv Hexec; simpl in Hexec.
  - injection Hexec as <-. exists n. exact Hinv.
  - destruct (fire docs a s) as [s1|] eqn:Hfire; [|discriminate].
    destruct (inv_fire docs n s a s1 Hinv Hfire) as (n1 & Hinv1).
    apply (IH n1 s1 s' Hinv1 Hexec).
Qed.

Lemma inv_reachable docs s : reachable docs s -> exists n, inv docs n s.
Proof.
  intros (acts & Hexec). destruct (inv_init docs) as (n0 & Hinv0).
  apply (inv_exec docs acts n0 _ s Hinv0 Hexec).
Qed.
End IngestFacts.


(* ================================================================== *)
(** * [initializeVectorStore] returns when every write succeeds *)
(* ================================================================== *)

Section IngestProgress.
Import Async Ingest.
Context {Doc A E : Type}.
Implicit Types (docs : list Doc) (ts : list (entry Doc A E))
  (tr new : list (event A E)) (en : entry Doc A E) (s : state Doc A E).

Lemma active_cons en ts :
  active (en :: ts) =
  (if is_running (e_status en) then 1 else 0) + active ts.
Proof.
  unfold active. rewrite filter_cons.
  destruct (decide (is_running (e_status en) = true)) as [H|H].
  - rewrite H. reflexivity.
  - destruct (is_running (e_status en)); [destruct (H eq_refl)|reflexivity].
Qed.

(** p-limit leaves a call in the queue only if [concurrency] calls are
    running. [before] counts the running calls ahead of [ts]. *)
Lemma start_queued_no_starved ts :
  forall before tr ts' tr',
    start_queued (before + active ts) ts tr = (ts', tr') ->
    (exists en, In en ts' /\ e_status en = Queued) ->
    concurrency <= before + active ts'.
Proof.
  induction ts as [|en ts IH]; intros before tr ts' tr' Hstart (en0 & Hin & Hq).
  - simpl in Hstart. injection Hstart as <- <-. destruct Hin.
  - simpl in Hstart. rewrite active_cons in Hstart.
    destruct (e_status en) as [|t|o] eqn:Hst; cbn [is_running] in Hstart.
    + rewrite Nat.add_0_l in Hstart.
      destruct (Nat.ltb_spec (before + active ts) concurrency) as [Hlt|Hge].
      * destruct (retryWithBackoff_default_head (A:=A) (E:=E)) as (k0 & Hk0 & _).
        rewrite Hk0 in Hstart. cbn [advance is_running] in Hstart.
        change (S (before + active ts)) with (S before + active ts) in Hstart.
        destruct (start_queued (S before + active ts) ts
                    (EvIssue (e_batch en) (e_id en) :: tr))
          as [rest' tr2] eqn:Hrest.
        injection Hstart as <- <-.
        rewrite active_cons. cbn [with_status e_status is_running].
        destruct Hin as [<-|Hin]; [discriminate|].
        pose proof (IH (S before) _ _ _ Hrest (ex_intro _ en0 (conj Hin Hq))).
        lia.
      * injection Hstart as <- <-. rewrite active_cons, Hst.
        cbn [is_running]. lia.
    + replace (before + (1 + active ts)) with (S before + active ts)
        in Hstart by lia.
      destruct (start_queued (S before + active ts) ts tr)
        as [rest' tr1] eqn:Hrest.
      injection Hstart as <- <-. rewrite active_cons, Hst. cbn [is_running].
      destruct Hin as [<-|Hin]; [rewrite Hst in Hq; discriminate|].
      pose proof (IH (S before) _ _ _ Hrest (ex_intro _ en0 (conj Hin Hq))).
      lia.
    + rewrite Nat.add_0_l in Hstart.
      destruct (start_queued (before + active ts) ts tr)
        as [rest' tr1] eqn:Hrest.
      injection Hstart as <- <-. rewrite active_cons, Hst. cbn [is_running].
      destruct Hin as [<-|Hin]; [rewrite Hst in Hq; discriminate|].
      pose proof (IH before _ _ _ Hrest (ex_intro _ en0 (conj Hin Hq))).
      lia.
Qed.

Lemma pump_no_starved ts tr ts' tr' :
  pump ts tr = (ts', tr') ->
  (exists en, In en ts' /\ e_status en = Queued) ->
  concurrency <= active ts'.
Proof.
  unfold pump. intros Hp Hq.
  apply (start_queued_no_starved ts 0 tr ts' tr' Hp Hq).
Qed.

Lemma pump_started ts tr ts' tr' :
  pump ts tr = (ts', tr') -> Forall2 started ts ts'.
Proof.
  unfold pump. intros Hp.
  destruct (start_queued_spec ts (active ts) tr) as (new & ts0 & Heq & Hrel & _).
  rewrite Heq in Hp. injection Hp as <- _. exact Hrel.
Qed.

Lemma started_first_attempt en en' :
  started en en' ->
  at_first_attempt (e_status en) -> at_first_attempt (e_status en').
Proof.
  intros [->|(_ & k & -> & Hk)] Hen; [exact Hen|].
  simpl. exists k. split; [reflexivity|exact Hk].
Qed.

Lemma started_settled en en' :
  started en en' ->
  e_batch en' = e_batch en
  /\ is_settled (e_status en') = is_settled (e_status en).
Proof.
  intros [->|(Hq & k & -> & _)]; [split; reflexivity|].
  simpl. rewrite Hq. split; reflexivity.
Qed.

Lemma settled_count_started ts ts' :
  Forall2 started ts ts' -> settled_count ts' = settled_count ts.
Proof.
  unfold settled_count.
  induction 1 as [|en en' ts ts' Hst _ IH]; [reflexivity|].
  simpl. destruct (started_settled _ _ Hst) as [_ ->].
  destruct (is_settled (e_status en)); simpl; rewrite IH; reflexivity.
Qed.

Lemma settled_count_app ts1 ts2 :
  settled_count (ts1 ++ ts2) = settled_count ts1 + settled_count ts2.
Proof. unfold settled_count. rewrite List.filter_app, length_app. reflexivity. Qed.

Lemma filter_none {X : Type} (f : X -> bool) (l : list X) :
  (forall x, In x l -> f x = false) -> List.filter f l = [].
Proof.
  induction l as [|x l IH]; intros H; [reflexivity|]. simpl.
  rewrite (H x (or_introl eq_refl)). apply IH.
  intros y Hy. apply H. right. exact Hy.
Qed.

Lemma settled_count_new_entries i (batch : list Doc) :
  settled_count (new_entries (A:=A) (E:=E) i batch) = 0.
Proof.
  unfold settled_count. rewrite filter_none; [reflexivity|].
  intros en Hin. apply new_entries_in in Hin as [_ ->]. reflexivity.
Qed.

Lemma settled_count_lt ts :
  (exists en, In en ts /\ is_settled (e_status en) = false) ->
  settled_count ts < length ts.
Proof.
  unfold settled_count. induction ts as [|en0 ts IH]; intros (en & Hin & Hns).
  - destruct Hin.
  - simpl. destruct Hin as [->|Hin].
    + rewrite Hns.
      pose proof (filter_length_le (fun en => is_settled (e_status en)) ts). lia.
    + specialize (IH (ex_intro _ en (conj Hin Hns))).
      destruct (is_settled (e_status en0)); simpl; lia.
Qed.

Lemma set_status_other id st ts :
  (forall en, In en ts -> e_id en <> id) -> set_status id st ts = ts.
Proof.
  intros H. unfold set_status. rewrite <- (map_id ts) at 2.
  apply map_ext_in. intros en Hin.
  destruct (Nat.eqb_spec (e_id en) id) as [Heq|_]; [|reflexivity].
  destruct (H en Hin Heq).
Qed.

Lemma settled_count_set ts en o :
  NoDup (map e_id ts) -> In en ts ->
  is_settled (e_status en) = false ->
  settled_count (set_status (e_id en) (Settled o) ts) = S (settled_count ts).
Proof.
  induction ts as [|en0 ts IH]; intros Hnd Hin Hns; [destruct Hin|].
  simpl in Hnd. apply NoDup_cons in Hnd as [Hfresh Hnd].
  unfold settled_count in *. simpl.
  destruct (Nat.eqb_spec (e_id en0) (e_id en)) as [Heq|Hne].
  - assert (en0 = en) as ->.
    { destruct Hin as [->|Hin]; [reflexivity|]. exfalso. apply Hfresh.
      rewrite Heq. apply list_elem_of_In, in_map, Hin. }
    simpl. rewrite Hns. f_equal.
    fold (set_status (e_id en) (Settled o) ts).
    rewrite set_status_other; [reflexivity|].
    intros en1 Hin1 Heq1. apply Hfresh. rewrite <- Heq1.
    apply list_elem_of_In, in_map, Hin1.
  - destruct Hin as [->|Hin]; [destruct (Hne eq_refl)|].
    fold (set_status (e_id en) (Settled o) ts).
    destruct (is_settled (e_status en0)); simpl; rewrite (IH Hnd Hin Hns);
      reflexivity.
Qed.

Lemma forallb_false {X : Type} (f : X -> bool) (l : list X) :
  forallb f l = false -> exists x, In x l /\ f x = false.
Proof.
  induction l as [|x l IH]; intros H; [discriminate|]. simpl in H.
  destruct (f x) eqn:Hx.
  - destruct (IH H) as (y & Hy & Hfy). exists y. split; [right|]; assumption.
  - exists x. split; [left; reflexivity|exact Hx].
Qed.

(** Entering the loop keeps a run calm. *)
Lemma calm_loop_head docs i ts tr m :
  (forall en, In en ts -> at_first_attempt (e_status en)) ->
  settled_count ts = m ->
  ((exists en, In en ts /\ e_status en = Queued) -> concurrency <= active ts) ->
  calm (loop_head docs i ts tr) m.
Proof.
  intros Hstat Hcount Hqueue. unfold loop_head.
  destruct (Nat.ltb_spec i (length docs)) as [Hlt|Hge].
  - set (batch := slice docs i (i + batchSize)).
    destruct (pump (ts ++ new_entries i batch) tr) as [ts1 tr1] eqn:Hp.
    pose proof (pump_started _ _ _ _ Hp) as Hrel.
    split; simpl.
    + intros en' Hin'. destruct (Forall2_in_r _ _ _ _ Hrel Hin') as (en & Hin & Hst).
      apply (started_first_attempt _ _ Hst).
      apply in_app_or in Hin as [Hin|Hin]; [apply Hstat, Hin|].
      apply new_entries_in in Hin as [_ ->]. exact I.
    + rewrite (settled_count_started _ _ Hrel), settled_count_app,
        settled_count_new_entries. lia.
    + assert (Hne : exists doc, batch !! 0 = Some doc).
      { destruct batch as [|doc batch'] eqn:Hb; [|exists doc; reflexivity].
        exfalso. assert (Hl : length batch = 0) by (rewrite Hb; reflexivity).
        unfold batch in Hl. rewrite slice_length in Hl.
        unfold batchSize in Hl. lia. }
      destruct Hne as (doc & Hdoc).
      assert (Hin : In {| e_batch := i; e_id := i + 0; e_doc := doc;
                          e_status := Queued |}
                       (ts ++ new_entries (A:=A) (E:=E) i batch)).
      { apply in_or_app. right. apply list_elem_of_In. unfold new_entries.
        apply (elem_of_lookup_imap_2
                 (fun j doc => {| e_batch := i; e_id := i + j; e_doc := doc;
                                  e_status := Queued |}) batch doc 0 Hdoc). }
      destruct (Forall2_in_l _ _ _ _ Hrel Hin) as (en' & Hin' & Hst).
      exists en'. split; [exact Hin'|].
      destruct (started_settled _ _ Hst) as [Hb Hs]. split; [exact Hb|].
      rewrite Hs. reflexivity.
    + apply (pump_no_starved _ _ _ _ Hp).
  - split; simpl; [exact Hstat|exact Hcount|exact I|exact Hqueue].
Qed.

Lemma calm_init docs :
  calm (initializeVectorStore (A:=A) (E:=E) docs) 0.
Proof.
  unfold initializeVectorStore. apply calm_loop_head.
  - intros en [].
  - reflexivity.
  - intros (en & [] & _).
Qed.

(** A write that succeeds settles its call, and the run stays calm. *)
Lemma calm_fire docs n s m id a s' :
  inv docs n s -> calm s m ->
  fire docs (WriteSettles id (inl a)) s = Some s' ->
  calm s' (S m).
Proof.
  intros [Hc Hplan Hcut Hm] [Hstat Hcount Hmain Hqueue] Hfire.
  destruct s as [main ts tr]. simpl in *.
  destruct (find (fun en => e_id en =? id) ts) as [en|] eqn:Hfind; [|discriminate].
  apply find_some in Hfind as [Hin _].
  destruct (e_status en) as [|[o|k|msg t|d t]|o] eqn:Hst; try discriminate.
  injection Hfire as <-.
  assert (Hk : k (inl a) = Done (Returned a)).
  { pose proof (Hstat en Hin) as Hen. rewrite Hst in Hen.
    destruct Hen as (k' & [= ->] & Hk'). apply Hk'. }
  assert (Hb : e_batch en = (n - 1) * batchSize).
  { apply (unsettled_cur _ ts tr en Hc Hin). intros o. rewrite Hst. discriminate. }
  unfold resume. simpl. rewrite Hk. simpl.
  set (ts1 := set_status (e_id en) (Settled (Returned a)) ts).
  set (tr1 := EvSettled (e_batch en) (e_id en) (Returned a) :: tr).
  destruct (pump ts1 tr1) as [ts2 tr2] eqn:Hp.
  pose proof (pump_started _ _ _ _ Hp) as Hrel.
  assert (Hstat1 : forall en1, In en1 ts1 -> at_first_attempt (e_status en1)).
  { intros en1 Hin1. unfold ts1, set_status in Hin1.
    apply in_map_iff in Hin1 as (en0 & <- & Hin0).
    destruct (e_id en0 =? e_id en); [simpl; exists a; reflexivity|].
    apply Hstat, Hin0. }
  assert (Hstat2 : forall en2, In en2 ts2 -> at_first_attempt (e_status en2)).
  { intros en2 Hin2. destruct (Forall2_in_r _ _ _ _ Hrel Hin2) as (en1 & Hin1 & Hs).
    apply (started_first_attempt _ _ Hs), Hstat1, Hin1. }
  assert (Hcount2 : settled_count ts2 = S m).
  { rewrite (settled_count_started _ _ Hrel). unfold ts1.
    rewrite settled_count_set; [rewrite Hcount; reflexivity| |exact Hin|].
    - rewrite (core_ids _ _ _ Hc). apply NoDup_seq.
    - rewrite Hst. reflexivity. }
  pose proof (pump_no_starved _ _ _ _ Hp) as Hqueue2.
  unfold on_settled. destruct main as [i| |e0].
  - simpl in Hm. destruct Hm as (_ & Hi & _). rewrite Hb, <- Hi, Nat.eqb_refl.
    destruct (batch_fulfilled i ts2) eqn:Hall.
    + apply calm_loop_head; assumption.
    + split; simpl; try assumption.
      unfold batch_fulfilled in Hall. apply forallb_false in Hall as (en2 & Hin2 & Hf).
      exists en2. split; [exact Hin2|].
      destruct (Nat.eqb_spec (e_batch en2) i) as [Heq|Hne]; [|discriminate].
      split; [exact Heq|].
      pose proof (Hstat2 en2 Hin2) as Hen2.
      destruct (e_status en2) as [|t2|o2]; try reflexivity.
      destruct Hen2 as (a2 & ->). discriminate.
  - split; simpl; solve [assumption | exact I].
  - destruct Hmain.
Qed.

Lemma calm_exec docs acts :
  forall n s m s',
    inv docs n s -> calm s m ->
    Forall succeeds_at_once acts ->
    exec docs acts s = Some s' ->
    (exists n', inv docs n' s') /\ calm s' (m + length acts).
Proof.
  induction acts as [|act acts IH]; intros n s m s' Hinv Hcalm Hall Hexec;
    simpl in Hexec.
  - injection Hexec as <-. simpl. rewrite Nat.add_0_r. split; [exists n|]; assumption.
  - destruct (fire docs act s) as [s1|] eqn:Hfire; [|discriminate].
    apply Forall_cons_1 in Hall as [Hact Hall].
    destruct (inv_fire docs n s act s1 Hinv Hfire) as (n1 & Hinv1).
    destruct act as [id [a|e]|id]; try destruct Hact.
    pose proof (calm_fire docs n s m id a s1 Hinv Hcalm Hfire) as Hcalm1.
    simpl. replace (m + S (length acts)) with (S m + length acts) by lia.
    apply (IH n1 s1 (S m) s' Hinv1 Hcalm1 Hall Hexec).
Qed.

Lemma planned_length_le docs n :
  length (planned docs n) <= length docs
  /\ length (planned docs n) <= n * batchSize.
Proof.
  induction n as [|n [IH1 IH2]]; [simpl; split; lia|].
  rewrite planned_succ, length_app, length_imap, slice_length. lia.
Qed.

Lemma find_by_id ts en :
  NoDup (map e_id ts) -> In en ts ->
  find (fun en' => e_id en' =? e_id en) ts = Some en.
Proof.
  induction ts as [|en0 ts IH]; intros Hnd Hin; [destruct Hin|].
  simpl in Hnd. apply NoDup_cons in Hnd as [Hfresh Hnd]. simpl.
  destruct (Nat.eqb_spec (e_id en0) (e_id en)) as [Heq|Hne].
  - destruct Hin as [->|Hin]; [reflexivity|]. exfalso. apply Hfresh.
    rewrite Heq. apply list_elem_of_In, in_map, Hin.
  - destruct Hin as [->|Hin]; [destruct (Hne eq_refl)|]. apply IH; assumption.
Qed.

(** Along a run in which every write succeeds at its first attempt:
    no more writes settle than there are documents; once as many have
    settled, [initializeVectorStore] has returned; until then it has not
    thrown, and some write is out whose success the run can go on
    with. *)
Lemma calm_run_returns docs acts s :
  Forall succeeds_at_once acts ->
  exec docs acts (initializeVectorStore docs) = Some s ->
  length acts <= length docs
  /\ (length acts = length docs -> st_main s = Finished)
  /\ (forall e, st_main s <> Failed e)
  /\ (length acts < length docs ->
      exists id, forall a, fire docs (WriteSettles id (inl a)) s <> None).
Proof.
  intros Hall Hexec. destruct (inv_init (A:=A) (E:=E) docs) as (n0 & Hinv0).
  destruct (calm_exec docs acts n0 _ 0 s Hinv0 (calm_init docs) Hall Hexec)
    as [(n & [Hc Hplan Hcut Hm]) [Hstat Hcount Hmain Hqueue]].
  simpl in Hcount.
  assert (Hlen : length (st_tasks s) <= length docs).
  { rewrite <- (length_map static), Hplan. apply planned_length_le. }
  assert (Hle : settled_count (st_tasks s) <= length (st_tasks s)).
  { apply filter_length_le. }
  assert (Hwait : forall i, st_main s = AwaitingAll i ->
            length acts < length docs
            /\ exists id, forall a,
                 fire docs (WriteSettles id (inl a)) s <> None).
  { intros i Hi. rewrite Hi in Hmain. destruct Hmain as (en & Hin & _ & Hns).
    pose proof (settled_count_lt _ (ex_intro _ en (conj Hin Hns))) as Hlt.
    split; [lia|].
    assert (Hrun : exists en1, In en1 (st_tasks s)
                               /\ is_running (e_status en1) = true).
    { destruct (e_status en) as [|t|o] eqn:Hst; [|exists en; rewrite Hst; auto|discriminate].
      pose proof (Hqueue (ex_intro _ en (conj Hin Hst))) as Hact.
      unfold active in Hact.
      destruct (filter (fun en0 => is_running (e_status en0) = true) (st_tasks s))
        as [|en1 rest] eqn:Hf; [unfold concurrency in Hact; simpl in Hact; lia|].
      assert (Hin1 : en1 ∈ filter (fun en0 => is_running (e_status en0) = true)
                             (st_tasks s)) by (rewrite Hf; left).
      apply list_elem_of_filter in Hin1 as [Hr Hin1].
      exists en1. split; [apply list_elem_of_In, Hin1|exact Hr]. }
    destruct Hrun as (en1 & Hin1 & Hr).
    exists (e_id en1). intros a. simpl.
    rewrite (find_by_id _ en1); [|rewrite (core_ids _ _ _ Hc); apply NoDup_seq|exact Hin1].
    pose proof (Hstat en1 Hin1) as Hen1.
    destruct (e_status en1) as [|t|o]; try discriminate.
    destruct Hen1 as (k & -> & _). discriminate. }
  split; [lia|]. split; [|split].
  - intros Hfull. destruct (st_main s) as [i| |e0] eqn:Hmain_s.
    + destruct (Hwait i eq_refl) as [Hlt _]. lia.
    + reflexivity.
    + destruct Hmain.
  - intros e He. rewrite He in Hmain. exact Hmain.
  - intros Hlt. destruct (st_main s) as [i| |e0] eqn:Hmain_s.
    + apply (Hwait i eq_refl).
    + exfalso. simpl in Hm. destruct Hm as (Hfin & _ & Hall' & _).
      assert (Hlen' : length (st_tasks s) = length docs).
      { rewrite <- (length_map static), Hplan.
        destruct Hcut as [->|Hcut]; [simpl in *; lia|].
        destruct n as [|n']; [simpl in *; lia|].
        rewrite planned_succ, length_app, length_imap, slice_length.
        simpl in Hcut. rewrite Nat.sub_0_r in Hcut.
        rewrite planned_length by lia. lia. }
      assert (Hall_settled : settled_count (st_tasks s) = length (st_tasks s)).
      { unfold settled_count.
        rewrite List.forallb_filter_id; [reflexivity|].
        apply forallb_forall. intros en Hin.
        destruct (Hall' en Hin) as (o & -> & _). reflexivity. }
      lia.
    + destruct Hmain.
Qed.
End IngestProgress.

Section IngestClaims.
Import Async Ingest.
Context {Doc A E : Type}.
Implicit Types (docs : list Doc) (s : state Doc A E).

(** C9. Batches are processed strictly one after the other. In every
    state [initializeVectorStore] can reach, whatever the order in which
    writes settle and timers fire:
    - the calls made so far are those for the documents of the first
      batches, and whenever a write request of batch [i] goes out,
      every call of every earlier batch has been fulfilled before;
    - once a call of batch [i] is rejected (its retries exhausted),
      [initializeVectorStore] has thrown: the error it threw is the one
      of the first call rejected, a call of that same batch, so the
      error of this call unless another was rejected before it; no call
      of a later batch exists, no write request of a later batch goes
      out afterwards and no progress line is logged afterwards. *)
Theorem batches_sequential_abort_on_rejection docs s :
  reachable docs s ->
  (exists n, map static (st_tasks s) = planned docs n)
  /\ (forall later earlier i id,
        st_trace s = later ++ EvIssue i id :: earlier ->
        forall en, In en (st_tasks s) -> e_batch en < i ->
                   fulfilled_in (e_batch en) (e_id en) earlier)
  /\ (forall later earlier i id e,
        st_trace s = later ++ EvSettled i id (Thrown e) :: earlier ->
        (exists e0 later0 id0 earlier0,
            st_main s = Failed e0
            /\ st_trace s = later0 ++ EvSettled i id0 (Thrown e0) :: earlier0
            /\ (forall ev, In ev earlier0 -> ~ is_rejection ev)
            /\ ((forall ev, In ev earlier -> ~ is_rejection ev) -> e0 = e))
        /\ (forall en, In en (st_tasks s) -> e_batch en <= i)
        /\ (forall ev, In ev later ->
              ~ is_progress ev
              /\ forall b, issue_batch ev = Some b -> b <= i)).
Proof.
  intros Hreach. destruct (inv_reachable docs s Hreach) as (n & [Hc Hplan Hcut Hm]).
  split; [exists n; exact Hplan|]. split.
  - intros later earlier i id Htr. apply (core_ord _ _ _ Hc later earlier i id Htr).
  - intros later earlier i id e Htr.
    assert (Hev : In (EvSettled i id (Thrown e)) (st_trace s)).
    { rewrite Htr. apply in_or_app. right. left. reflexivity. }
    assert (Hi : i = (n - 1) * batchSize).
    { destruct (core_e2s _ _ _ Hc i id (Thrown e) Hev) as (en & Hin & Hb & _ & Hst).
      destruct (core_bat _ _ _ Hc en Hin) as [Hle Hset].
      destruct (Nat.eq_dec (e_batch en) ((n - 1) * batchSize)) as [Heq|Hne];
        [rewrite <- Hb; exact Heq|].
      destruct (Hset ltac:(lia)) as (o' & Ho' & Hf). rewrite Hst in Ho'.
      injection Ho' as <-. discriminate. }
    assert (Hissue : forall ev, In ev later ->
              forall b, issue_batch ev = Some b -> b <= i).
    { intros ev Hin b Hb. destruct ev; try discriminate. injection Hb as ->.
      rewrite Hi. apply (core_iss _ _ _ Hc b id0). rewrite Htr.
      apply in_or_app. left. exact Hin. }
    assert (Hbatch : forall en, In en (st_tasks s) -> e_batch en <= i).
    { intros en Hin. rewrite Hi. apply (core_bat _ _ _ Hc en Hin). }
    destruct (st_main s) as [i0| |e0]; simpl in Hm.
    + destruct Hm as (_ & _ & _ & Hnorej & _). destruct (Hnorej _ Hev I).
    + destruct Hm as (_ & Hnorej & _). destruct (Hnorej _ Hev I).
    + destruct Hm as (_ & _ & later0 & id0 & earlier0 & Htr0 & Hnorej & Hnoprog).
      rewrite <- Hi in Htr0.
      assert (Hfirst : forall e', e0 = e' ->
                exists e1 later1 id1 earlier1,
                  Failed e0 = Failed e1
                  /\ st_trace s = later1 ++ EvSettled i id1 (Thrown e1) :: earlier1
                  /\ (forall ev, In ev earlier1 -> ~ is_rejection ev)
                  /\ ((forall ev, In ev earlier -> ~ is_rejection ev) -> e1 = e')).
      { intros e' <-. exists e0, later0, id0, earlier0.
        split; [reflexivity|]. split; [exact Htr0|]. split; [exact Hnorej|].
        intros _. reflexivity. }
      rewrite Htr in Htr0.
      destruct (split_twice _ _ _ _ _ _ Htr0)
        as [(-> & Hsame & ->)|[(mid & -> & ->)|(mid & -> & ->)]].
      * injection Hsame as _ ->. split; [|split].
        -- apply Hfirst. reflexivity.
        -- exact Hbatch.
        -- intros ev Hin. split; [apply Hnoprog, Hin|apply Hissue, Hin].
      * split; [|split].
        -- exists e0, (later ++ EvSettled i id (Thrown e) :: mid), id0, earlier0.
           split; [reflexivity|].
           split; [rewrite Htr, <- app_assoc; reflexivity|].
           split; [exact Hnorej|]. intros Hnone. exfalso.
           apply (Hnone (EvSettled i id0 (Thrown e0))); [|exact I].
           apply in_or_app. right. left. reflexivity.
        -- exact Hbatch.
        -- intros ev Hin. split; [|apply Hissue, Hin].
           apply Hnoprog. apply in_or_app. left. exact Hin.
      * exfalso. apply (Hnorej (EvSettled i id (Thrown e))); [|exact I].
        apply in_or_app. right. left. reflexivity.
Qed.

Lemma planned_batches (l : list Doc) i :
  map (fun x : nat * nat * Doc => (fst (fst x), snd x))
      (imap (fun j doc => (i, i + j, doc)) l) =
  map (pair i) l.
Proof.
  change (map ?f ?l) with (fmap (M:=list) f l).
  rewrite fmap_imap. rewrite <- (imap_const (pair i) l).
  apply imap_ext. intros j doc _. reflexivity.
Qed.

Lemma finishing_run_120 docs (a : A) :
  length docs = 120 ->
  option_map st_main
    (exec (E:=E) docs (all_succeed a 120) (initializeVectorStore docs)) =
  Some Finished.
Proof.
  intros Hlen.
  do 120 (destruct docs as [|? docs]; [discriminate Hlen|]).
  destruct docs; [|discriminate Hlen]. clear Hlen.
  vm_compute. reflexivity.
Qed.

(** C2. For 120 chunks: [docs.slice] cuts them, in order, into three
    batches of 50, 50 and 20. Every run of [initializeVectorStore] that
    returns has made its calls batch by batch in that order and has
    logged progress exactly three times, as 50, 100 and 120 out of 120;
    at any time the progress lines logged so far are the first ones of
    these, and a write request of a batch goes out only after every
    call of the earlier batches was fulfilled and never before a write
    request of an earlier batch. When every write succeeds at its first
    attempt, in whatever order the writes settle, the function does not
    throw, is never stuck, and has returned once the 120 writes have
    settled; the run that settles them in document order is one such
    run. *)
Theorem ingest_120_chunks docs (a : A) :
  length docs = 120 ->
  let b1 := slice docs 0 50 in
  let b2 := slice docs 50 100 in
  let b3 := slice docs 100 150 in
  (length b1 = 50 /\ length b2 = 50 /\ length b3 = 20
   /\ b1 ++ b2 ++ b3 = docs)
  /\ (forall s : state Doc A E,
        reachable docs s -> st_main s = Finished ->
        map (fun en => (e_batch en, e_doc en)) (st_tasks s) =
        map (pair 0) b1 ++ map (pair 50) b2 ++ map (pair 100) b3
        /\ progress_reports (st_trace s) = [(50, 120); (100, 120); (120, 120)])
  /\ (forall s : state Doc A E,
        reachable docs s ->
        (exists m,
            progress_reports (st_trace s) =
            take m [(50, 120); (100, 120); (120, 120)])
        /\ forall later earlier i id,
             st_trace s = later ++ EvIssue i id :: earlier ->
             (forall en, In en (st_tasks s) -> e_batch en < i ->
                         fulfilled_in (e_batch en) (e_id en) earlier)
             /\ (forall b k, In (EvIssue b k) earlier -> b <= i))
  /\ (forall (acts : list (action A E)) (s : state Doc A E),
        Forall succeeds_at_once acts ->
        exec docs acts (initializeVectorStore docs) = Some s ->
        length acts <= 120
        /\ (length acts = 120 -> st_main s = Finished)
        /\ (forall e, st_main s <> Failed e)
        /\ (length acts < 120 ->
            exists id, forall a',
              fire docs (WriteSettles id (inl a')) s <> None))
  /\ exists s : state Doc A E,
       exec docs (all_succeed a 120) (initializeVectorStore docs) = Some s
       /\ st_main s = Finished.
Proof.
  intros Hlen b1 b2 b3.
  assert (Hl1 : length b1 = 50).
  { unfold b1, slice. rewrite length_take, length_drop. lia. }
  assert (Hl2 : length b2 = 50).
  { unfold b2, slice. rewrite length_take, length_drop. lia. }
  assert (Hl3 : length b3 = 20).
  { unfold b3, slice. rewrite length_take, length_drop. lia. }
  assert (Hexp : forall m, m <= 3 ->
            expected_progress docs m =
            take m [(50, 120); (100, 120); (120, 120)]).
  { intros m Hm. unfold expected_progress.
    assert (H3 : map (fun k : nat =>
                        let i := k * batchSize in
                        (i + length (slice docs i (i + batchSize)), length docs))
                     (seq 0 3) = [(50, 120); (100, 120); (120, 120)]).
    { cbn [map seq]. change (0 * batchSize) with 0. change (1 * batchSize) with 50.
      change (2 * batchSize) with 100. change (0 + batchSize) with 50.
      change (50 + batchSize) with 100. change (100 + batchSize) with 150.
      fold b1 b2 b3. rewrite Hl1, Hl2, Hl3, Hlen. reflexivity. }
    rewrite <- H3.
    change (take m (map ?f ?l)) with (take m (fmap (M:=list) f l)).
    rewrite <- fmap_take. f_equal.
    destruct m as [|[|[|[|m]]]]; try reflexivity. lia. }
  split; [|split; [|split; [|split]]].
  - split; [exact Hl1|]. split; [exact Hl2|]. split; [exact Hl3|].
    unfold b1, b2, b3, slice. simpl Nat.sub. rewrite drop_0.
    rewrite (take_ge (drop 100 docs)) by (rewrite length_drop; lia).
    rewrite <- (take_drop 50 docs) at 4.
    f_equal. rewrite <- (take_drop 50 (drop 50 docs)) at 2.
    rewrite drop_drop. reflexivity.
  - intros s Hreach Hfin.
    destruct (inv_reachable docs s Hreach) as (n & [Hc Hplan Hcut Hm]).
    rewrite Hfin in Hm. simpl in Hm. destruct Hm as (Hn & _ & _ & Hprog).
    assert (n = 3) as -> by (unfold batchSize in *; lia).
    split; [|rewrite Hprog; apply (Hexp 3); lia].
    transitivity (map (fun x : nat * nat * Doc => (fst (fst x), snd x))
                      (map static (st_tasks s))).
    { rewrite map_map. reflexivity. }
    rewrite Hplan.
    change 3 with (S (S (S 0))). rewrite !planned_succ.
    change (planned docs 0) with (@nil (nat * nat * Doc)).
    change (0 * batchSize) with 0. change (1 * batchSize) with 50.
    change (2 * batchSize) with 100. change (0 + batchSize) with 50.
    change (50 + batchSize) with 100. change (100 + batchSize) with 150.
    fold b1 b2 b3. simpl app.
    rewrite !map_app, !planned_batches, <- app_assoc. reflexivity.
  - intros s Hreach.
    destruct (inv_reachable docs s Hreach) as (n & [Hc Hplan Hcut Hm]).
    split; [|intros later earlier i id Htr;
             apply (core_ord _ _ _ Hc later earlier i id Htr)].
    assert (Hn3 : n <= 3) by (unfold batchSize in *; lia).
    destruct (st_main s) as [i| |e0]; simpl in Hm.
    + destruct Hm as (_ & _ & _ & _ & Hprog).
      exists (n - 1). rewrite Hprog. apply Hexp. lia.
    + destruct Hm as (_ & _ & _ & Hprog).
      exists n. rewrite Hprog. apply Hexp. lia.
    + destruct Hm as (_ & Hprog & _).
      exists (n - 1). rewrite Hprog. apply Hexp. lia.
  - intros acts s Hall Hexec. rewrite <- Hlen.
    apply (calm_run_returns docs acts s Hall Hexec).
  - pose proof (finishing_run_120 docs a Hlen) as Hrun.
    destruct (exec docs (all_succeed a 120) (initializeVectorStore docs))
      as [s|]; [|discriminate].
    exists s. split; [reflexivity|]. simpl in Hrun. congruence.
Qed.
End IngestClaims.

(* ================================================================== *)
(** * Properties of the loader and of the documents it makes *)
(* ================================================================== *)

Section LoaderFacts.
Import Loader.
Context {Err Dom : Type}.
Variable env : Env Err Dom.
Implicit Types (file directoryPath : string) (documents : list Document).

Local Open Scope string_scope.

(** A file that succeeds adds one Document, made from that file. *)
Lemma iteration_succeeds directoryPath file documents :
  succeeds env directoryPath file = true ->
  exists doc effs,
    iteration env directoryPath file documents =
    ((documents ++ [doc])%list, effs)
    /\ loaded_from env directoryPath file doc.
Proof.
  unfold succeeds, recognized, reads_and_parses, loaded_from, is_html,
    iteration, try_block.
  set (ext := toLowerCase env (path_extname env file)).
  set (filePath := path_join env directoryPath file).
  intros Hs. apply andb_prop in Hs as [Hrec Hread].
  destruct (readFile env filePath) as [error|text] eqn:Hfile; [discriminate|].
  destruct ((ext =? ".txt") || (ext =? ".md"))%bool eqn:Htext.
  - assert (Hhtml : (ext =? ".html") = false).
    { apply orb_prop in Htext as [H|H]; apply String.eqb_eq in H; rewrite H;
        reflexivity. }
    rewrite Hhtml. eexists. eexists. split; [reflexivity|]. simpl. split.
    + apply lookup_singleton_eq.
    + reflexivity.
  - simpl in Hrec. rewrite Hrec in *.
    destruct (cheerio_load env text) as [error|dom] eqn:Hdom; [discriminate|].
    eexists. eexists. split; [reflexivity|]. simpl. split.
    + rewrite lookup_insert_ne by discriminate.
      rewrite lookup_insert_ne by discriminate.
      apply lookup_singleton_eq.
    + exists text, dom. split; [reflexivity|]. split; [exact Hdom|].
      split; [reflexivity|]. split.
      * rewrite lookup_insert_ne by discriminate. apply lookup_insert_eq.
      * apply lookup_insert_eq.
Qed.

(** Any other file adds nothing, and the scan goes on: a file whose
    extension is not recognized is warned about, a file that cannot be
    read or parsed has its error logged. *)
Lemma iteration_skips directoryPath file documents :
  succeeds env directoryPath file = false ->
  exists effs,
    iteration env directoryPath file documents = (documents, effs)
    /\ (recognized env file = false -> effs = [WarnUnsupported file])
    /\ (recognized env file = true ->
        exists error, In (ErrorProcessing file error) effs).
Proof.
  unfold succeeds, recognized, reads_and_parses, is_html, iteration, try_block.
  set (ext := toLowerCase env (path_extname env file)).
  set (filePath := path_join env directoryPath file).
  intros Hs.
  destruct ((ext =? ".txt") || (ext =? ".md"))%bool eqn:Htext.
  - assert (Hhtml : (ext =? ".html") = false).
    { apply orb_prop in Htext as [H|H]; apply String.eqb_eq in H; rewrite H;
        reflexivity. }
    rewrite Hhtml in *. simpl in Hs.
    destruct (readFile env filePath) as [error|text] eqn:Hfile; [|discriminate].
    eexists. split; [reflexivity|]. split; [discriminate|].
    intros _. exists error. right. left. reflexivity.
  - simpl in Hs. destruct (ext =? ".html") eqn:Hhtml.
    + simpl in Hs.
      destruct (readFile env filePath) as [error|text] eqn:Hfile.
      * eexists. split; [reflexivity|]. split; [discriminate|].
        intros _. exists error. right. right. left. reflexivity.
      * destruct (cheerio_load env text) as [error|dom] eqn:Hdom; [|discriminate].
        eexists. split; [reflexivity|]. split; [discriminate|].
        intros _. exists error. right. right. left. reflexivity.
    + eexists. split; [reflexivity|]. split; [reflexivity|discriminate].
Qed.

Lemma for_files_spec directoryPath files :
  forall documents,
  exists added effs,
    for_files env directoryPath files documents =
    ((documents ++ added)%list, effs)
    /\ Forall2 (loaded_from env directoryPath)
         (List.filter (succeeds env directoryPath) files) added
    /\ (forall file, In file files ->
          (recognized env file = false -> In (WarnUnsupported file) effs)
          /\ (recognized env file = true ->
              succeeds env directoryPath file = false ->
              exists error, In (ErrorProcessing file error) effs)).
Proof.
  induction files as [|file files IH]; intros documents.
  - exists [], []. simpl. rewrite app_nil_r. split; [reflexivity|].
    split; [constructor|]. intros file [].
  - simpl. destruct (succeeds env directoryPath file) eqn:Hs.
    + destruct (iteration_succeeds directoryPath file documents Hs)
        as (doc & effs1 & Hit & Hdoc).
      rewrite Hit.
      destruct (IH (documents ++ [doc])%list) as (added & effs2 & Hfor & Hrel & Hlog).
      rewrite Hfor. exists (doc :: added), (effs1 ++ effs2)%list.
      split; [rewrite <- app_assoc; reflexivity|].
      split; [constructor; assumption|].
      intros file' [<-|Hin].
      * pose proof Hs as Hs'. unfold succeeds in Hs'.
        apply andb_prop in Hs' as [Hrec _].
        split; [rewrite Hrec; discriminate|]. intros _ Habs. congruence.
      * destruct (Hlog file' Hin) as [Hw He]. split.
        -- intros H. apply in_or_app. right. apply Hw, H.
        -- intros H1 H2. destruct (He H1 H2) as (error & Herr).
           exists error. apply in_or_app. right. exact Herr.
    + destruct (iteration_skips directoryPath file documents Hs)
        as (effs1 & Hit & Hwarn & Herr).
      rewrite Hit.
      destruct (IH documents) as (added & effs2 & Hfor & Hrel & Hlog).
      rewrite Hfor. exists added, (effs1 ++ effs2)%list.
      split; [reflexivity|]. split; [exact Hrel|].
      intros file' [<-|Hin].
      * split.
        -- intros H. apply in_or_app. left. rewrite (Hwarn H). left. reflexivity.
        -- intros H _. destruct (Herr H) as (error & He).
           exists error. apply in_or_app. left. exact He.
      * destruct (Hlog file' Hin) as [Hw He]. split.
        -- intros H. apply in_or_app. right. apply Hw, H.
        -- intros H1 H2. destruct (He H1 H2) as (error & Herr').
           exists error. apply in_or_app. right. exact Herr'.
Qed.
End LoaderFacts.

Section SplitterFacts.
Import Loader.
Local Open Scope string_scope.

Lemma windows_nonempty chunkSize chunkOverlap fuel :
  1 <= chunkSize ->
  forall text w,
    In w (windows fuel chunkSize chunkOverlap text) -> w <> "".
Proof.
  intros Hsize. induction fuel as [|fuel IH]; intros text w Hin; [destruct Hin|].
  simpl in Hin. destruct (Nat.eqb_spec (String.length text) 0) as [H0|H0];
    [destruct Hin|].
  destruct (Nat.leb_spec (String.length text) chunkSize) as [Hle|Hgt].
  - destruct Hin as [<-|[]]. intros ->. apply H0. reflexivity.
  - destruct Hin as [<-|Hin]; [|apply (IH _ _ Hin)].
    destruct text as [|c text]; [simpl in H0; lia|].
    destruct chunkSize as [|n]; [lia|]. simpl. discriminate.
Qed.

Lemma append_nl_nonempty (a b : string) : a ++ nl ++ b <> "".
Proof. destruct a; simpl; discriminate. Qed.

(** A chunk has text, and the metadata of the Document it is cut
    from. *)
Lemma splitDocuments_chunk chunkSize chunkOverlap documents chunk :
  1 <= chunkSize ->
  In chunk (splitDocuments chunkSize chunkOverlap documents) ->
  pageContent chunk <> ""
  /\ exists doc, In doc documents /\ metadata chunk = metadata doc.
Proof.
  intros Hsize Hin. unfold splitDocuments in Hin.
  apply in_flat_map in Hin as (doc & Hdoc & Hin).
  apply in_map_iff in Hin as (text & <- & Htext). simpl. split.
  - apply (windows_nonempty _ _ _ Hsize _ _ Htext).
  - exists doc. split; [exact Hdoc|reflexivity].
Qed.
End SplitterFacts.

Section LoaderClaims.
Import Loader.
Context {Err Dom : Type}.
Variable env : Env Err Dom.
Implicit Types (file directoryPath : string) (documents : list Document).

Local Open Scope string_scope.

Lemma loaded_sources directoryPath files documents :
  Forall2 (loaded_from env directoryPath) files documents ->
  omap (fun doc => metadata doc !! "source") documents = files.
Proof.
  induction 1 as [|file doc files documents [Hsrc _] _ IH]; [reflexivity|].
  simpl. rewrite Hsrc. simpl. f_equal. exact IH.
Qed.

(** C7. Whatever the directory lists, [loadDocumentsFromDirectory]
    returns (it does not throw once the listing is there) one Document
    for each file that has a recognized extension ([.txt], [.md],
    [.html], in any case) and reads and parses, in the order of the
    listing, and none for any other file: the sources of the Documents
    returned are exactly the files that succeed. A file with another
    extension is warned about, a file that fails has its error logged,
    and the scan goes on. There are at most as many Documents as
    files. *)
Theorem loadDocumentsFromDirectory_isolates_failures directoryPath files :
  readdir env directoryPath = inr files ->
  exists documents effs,
    loadDocumentsFromDirectory env directoryPath = (inr documents, effs)
    /\ Forall2 (loaded_from env directoryPath)
         (List.filter (succeeds env directoryPath) files) documents
    /\ omap (fun doc => metadata doc !! "source") documents =
       List.filter (succeeds env directoryPath) files
    /\ length documents <= length files
    /\ (forall file, In file files ->
          (recognized env file = false -> In (WarnUnsupported file) effs)
          /\ (recognized env file = true ->
              succeeds env directoryPath file = false ->
              exists error, In (ErrorProcessing file error) effs)).
Proof.
  intros Hdir. unfold loadDocumentsFromDirectory. rewrite Hdir.
  destruct (for_files_spec env directoryPath files [])
    as (documents & effs & Hfor & Hrel & Hlog).
  rewrite Hfor. simpl. exists documents, (Readdir directoryPath :: effs).
  split; [reflexivity|]. split; [exact Hrel|].
  split; [apply (loaded_sources _ _ _ Hrel)|]. split.
  - rewrite <- (Forall2_length _ _ _ Hrel). apply filter_length_le.
  - intros file Hin. destruct (Hlog file Hin) as [Hw He]. split.
    + intros H. right. apply Hw, H.
    + intros H1 H2. destruct (He H1 H2) as (error & Herr).
      exists error. right. exact Herr.
Qed.

(** What the loader's Documents and the chunks cut from them carry. *)
Lemma loaded_documents_and_chunks directoryPath documents :
  fst (loadDocumentsFromDirectory env directoryPath) = inr documents ->
  (forall doc, In doc documents ->
     exists file,
       metadata doc !! "source" = Some file
       /\ if is_html env file then pageContent doc <> ""
          else readFile env (path_join env directoryPath file)
               = inr (pageContent doc))
  /\ (forall chunk,
        In chunk (splitDocuments 1000 200 documents) ->
        pageContent chunk <> ""
        /\ exists doc file,
             In doc documents
             /\ metadata chunk = metadata doc
             /\ metadata doc !! "source" = Some file
             /\ metadata chunk !! "source" = Some file).
Proof.
  intros Hload.
  assert (Hdocs : forall doc, In doc documents ->
            exists file, loaded_from env directoryPath file doc).
  { unfold loadDocumentsFromDirectory in Hload.
    destruct (readdir env directoryPath) as [error|files]; [discriminate|].
    destruct (for_files_spec env directoryPath files [])
      as (added & effs & Hfor & Hrel & _).
    rewrite Hfor in Hload. simpl in Hload. injection Hload as <-.
    intros doc Hin. destruct (Forall2_in_r _ _ _ _ Hrel Hin) as (file & _ & Hdoc).
    exists file. exact Hdoc. }
  split.
  - intros doc Hin. destruct (Hdocs doc Hin) as (file & Hsrc & Hcontent).
    exists file. split; [exact Hsrc|].
    destruct (is_html env file); [|exact Hcontent].
    destruct Hcontent as (text & dom & _ & _ & -> & _).
    apply append_nl_nonempty.
  - intros chunk Hin.
    destruct (splitDocuments_chunk 1000 200 documents chunk ltac:(lia) Hin)
      as (Hne & doc & Hdoc & Hmeta).
    split; [exact Hne|].
    destruct (Hdocs doc Hdoc) as (file & Hsrc & _).
    exists doc, file. split; [exact Hdoc|]. split; [exact Hmeta|].
    split; [exact Hsrc|]. rewrite Hmeta. exact Hsrc.
Qed.
End LoaderClaims.

(* ================================================================== *)
(** * Properties of [initializeChatbot] and of the question-answering chain *)
(* ================================================================== *)

Section ChatbotClaims.
Import Loader Chatbot.
Context {Err Dom Response : Type}.
Variable services : Services Err Dom Response.

Local Open Scope string_scope.

Lemma parse_template :
  parseFString TEMPLATE =
  Some [Literal ("Answer the following question based on the context:"
                 ++ nl ++ "        Context: ");
        InputVariable "context";
        Literal (nl ++ "        Question: ");
        InputVariable "question";
        Literal (nl ++ "        Answer:")].
Proof. vm_compute. reflexivity. Qed.

Lemma format_template context question :
  format TEMPLATE (prompt_values context question) =
  Some (rendered context question).
Proof.
  unfold format. rewrite parse_template. cbn [interpolate].
  change (prompt_values context question "context") with (Some context).
  change (prompt_values context question "question") with (Some question).
  cbn [option_map interpolate]. reflexivity.
Qed.

(** C6. Whatever [source] is, a [sourceType] other than ['directory'],
    ['url'] and ['github'] makes [initializeChatbot] throw
    [Error('Invalid source type')] at once: nothing has been loaded,
    split or written, and the vector store is never reached. *)
Theorem initializeChatbot_invalid_source_type source sourceType :
  sourceType <> "directory" -> sourceType <> "url" ->
  sourceType <> "github" ->
  initializeChatbot services source sourceType =
  (Threw (JsError "Invalid source type"), []).
Proof.
  intros Hd Hu Hg. unfold initializeChatbot, load_source.
  apply String.eqb_neq in Hd, Hu, Hg. rewrite Hd, Hu, Hg. reflexivity.
Qed.

(** C5 (as amended). When [initializeChatbot] is called for a
    directory and gets as far as the vector store: every Document the
    loader returned has a [source] key in its metadata, the file it was
    made from; its content is the text of that file for [.txt] and
    [.md], so empty when the file is empty, and is never empty for
    [.html]. Every chunk handed to [initializeVectorStore] has non-empty
    content and the metadata of the Document it is cut from, so the same
    [source]. *)
Theorem initializeChatbot_documents_and_chunks source chunks effs :
  initializeChatbot services source "directory" = (Ingesting chunks, effs) ->
  exists documents,
    fst (loadDocumentsFromDirectory (files services) source) = inr documents
    /\ chunks = splitDocuments chunkSize chunkOverlap documents
    /\ (forall doc, In doc documents ->
          exists file,
            metadata doc !! "source" = Some file
            /\ if is_html (files services) file then pageContent doc <> ""
               else readFile (files services)
                      (path_join (files services) source file)
                    = inr (pageContent doc))
    /\ (forall chunk, In chunk chunks ->
          pageContent chunk <> ""
          /\ exists doc file,
               In doc documents
               /\ metadata chunk = metadata doc
               /\ metadata doc !! "source" = Some file
               /\ metadata chunk !! "source" = Some file).
Proof.
  unfold initializeChatbot, load_source. cbn [String.eqb Ascii.eqb Bool.eqb].
  destruct (loadDocumentsFromDirectory (files services) source)
    as [[e|documents] effs0] eqn:Hload; [discriminate|].
  intros [= <- _]. exists documents.
  assert (Hfst : fst (loadDocumentsFromDirectory (files services) source)
                 = inr documents) by (rewrite Hload; reflexivity).
  split; [reflexivity|]. split; [reflexivity|].
  apply (loaded_documents_and_chunks (files services) source documents Hfst).
Qed.

(** C8. For every question, [askQuestion] on the chain of
    [createChatbot] retrieves once; with the chunks retrieved it calls
    the model once, with the template in which [{context}] is their
    contents joined by line breaks and [{question}] is the question, and
    returns the model's response. A retrieval or a model call that fails
    is not repeated: its error is the result. *)
Theorem askQuestion_renders_and_asks_once question :
  let res := askQuestion (createChatbot services) question in
  (forall docs,
      getRelevantDocuments services question = inr docs ->
      let prompt :=
        rendered (String.concat nl (map pageContent docs)) question in
      snd res = [Retrieve question; InvokeModel prompt]
      /\ (forall response,
            ollama_invoke services prompt = inr response ->
            fst res = inr response)
      /\ (forall e,
            ollama_invoke services prompt = inl e ->
            fst res = inl (External e)))
  /\ (forall e,
        getRelevantDocuments services question = inl e ->
        res = (inl (External e), [Retrieve question]))
  /\ retrievals (snd res) = [question]
  /\ length (model_calls (snd res)) <= 1.
Proof.
  intros res. subst res. unfold askQuestion, createChatbot.
  destruct (getRelevantDocuments services question) as [e|docs] eqn:Hret.
  - split; [intros docs Habs; discriminate|].
    split; [intros e' [= ->]; reflexivity|].
    split; [reflexivity|]. simpl. lia.
  - rewrite format_template.
    set (prompt := rendered (String.concat nl (map pageContent docs)) question).
    split.
    + intros docs' [= <-]. fold prompt. cbn zeta.
      destruct (ollama_invoke services prompt) as [e|response] eqn:Hllm; simpl.
      * split; [reflexivity|]. split; [intros r Habs; discriminate|].
        intros e' [= ->]. reflexivity.
      * split; [reflexivity|]. split; [intros r [= ->]; reflexivity|].
        intros e' Habs. discriminate.
    + split; [intros e Habs; discriminate|].
      destruct (ollama_invoke services prompt) as [e|response]; simpl;
        (split; [reflexivity|lia]).
Qed.
End ChatbotClaims.

(* ================================================================== *)
(** * The properties at concrete inputs *)
(* ================================================================== *)

Section Witnesses.
Import Async Ingest Loader Chatbot Examples.
Local Open Scope string_scope.

(** C1 at [maxRetries = 3]: the write that fails once is invoked twice
    and its result returned; the write that never succeeds is invoked
    three times and its error thrown. *)
Lemma retryWithBackoff_attempts_witness :
  (Z.of_nat 1 < 3)%Z
  /\ snd (run (retryWithBackoff 3 1000) flaky 0) = Returned 7
  /\ invocations (fst (run (retryWithBackoff 3 1000) flaky 0)) = 2
  /\ exists e,
       snd (run (retryWithBackoff 3 1000) always_failing 0) = Thrown e
       /\ Z.of_nat (invocations
                      (fst (run (retryWithBackoff 3 1000) always_failing 0)))
          = 3%Z.
Proof.
  assert (H13 : (Z.of_nat 1 < 3)%Z) by lia.
  split; [exact H13|].
  destruct (retryWithBackoff_attempts flaky 3 1000 1 H13) as [Hok _].
  destruct (Hok 7) as [Hres Hn].
  { intros k Hk. assert (k = 0) as -> by lia. exact I. }
  { reflexivity. }
  destruct (retryWithBackoff_attempts always_failing 3 1000 1 H13) as [_ Hfail].
  destruct (Hfail (fun _ => I)) as (e & _ & He & Hcount).
  split; [exact Hres|]. split; [exact Hn|]. exists e. split; assumption.
Defined.





(** C2 for the chunks 0 to 119. *)
Lemma ingest_120_chunks_witness :
  length chunks120 = 120
  /\ exists s : state nat unit string,
       exec chunks120 (all_succeed tt 120) (initializeVectorStore chunks120)
       = Some s
       /\ st_main s = Finished
       /\ progress_reports (st_trace s) = [(50, 120); (100, 120); (120, 120)].
Proof.
  assert (Hlen : length chunks120 = 120) by reflexivity.
  split; [exact Hlen|].
  destruct (ingest_120_chunks (E:=string) chunks120 tt Hlen)
    as (_ & Hfin & _ & _ & s & Hexec & Hmain).
  exists s. split; [exact Hexec|]. split; [exact Hmain|].
  apply (Hfin s); [|exact Hmain].
  exists (all_succeed tt 120). exact Hexec.
Defined.

(** C9 for 60 chunks, after the call for chunk 52 was rejected. *)
Lemma batches_sequential_abort_on_rejection_witness :
  reachable chunks60 after_rejection
  /\ st_main after_rejection = Failed "ECONNREFUSED"
  /\ progress_reports (st_trace after_rejection) = [(50, 60)]
  /\ forall en, In en (st_tasks after_rejection) -> e_batch en <= 50.
Proof.
  assert (Hreach : reachable chunks60 after_rejection).
  { exists chunk52_rejected. vm_compute. reflexivity. }
  split; [exact Hreach|]. split; [reflexivity|]. split; [reflexivity|].
  destruct (batches_sequential_abort_on_rejection chunks60 after_rejection Hreach)
    as (_ & _ & Habort).
  assert (Htr : exists later earlier,
             st_trace after_rejection =
             (later ++ EvSettled 50 52 (Thrown "ECONNREFUSED") :: earlier)%list).
  { exists (firstn 3 (st_trace after_rejection)),
           (skipn 4 (st_trace after_rejection)).
    vm_compute. reflexivity. }
  destruct Htr as (later & earlier & Htr).
  exact (proj1 (proj2 (Habort later earlier 50 52 "ECONNREFUSED" Htr))).
Defined.

(** C7 for the directory with [a.md] and [b.unknown]: one Document,
    "Hello world" from [a.md], and a warning for [b.unknown]. *)
Lemma loadDocumentsFromDirectory_isolates_failures_witness :
  readdir two_files "docs" = inr ["a.md"; "b.unknown"]
  /\ exists effs,
       loadDocumentsFromDirectory two_files "docs" = (inr [hello_world], effs)
       /\ In (WarnUnsupported "b.unknown") effs.
Proof.
  assert (Hdir : readdir two_files "docs" = inr ["a.md"; "b.unknown"])
    by reflexivity.
  split; [exact Hdir|].
  destruct (loadDocumentsFromDirectory_isolates_failures two_files "docs" _ Hdir)
    as (documents & effs & Hload & _ & _ & _ & Hlog).
  exists effs. split.
  - rewrite Hload. f_equal.
    assert (Hfst : fst (loadDocumentsFromDirectory two_files "docs")
                   = inr [hello_world]) by reflexivity.
    rewrite Hload in Hfst. exact Hfst.
  - apply (Hlog "b.unknown"); [right; left; reflexivity|reflexivity].
Defined.

(** C5 as stated fails for a directory that holds an empty text file:
    the loader returns a Document, and its content is empty. *)
Lemma empty_file_counterexample :
  exists documents,
    fst (loadDocumentsFromDirectory empty_file "docs") = inr documents
    /\ ~ forall doc, In doc documents -> pageContent doc <> "".
Proof.
  exists [{| pageContent := ""; metadata := {[ "source" := "empty.txt" ]} |}].
  split; [reflexivity|]. intros Hall.
  apply (Hall _ (or_introl eq_refl)). reflexivity.
Qed.

(** C5 as amended, for the directory with [a.md] and [b.unknown]:
    one chunk, "Hello world", with the source [a.md]. *)
Lemma initializeChatbot_documents_and_chunks_witness :
  initializeChatbot mocked "docs" "directory" =
  (Ingesting [hello_world], snd (initializeChatbot mocked "docs" "directory"))
  /\ forall chunk,
       In chunk [hello_world] ->
       pageContent chunk <> "" /\ metadata chunk !! "source" = Some "a.md".
Proof.
  assert (Hinit : initializeChatbot mocked "docs" "directory" =
                  (Ingesting [hello_world],
                   snd (initializeChatbot mocked "docs" "directory")))
    by reflexivity.
  split; [exact Hinit|]. intros chunk Hin.
  destruct (initializeChatbot_documents_and_chunks mocked "docs" _ _ Hinit)
    as (documents & Hload & _ & _ & Hchunks).
  destruct (Hchunks chunk Hin) as (Hne & doc & file & _ & _ & _ & Hsrc).
  split; [exact Hne|].
  destruct Hin as [<-|[]]. reflexivity.
Defined.

(** C6 for the source type ['file']. *)
Lemma initializeChatbot_invalid_source_type_witness :
  "file" <> "directory" /\ "file" <> "url" /\ "file" <> "github"
  /\ initializeChatbot mocked "./docs" "file" =
     (Threw (JsError "Invalid source type"), []).
Proof.
  assert (Hd : "file" <> "directory") by discriminate.
  assert (Hu : "file" <> "url") by discriminate.
  assert (Hg : "file" <> "github") by discriminate.
  split; [exact Hd|]. split; [exact Hu|]. split; [exact Hg|].
  exact (initializeChatbot_invalid_source_type mocked "./docs" "file" Hd Hu Hg).
Defined.

(** C8 for the question "What is X?" with "X is a widget." retrieved. *)
Lemma askQuestion_renders_and_asks_once_witness :
  getRelevantDocuments mocked "What is X?" =
  inr [{| pageContent := "X is a widget."; metadata := ∅ |}]
  /\ ollama_invoke mocked (rendered "X is a widget." "What is X?")
     = inr "A widget."
  /\ fst (askQuestion (createChatbot mocked) "What is X?") = inr "A widget."
  /\ snd (askQuestion (createChatbot mocked) "What is X?") =
     [Retrieve "What is X?";
      InvokeModel (rendered "X is a widget." "What is X?")].
Proof.
  assert (Hret : getRelevantDocuments mocked "What is X?" =
                 inr [{| pageContent := "X is a widget."; metadata := ∅ |}])
    by reflexivity.
  assert (Hllm : ollama_invoke mocked (rendered "X is a widget." "What is X?")
                 = inr "A widget.") by reflexivity.
  split; [exact Hret|]. split; [exact Hllm|].
  destruct (askQuestion_renders_and_asks_once mocked "What is X?")
    as (Hok & _).
  destruct (Hok _ Hret) as (Heffs & Hresp & _).
  split; [exact (Hresp "A widget." Hllm)|exact Heffs].
Defined.
End Witnesses.

(* ================================================================== *)
(** * More on [retryWithBackoff]: budgets, waiting time, what is looked at *)
(* ================================================================== *)

Section RetryMore.
Import Async Backoff.
Context {A E : Type}.
Implicit Types (fn : nat -> A + E) (maxRetries initialDelay : Z).

Lemma sum_rounds initialDelay (j : nat) :
  fold_right Z.add 0%Z
    (map (fun i => (initialDelay * 2 ^ Z.of_nat i)%Z) (seq 1 j)) =
  (initialDelay * (2 ^ (Z.of_nat j + 1) - 2))%Z.
Proof.
  induction j as [|j IH]; [simpl; lia|].
  rewrite seq_S, map_app, fold_right_app. simpl fold_right at 2.
  assert (Hshift : forall (l : list Z) (z : Z),
            fold_right Z.add z l = (fold_right Z.add 0 l + z)%Z).
  { induction l as [|x l IHl]; intros z; simpl; [lia|]. rewrite IHl. lia. }
  rewrite Hshift, IH.
  replace (Z.of_nat (S j) + 1)%Z with (Z.succ (Z.of_nat j + 1)) by lia.
  rewrite Z.pow_succ_r by lia.
  replace (Z.of_nat (1 + j)) with (Z.of_nat j + 1)%Z by lia. lia.
Qed.


(** X2. For whole numbers [maxRetries >= 1] and [initialDelay >= 0]:
    the delays one call asks [setTimeout] for add up to at most
    [initialDelay * (2^maxRetries - 2)], and to exactly that when the
    operation keeps failing (6000 with the defaults); each of them lies
    between [2 * initialDelay] and [initialDelay * 2^(maxRetries - 1)]. *)
Theorem retryWithBackoff_requested_delays fn maxRetries initialDelay :
  (1 <= maxRetries)%Z -> (0 <= initialDelay)%Z ->
  let tr := fst (run (retryWithBackoff maxRetries initialDelay) fn 0) in
  (0 <= requested_delay tr <= initialDelay * (2 ^ maxRetries - 2))%Z
  /\ (forall delay,
        In delay (timeouts tr) ->
        (2 * initialDelay <= delay <= initialDelay * 2 ^ (maxRetries - 1))%Z)
  /\ ((forall k, failed (fn k)) ->
      requested_delay tr = (initialDelay * (2 ^ maxRetries - 2))%Z).
Proof.
  intros Hm Hd tr. subst tr. unfold requested_delay.
  assert (Hmono : forall j : nat, (Z.of_nat j + 1 <= maxRetries)%Z ->
            (0 <= initialDelay * (2 ^ (Z.of_nat j + 1) - 2)
             <= initialDelay * (2 ^ maxRetries - 2))%Z).
  { intros j Hj.
    assert (2 ^ 1 <= 2 ^ (Z.of_nat j + 1))%Z
      by (apply Z.pow_le_mono_r; lia).
    assert (2 ^ (Z.of_nat j + 1) <= 2 ^ maxRetries)%Z
      by (apply Z.pow_le_mono_r; lia).
    change (2 ^ 1)%Z with 2%Z in *. nia. }
  assert (Heach : forall (j : nat) delay,
            (Z.of_nat j + 1 <= maxRetries)%Z ->
            In delay (map (fun i => (initialDelay * 2 ^ Z.of_nat i)%Z)
                          (seq 1 j)) ->
            (2 * initialDelay <= delay
             <= initialDelay * 2 ^ (maxRetries - 1))%Z).
  { intros j delay Hj Hin. apply in_map_iff in Hin as (i & <- & Hi).
    apply in_seq in Hi.
    assert (2 ^ 1 <= 2 ^ Z.of_nat i)%Z by (apply Z.pow_le_mono_r; lia).
    assert (2 ^ Z.of_nat i <= 2 ^ (maxRetries - 1))%Z
      by (apply Z.pow_le_mono_r; lia).
    change (2 ^ 1)%Z with 2%Z in *. nia. }
  destruct (run_retry_shapes fn maxRetries initialDelay)
    as [[Hle Hres]|[(j & a & Hj & Hf & Ha & Hres)|(j & e & Hj & Hf & He & Hres)]];
    [lia| |]; rewrite Hres; simpl fst; rewrite timeouts_rounds, sum_rounds.
  - split; [apply Hmono; lia|]. split; [intros delay; apply Heach; lia|].
    intros Hall. pose proof (Hall j) as Hbad.
    rewrite Ha in Hbad. destruct Hbad.
  - split; [apply Hmono; lia|]. split; [intros delay; apply Heach; lia|].
    intros _. f_equal. f_equal. f_equal. lia.
Qed.

(** X3. A larger budget does not change a call that succeeds: if the
    call returns [a] with [maxRetries = m], it makes the same
    invocations, sets the same timers and returns [a] with every
    [maxRetries >= m]. *)
Theorem retryWithBackoff_larger_budget fn (m m' : Z) initialDelay a :
  (m <= m')%Z ->
  snd (run (retryWithBackoff m initialDelay) fn 0) = Returned a ->
  run (retryWithBackoff m' initialDelay) fn 0 =
  run (retryWithBackoff m initialDelay) fn 0.
Proof.
  intros Hle Hret.
  destruct (run_retry_shapes fn m initialDelay)
    as [[Hm Hres]|[(j & a' & Hj & Hf & Ha & Hres)|(j & e & Hj & Hf & He & Hres)]];
    rewrite Hres in Hret |- *; simpl in Hret; try discriminate.
  apply retryWithBackoff_success; [lia|exact Hf|exact Ha].
Qed.

(** X4. Only the first [maxRetries] invocations of the operation
    matter: two operations that settle alike on these give the same
    run. *)
Theorem retryWithBackoff_first_invocations_only fn fn' maxRetries initialDelay :
  (forall k : nat, (Z.of_nat k < maxRetries)%Z -> fn' k = fn k) ->
  run (retryWithBackoff maxRetries initialDelay) fn' 0 =
  run (retryWithBackoff maxRetries initialDelay) fn 0.
Proof.
  intros Hsame.
  destruct (run_retry_shapes fn maxRetries initialDelay)
    as [[Hm Hres]|[(j & a & Hj & Hf & Ha & Hres)|(j & e & Hj & Hf & He & Hres)]];
    rewrite Hres.
  - unfold retryWithBackoff. rewrite retry_loop_head_false by lia. reflexivity.
  - apply retryWithBackoff_success; [exact Hj| |rewrite Hsame by lia; exact Ha].
    intros k Hk. rewrite Hsame by lia. apply Hf, Hk.
  - apply retryWithBackoff_exhausted; [exact Hj| |rewrite Hsame by lia; exact He].
    intros k Hk. rewrite Hsame by lia. apply Hf, Hk.
Qed.
End RetryMore.

(* ================================================================== *)
(** * More on [loadDocumentsFromDirectory]: what is read, what is logged *)
(* ================================================================== *)

Section LoaderMore.
Import Loader LoaderLog.
Context {Err Dom : Type}.
Variable env : Env Err Dom.
Implicit Types (file directoryPath : string) (documents : list Document).

Local Open Scope string_scope.

(** What one iteration leaves in the log, and the metadata of the
    Document it pushes. *)
Lemma iteration_log directoryPath file documents :
  exists added effs,
    iteration env directoryPath file documents =
    ((documents ++ added)%list, effs)
    /\ files_read effs =
       (if recognized env file then [path_join env directoryPath file] else [])
    /\ warned effs = (if recognized env file then [] else [file])
    /\ errored effs =
       (if recognized env file && negb (reads_and_parses env directoryPath file)
        then [file] else [])
    /\ length added = (if succeeds env directoryPath file then 1 else 0)
    /\ Forall (fun doc =>
                 dom (metadata doc) =
                 if is_html env file
                 then ({[ "source"; "title"; "description" ]} : gset string)
                 else {[ "source" ]}) added.
Proof.
  unfold succeeds, recognized, reads_and_parses, is_html, iteration, try_block.
  set (ext := toLowerCase env (path_extname env file)).
  set (filePath := path_join env directoryPath file).
  destruct ((ext =? ".txt") || (ext =? ".md"))%bool eqn:Htext.
  - assert (Hhtml : (ext =? ".html") = false).
    { apply orb_prop in Htext as [H|H]; apply String.eqb_eq in H; rewrite H;
        reflexivity. }
    rewrite Hhtml. simpl.
    destruct (readFile env filePath) as [error|text].
    + exists [], [ReadFile filePath; ErrorProcessing file error].
      rewrite app_nil_r. repeat split. constructor.
    + eexists [_], _. repeat split. constructor; [|constructor].
      simpl. apply dom_singleton_L.
  - simpl. destruct (ext =? ".html") eqn:Hhtml.
    + destruct (readFile env filePath) as [error|text].
      * exists [], [LogParsing filePath; ReadFile filePath;
                    ErrorProcessing file error].
        rewrite app_nil_r. repeat split. constructor.
      * destruct (cheerio_load env text) as [error|page].
        -- exists [], [LogParsing filePath; ReadFile filePath;
                       ErrorProcessing file error].
           rewrite app_nil_r. repeat split. constructor.
        -- eexists [_], _. repeat split. constructor; [|constructor].
           simpl. rewrite !dom_insert_L, dom_singleton_L. set_solver.
    + exists [], [WarnUnsupported file]. rewrite app_nil_r. repeat split.
      constructor.
Qed.

Lemma for_files_log directoryPath files :
  forall documents,
  exists added effs,
    for_files env directoryPath files documents =
    ((documents ++ added)%list, effs)
    /\ files_read effs =
       map (path_join env directoryPath) (List.filter (recognized env) files)
    /\ warned effs = List.filter (fun file => negb (recognized env file)) files
    /\ errored effs =
       List.filter (fun file =>
                      recognized env file
                      && negb (reads_and_parses env directoryPath file)) files
    /\ length added + length (warned effs) + length (errored effs) =
       length files
    /\ Forall (fun doc =>
                 exists file,
                   In file files
                   /\ metadata doc !! "source" = Some file
                   /\ dom (metadata doc) =
                      if is_html env file
                      then ({[ "source"; "title"; "description" ]} : gset string)
                      else {[ "source" ]}) added.
Proof.
  induction files as [|file files IH]; intros documents.
  - exists [], []. rewrite app_nil_r. repeat split. constructor.
  - cbn [for_files].
    destruct (iteration_log directoryPath file documents)
      as (added1 & effs1 & Hit & Hr1 & Hw1 & He1 & Hlen1 & Hmeta1).
    rewrite Hit.
    destruct (IH (documents ++ added1)%list)
      as (added2 & effs2 & Hfor & Hr2 & Hw2 & He2 & Hlen2 & Hmeta2).
    rewrite Hfor. exists (added1 ++ added2)%list, (effs1 ++ effs2)%list.
    split; [rewrite app_assoc; reflexivity|].
    unfold files_read, warned, errored in *. rewrite !omap_app.
    rewrite Hr1, Hw1, He1, Hr2, Hw2, He2 in *. cbn [List.filter].
    assert (Hsrc : Forall (fun doc => metadata doc !! "source" = Some file)
                     added1).
    { destruct (succeeds env directoryPath file) eqn:Hs.
      - destruct (iteration_succeeds env directoryPath file documents Hs)
          as (doc & effs' & Hit' & Hdoc & _).
        rewrite Hit in Hit'. injection Hit' as Hadd _.
        apply app_inv_head in Hadd. subst added1.
        constructor; [exact Hdoc|constructor].
      - destruct added1; [constructor|simpl in Hlen1; discriminate]. }
    unfold succeeds in Hlen1.
    split; [|split; [|split; [|split]]].
    + destruct (recognized env file); reflexivity.
    + destruct (recognized env file); reflexivity.
    + destruct (recognized env file && negb _)%bool; reflexivity.
    + rewrite !length_app in *.
      destruct (recognized env file), (reads_and_parses env directoryPath file);
        simpl in *; lia.
    + apply Forall_app. split.
      * apply Forall_forall. intros doc Hin.
        rewrite Forall_forall in Hmeta1, Hsrc.
        exists file. split; [left; reflexivity|].
        split; [apply Hsrc, Hin|apply Hmeta1, Hin].
      * eapply Forall_impl; [exact Hmeta2|].
        intros doc (file' & Hin & H1 & H2). exists file'.
        split; [right; exact Hin|]. split; assumption.
Qed.

(** X5. [loadDocumentsFromDirectory] opens the files with a recognized
    extension and no others: the paths it reads are the recognized files
    of the listing, each joined to the directory, once each and in the
    order of the listing. When the listing fails nothing is read. *)
Theorem loadDocumentsFromDirectory_reads_recognized directoryPath :
  files_read (snd (loadDocumentsFromDirectory env directoryPath)) =
  match readdir env directoryPath with
  | inl _ => []
  | inr files =>
      map (path_join env directoryPath) (List.filter (recognized env) files)
  end.
Proof.
  unfold loadDocumentsFromDirectory.
  destruct (readdir env directoryPath) as [error|files]; [reflexivity|].
  destruct (for_files_log directoryPath files []) as (added & effs & Hfor & Hr & _).
  rewrite Hfor. simpl. exact Hr.
Qed.

(** X6. Every listed file has one outcome: a Document, a warning or a
    logged error. The warnings name the files whose extension is not
    recognized, the errors the recognized files that do not read or
    parse, each once and in the order of the listing; Documents,
    warnings and errors add up to the number of files. *)
Theorem loadDocumentsFromDirectory_one_outcome_per_file directoryPath files :
  readdir env directoryPath = inr files ->
  let effs := snd (loadDocumentsFromDirectory env directoryPath) in
  warned effs = List.filter (fun file => negb (recognized env file)) files
  /\ errored effs =
     List.filter (fun file =>
                    recognized env file
                    && negb (reads_and_parses env directoryPath file)) files
  /\ exists documents,
       fst (loadDocumentsFromDirectory env directoryPath) = inr documents
       /\ length documents + length (warned effs) + length (errored effs) =
          length files.
Proof.
  intros Hdir effs. subst effs. unfold loadDocumentsFromDirectory. rewrite Hdir.
  destruct (for_files_log directoryPath files [])
    as (added & effs & Hfor & _ & Hw & He & Hlen & _).
  rewrite Hfor. simpl.
  split; [exact Hw|]. split; [exact He|]. exists added.
  split; [reflexivity|exact Hlen].
Qed.

(** X7. The metadata of a Document the loader returns has the key
    [source], naming a listed file, and beside it [title] and
    [description] when that file is a page; it has no other key. *)
Theorem loadDocumentsFromDirectory_metadata_keys directoryPath documents doc :
  fst (loadDocumentsFromDirectory env directoryPath) = inr documents ->
  In doc documents ->
  exists files file,
    readdir env directoryPath = inr files
    /\ In file files
    /\ metadata doc !! "source" = Some file
    /\ dom (metadata doc) =
       if is_html env file
       then ({[ "source"; "title"; "description" ]} : gset string)
       else {[ "source" ]}.
Proof.
  unfold loadDocumentsFromDirectory. intros Hload Hin.
  destruct (readdir env directoryPath) as [error|files]; [discriminate|].
  destruct (for_files_log directoryPath files [])
    as (added & effs & Hfor & _ & _ & _ & _ & Hmeta).
  rewrite Hfor in Hload. simpl in Hload. injection Hload as <-.
  rewrite Forall_forall in Hmeta.
  destruct (Hmeta doc) as (file & Hfile & Hsrc & Hdom).
  { apply list_elem_of_In. exact Hin. }
  exists files, file. repeat split; assumption.
Qed.
End LoaderMore.

(* ================================================================== *)
(** * More on [initializeVectorStore]: what is written, what is logged *)
(* ================================================================== *)

Section IngestMore.
Import Async Ingest Flow.
Context {Doc A E : Type}.
Implicit Types (docs : list Doc) (ts : list (entry Doc A E))
  (tr new : list (event A E)) (en : entry Doc A E) (s : state Doc A E).

(** The calls made once [n] batches are cut: one for each of the first
    [50 n] documents. *)
Lemma planned_closed docs n :
  planned docs n = imap call_of (take (n * batchSize) docs).
Proof.
  induction n as [|n IH]; [reflexivity|].
  rewrite planned_succ, IH.
  replace (S n * batchSize) with (n * batchSize + batchSize) by lia.
  rewrite <- take_take_drop, imap_app. f_equal.
  unfold slice.
  replace (n * batchSize + batchSize - n * batchSize) with batchSize by lia.
  apply imap_ext. intros j doc Hj. unfold call_of.
  pose proof (lookup_lt_Some _ _ _ Hj) as Hlt.
  rewrite length_take, length_drop in Hlt.
  rewrite length_take. unfold batchSize in *.
  rewrite (Nat.min_l (n * 50) (length docs)) by lia.
  assert (Hdiv : (n * 50 + j) / 50 = n).
  { rewrite Nat.div_add_l by lia. rewrite (Nat.div_small j 50) by lia. lia. }
  rewrite Hdiv. reflexivity.
Qed.

Lemma map_snd_imap {X Y : Type} (l : list Y) :
  forall f : nat -> Y -> X * Y,
    (forall j y, snd (f j y) = y) -> map snd (imap f l) = l.
Proof.
  induction l as [|y l IH]; intros f Hf; [reflexivity|].
  rewrite imap_cons. simpl. rewrite Hf. f_equal. apply IH.
  intros j y'. apply Hf.
Qed.

Lemma expected_progress_closed docs m :
  m = 0 \/ (m - 1) * batchSize < length docs ->
  expected_progress docs m = map (progress_line docs) (seq 0 m).
Proof.
  intros Hm. unfold expected_progress. apply map_ext_in. intros k Hk.
  apply in_seq in Hk. unfold progress_line. rewrite slice_length.
  f_equal. unfold batchSize in *. lia.
Qed.

(** X8. In every state [initializeVectorStore docs] can be in, the
    calls made so far are one for each document of a prefix of [docs],
    in the order of [docs]; the call for [docs[j]] has the index [j] and
    belongs to the batch that starts at [50 * (j div 50)]. Once the
    function has returned the prefix is all of [docs] and every call was
    fulfilled: no document is left out and none is written by two
    calls. *)
Theorem initializeVectorStore_calls docs s :
  reachable docs s ->
  exists m,
    map static (st_tasks s) = imap call_of (take m docs)
    /\ (st_main s = Finished ->
        map e_doc (st_tasks s) = docs
        /\ map e_id (st_tasks s) = seq 0 (length docs)
        /\ forall en, In en (st_tasks s) -> settled_ok en).
Proof.
  intros Hreach. destruct (inv_reachable docs s Hreach) as (n & [Hc Hplan Hcut Hm]).
  exists (n * batchSize). rewrite Hplan, planned_closed. split; [reflexivity|].
  intros Hfin. rewrite Hfin in Hm. simpl in Hm.
  destruct Hm as (Hlen & _ & Hall & _).
  assert (Hstat : map static (st_tasks s) = imap call_of docs).
  { rewrite Hplan, planned_closed, take_ge by lia. reflexivity. }
  assert (Hlength : length (st_tasks s) = length docs).
  { rewrite <- (length_map static), Hstat, length_imap. reflexivity. }
  split; [|split; [|exact Hall]].
  - transitivity (map snd (map static (st_tasks s))).
    { rewrite map_map. reflexivity. }
    rewrite Hstat. apply map_snd_imap. reflexivity.
  - rewrite (core_ids _ _ _ Hc), Hlength. reflexivity.
Qed.
(** X9. The progress lines are a closed form of the number of
    documents: in every state the [k]-th line logged (from 0) reads
    [min (50 (k + 1)) n] out of [n], for [n] documents. While the
    function awaits the batch that starts at [i], [i / 50] lines are
    out; once it has returned, [ceil (n / 50)] lines are out, so the last
    one reads [n] out of [n]. *)
Theorem initializeVectorStore_progress_lines docs s :
  reachable docs s ->
  exists m,
    progress_reports (st_trace s) = map (progress_line docs) (seq 0 m)
    /\ m * batchSize < length docs + batchSize
    /\ (forall i, st_main s = AwaitingAll i ->
          i = m * batchSize /\ i < length docs)
    /\ (st_main s = Finished -> length docs <= m * batchSize).
Proof.
  intros Hreach. destruct (inv_reachable docs s Hreach) as (n & [Hc Hplan Hcut Hm]).
  destruct (st_main s) as [i| |e0]; simpl in Hm.
  - destruct Hm as (Hn & Hi & Hlt & _ & Hprog). exists (n - 1).
    rewrite Hprog. split.
    { apply expected_progress_closed. unfold batchSize in *. lia. }
    split; [unfold batchSize in *; lia|]. split; [|discriminate].
    intros i' [= <-]. split; [exact Hi|exact Hlt].
  - destruct Hm as (Hlen & _ & _ & Hprog). exists n. rewrite Hprog. split.
    { apply expected_progress_closed. exact Hcut. }
    split; [unfold batchSize in *; lia|]. split; [discriminate|].
    intros _. exact Hlen.
  - destruct Hm as (Hn & Hprog & _). exists (n - 1). rewrite Hprog. split.
    { apply expected_progress_closed. unfold batchSize in *. lia. }
    split; [unfold batchSize in *; lia|]. split; discriminate.
Qed.

(** X10. [initializeVectorStore] settles once. After it has returned
    nothing is pending: no write is out and no timer is set. After it
    has thrown it stays thrown, with the same error, whatever the calls
    that are still running do. *)
Theorem initializeVectorStore_settles_once docs s :
  reachable docs s ->
  (st_main s = Finished -> forall a, fire docs a s = None)
  /\ (forall e a s',
        st_main s = Failed e -> fire docs a s = Some s' ->
        st_main s' = Failed e).
Proof.
  intros Hreach. destruct (inv_reachable docs s Hreach) as (n & [Hc Hplan Hcut Hm]).
  split.
  - intros Hfin a. rewrite Hfin in Hm. simpl in Hm.
    destruct Hm as (_ & _ & Hall & _).
    assert (Hnone : forall id,
              match find (fun en => e_id en =? id) (st_tasks s) with
              | Some en => exists o, e_status en = Settled o
              | None => True
              end).
    { intros id. destruct (find _ (st_tasks s)) as [en|] eqn:Hfind; [|exact I].
      apply find_some in Hfind as [Hin _].
      destruct (Hall en Hin) as (o & Ho & _). exists o. exact Ho. }
    destruct a as [id settled|id]; simpl; specialize (Hnone id);
      destruct (find _ (st_tasks s)) as [en|]; try reflexivity;
      destruct Hnone as (o & ->); reflexivity.
  - intros e a s' Hfail Hfire.
    assert (Hres : forall en t, st_main (resume docs en t s) = Failed e).
    { intros en t. unfold resume.
      destruct (advance (e_batch en) (e_id en) t (st_trace s)) as [st tr1].
      destruct st as [|t'|o]; try exact Hfail.
      destruct (pump _ tr1) as [ts2 tr2]. unfold on_settled. rewrite Hfail.
      reflexivity. }
    destruct a as [id settled|id]; simpl in Hfire;
      destruct (find _ (st_tasks s)) as [en|]; try discriminate;
      destruct (e_status en) as [|[o|k|m t|d t]|o]; try discriminate;
      injection Hfire as <-; apply Hres.
Qed.

(** X11. With no documents [initializeVectorStore] returns at once:
    no call is made, no write request is sent and nothing is logged, and
    that is the only state there is. *)
Theorem initializeVectorStore_no_documents s :
  reachable (Doc:=Doc) [] s <->
  s = {| st_main := Finished; st_tasks := []; st_trace := [] |}.
Proof.
  split.
  - intros ([|a acts] & Hexec).
    + injection Hexec as <-. reflexivity.
    + destruct a; discriminate.
  - intros ->. exists []. reflexivity.
Qed.

(** ** The limiter *)

Lemma active_app ts1 ts2 : active (ts1 ++ ts2) = active ts1 + active ts2.
Proof.
  induction ts1 as [|en ts1 IH]; [reflexivity|].
  simpl app. rewrite !active_cons, IH. lia.
Qed.

Lemma active_none ts :
  (forall en, In en ts -> is_running (e_status en) = false) -> active ts = 0.
Proof.
  induction ts as [|en ts IH]; intros H; [reflexivity|].
  rewrite active_cons, (H en (or_introl eq_refl)), IH; [reflexivity|].
  intros en' Hin. apply H. right. exact Hin.
Qed.

Lemma active_set_status ts en st :
  NoDup (map e_id ts) -> In en ts ->
  active (set_status (e_id en) st ts)
  + (if is_running (e_status en) then 1 else 0) =
  active ts + (if is_running st then 1 else 0).
Proof.
  induction ts as [|en0 ts IH]; intros Hnd Hin; [destruct Hin|].
  simpl in Hnd. apply NoDup_cons in Hnd as [Hfresh Hnd].
  cbn [set_status map]. fold (set_status (e_id en) st ts).
  destruct (Nat.eqb_spec (e_id en0) (e_id en)) as [Heq|Hne].
  - assert (en0 = en) as ->.
    { destruct Hin as [->|Hin]; [reflexivity|]. exfalso. apply Hfresh.
      rewrite Heq. apply list_elem_of_In, in_map, Hin. }
    rewrite set_status_other.
    + rewrite !active_cons. cbn [with_status e_status]. lia.
    + intros en1 Hin1 Heq1. apply Hfresh. rewrite <- Heq1.
      apply list_elem_of_In, in_map, Hin1.
  - destruct Hin as [->|Hin]; [destruct (Hne eq_refl)|].
    rewrite !active_cons. specialize (IH Hnd Hin). lia.
Qed.

(** p-limit starts a call only while fewer than [concurrency] run. *)
Lemma start_queued_ceiling ts :
  forall before tr ts' tr',
    before + active ts <= concurrency ->
    start_queued (before + active ts) ts tr = (ts', tr') ->
    before + active ts' <= concurrency.
Proof.
  induction ts as [|en ts IH]; intros before tr ts' tr' Hle Hstart.
  - simpl in Hstart. injection Hstart as <- <-. exact Hle.
  - simpl in Hstart. rewrite active_cons in Hstart, Hle.
    destruct (e_status en) as [|t|o] eqn:Hst; cbn [is_running] in Hstart, Hle.
    + rewrite Nat.add_0_l in Hstart.
      destruct (Nat.ltb_spec (before + active ts) concurrency) as [Hlt|Hge].
      * destruct (retryWithBackoff_default_head (A:=A) (E:=E)) as (k0 & Hk0 & _).
        rewrite Hk0 in Hstart. cbn [advance is_running] in Hstart.
        change (S (before + active ts)) with (S before + active ts) in Hstart.
        destruct (start_queued (S before + active ts) ts
                    (EvIssue (e_batch en) (e_id en) :: tr))
          as [rest' tr2] eqn:Hrest.
        injection Hstart as <- <-.
        rewrite active_cons. cbn [with_status e_status is_running].
        pose proof (IH (S before) _ _ _ ltac:(simpl; lia) Hrest). lia.
      * injection Hstart as <- <-. rewrite active_cons, Hst.
        cbn [is_running]. lia.
    + replace (before + (1 + active ts)) with (S before + active ts)
        in Hstart by lia.
      destruct (start_queued (S before + active ts) ts tr)
        as [rest' tr1] eqn:Hrest.
      injection Hstart as <- <-. rewrite active_cons, Hst. cbn [is_running].
      pose proof (IH (S before) _ _ _ ltac:(simpl; lia) Hrest). lia.
    + rewrite Nat.add_0_l in Hstart.
      destruct (start_queued (before + active ts) ts tr)
        as [rest' tr1] eqn:Hrest.
      injection Hstart as <- <-. rewrite active_cons, Hst. cbn [is_running].
      pose proof (IH before _ _ _ ltac:(lia) Hrest). lia.
Qed.

Lemma pump_ceiling ts tr ts' tr' :
  active ts <= concurrency -> pump ts tr = (ts', tr') ->
  active ts' <= concurrency.
Proof.
  unfold pump. intros Hle Hp.
  apply (start_queued_ceiling ts 0 tr ts' tr' Hle Hp).
Qed.

Lemma started_suspended ts ts' :
  Forall2 started ts ts' ->
  (forall en t, In en ts -> e_status en = Running t -> suspended t) ->
  forall en' t, In en' ts' -> e_status en' = Running t -> suspended t.
Proof.
  intros Hrel Hsus en' t Hin' Hrun.
  destruct (Forall2_in_r _ _ _ _ Hrel Hin') as (en & Hin & [->|(_ & k & -> & _)]).
  - apply (Hsus en t Hin Hrun).
  - simpl in Hrun. injection Hrun as <-. exact I.
Qed.

Lemma set_status_in id st ts en :
  In en ts ->
  In (if e_id en =? id then with_status st en else en) (set_status id st ts).
Proof.
  intros Hin. unfold set_status.
  apply (in_map (fun en => if e_id en =? id then with_status st en else en)).
  exact Hin.
Qed.

Lemma set_status_inv id st ts en' :
  In en' (set_status id st ts) ->
  In en' ts \/ exists en, In en ts /\ e_id en = id /\ en' = with_status st en.
Proof.
  unfold set_status. intros Hin. apply in_map_iff in Hin as (en & <- & Hin).
  destruct (Nat.eqb_spec (e_id en) id) as [Heq|_]; [|left; exact Hin].
  right. exists en. repeat split; assumption.
Qed.

(** While the batch at [i] is awaited and not all of its calls are
    fulfilled, one of them has not settled. *)
Lemma unsettled_in_batch docs n s i :
  inv docs n s -> st_main s = AwaitingAll i ->
  batch_fulfilled i (st_tasks s) = false ->
  exists en, In en (st_tasks s) /\ e_batch en = i
             /\ is_settled (e_status en) = false.
Proof.
  intros [Hc _ _ Hm] Hmain Hall. rewrite Hmain in Hm. simpl in Hm.
  destruct Hm as (_ & _ & _ & Hnorej & _).
  unfold batch_fulfilled in Hall. apply forallb_false in Hall as (en & Hin & Hf).
  exists en. split; [exact Hin|].
  destruct (Nat.eqb_spec (e_batch en) i) as [Heq|Hne]; [|discriminate].
  split; [exact Heq|].
  destruct (e_status en) as [|t|o] eqn:Hst; try reflexivity.
  pose proof (core_s2e _ _ _ Hc en o Hin Hst) as Hev.
  destruct o as [a|e|]; try discriminate.
  destruct (Hnorej _ Hev I).
Qed.

Lemma flow_loop_head docs i ts tr :
  active ts <= concurrency ->
  ((exists en, In en ts /\ e_status en = Queued) -> concurrency <= active ts) ->
  (forall en t, In en ts -> e_status en = Running t -> suspended t) ->
  flow (loop_head docs i ts tr).
Proof.
  intros Hceil Hqueue Hsus. unfold loop_head.
  destruct (Nat.ltb_spec i (length docs)) as [Hlt|Hge].
  - set (batch := slice docs i (i + batchSize)).
    destruct (pump (ts ++ new_entries i batch) tr) as [ts1 tr1] eqn:Hp.
    pose proof (pump_started _ _ _ _ Hp) as Hrel.
    split; cbn [st_main st_tasks st_trace].
    + refine (pump_ceiling _ _ _ _ _ Hp).
      rewrite active_app, (active_none (new_entries i batch)); [lia|].
      intros en Hin. apply new_entries_in in Hin as [_ ->]. reflexivity.
    + apply (pump_no_starved _ _ _ _ Hp).
    + apply (started_suspended _ _ Hrel). intros en t Hin Hrun.
      apply in_app_or in Hin as [Hin|Hin]; [apply (Hsus en t Hin Hrun)|].
      apply new_entries_in in Hin as [_ Hq]. rewrite Hq in Hrun. discriminate.
    + intros i' [= <-].
      assert (Hne : exists doc, batch !! 0 = Some doc).
      { destruct batch as [|doc batch'] eqn:Hb; [|exists doc; reflexivity].
        exfalso. assert (Hl : length batch = 0) by (rewrite Hb; reflexivity).
        unfold batch in Hl. rewrite slice_length in Hl.
        unfold batchSize in Hl. lia. }
      destruct Hne as (doc & Hdoc).
      assert (Hin : In {| e_batch := i; e_id := i + 0; e_doc := doc;
                          e_status := Queued |}
                       (ts ++ new_entries (A:=A) (E:=E) i batch)).
      { apply in_or_app. right. apply list_elem_of_In. unfold new_entries.
        apply (elem_of_lookup_imap_2
                 (fun j doc => {| e_batch := i; e_id := i + j; e_doc := doc;
                                  e_status := Queued |}) batch doc 0 Hdoc). }
      destruct (Forall2_in_l _ _ _ _ Hrel Hin) as (en' & Hin' & Hst).
      exists en'. split; [exact Hin'|].
      destruct (started_settled _ _ Hst) as [Hb Hs]. split; [exact Hb|].
      rewrite Hs. reflexivity.
  - split; cbn [st_main st_tasks st_trace]; try assumption. discriminate.
Qed.

Lemma flow_init docs : flow (initializeVectorStore (A:=A) (E:=E) docs).
Proof.
  unfold initializeVectorStore. apply flow_loop_head.
  - unfold active, concurrency. simpl. lia.
  - intros (en & [] & _).
  - intros en t [].
Qed.

Lemma flow_resume docs n s en t t0 :
  inv docs n s -> flow s -> In en (st_tasks s) -> e_status en = Running t0 ->
  forall n' s', resume docs en t s = s' -> inv docs n' s' -> flow s'.
Proof.
  intros Hinv [Hceil Hqueue Hsus Hmain] Hin Hrun n' s' Hres Hinv'.
  pose proof (inv_core _ _ _ Hinv) as Hc.
  assert (Hnd : NoDup (map e_id (st_tasks s))).
  { rewrite (core_ids _ _ _ Hc). apply NoDup_seq. }
  destruct s as [main ts tr]. cbn [st_main st_tasks st_trace] in *.
  unfold resume in Hres. cbn [st_main st_tasks st_trace] in Hres.
  pose proof (active_set_status ts en) as Hact.
  rewrite Hrun in Hact. cbn [is_running] in Hact.
  destruct (advance_spec (e_batch en) (e_id en) t tr)
    as (logs & Hlogs & [(o & Hadv)|[(k & Hadv)|(d & k & Hadv)]]);
    rewrite Hadv in Hres.
  - (* the call settles *)
    specialize (Hact (Settled o) Hnd Hin). cbn [is_running] in Hact.
    set (ts1 := set_status (e_id en) (Settled o) ts) in *.
    destruct (pump ts1 _) as [ts2 tr2] eqn:Hp.
    pose proof (pump_started _ _ _ _ Hp) as Hrel.
    assert (Hceil2 : active ts2 <= concurrency).
    { refine (pump_ceiling _ _ _ _ _ Hp). lia. }
    pose proof (pump_no_starved _ _ _ _ Hp) as Hqueue2.
    assert (Hsus2 : forall en2 t2, In en2 ts2 -> e_status en2 = Running t2 ->
                                   suspended t2).
    { apply (started_suspended _ _ Hrel). intros en1 t1 Hin1 Hrun1.
      apply set_status_inv in Hin1 as [Hin1|(en0 & _ & _ & ->)];
        [apply (Hsus en1 t1 Hin1 Hrun1)|discriminate]. }
    unfold on_settled in Hres. destruct main as [i| |e0].
    + assert (Hbi : (e_batch en =? i) = true).
      { destruct Hinv as [Hc0 _ _ Hm]. simpl in Hm, Hc0.
        destruct Hm as (_ & Hi & _).
        rewrite (unsettled_cur _ ts tr en Hc0 Hin);
          [rewrite <- Hi; apply Nat.eqb_refl|].
        intros o'. rewrite Hrun. discriminate. }
      rewrite Hbi in Hres.
      assert (Hgo : forall tr3 s2,
                inv docs n' s2 ->
                (if batch_fulfilled i ts2
                 then loop_head docs (i + batchSize) ts2 tr3
                 else {| st_main := AwaitingAll i; st_tasks := ts2;
                         st_trace := tr2 |}) = s2 -> flow s2).
      { intros tr3 s2 Hinv2 Hs2. destruct (batch_fulfilled i ts2) eqn:Hall.
        - rewrite <- Hs2. apply flow_loop_head; assumption.
        - rewrite <- Hs2 in Hinv2 |- *.
          split; cbn [st_main st_tasks st_trace]; try assumption.
          intros i' [= <-].
          apply (unsettled_in_batch docs n' _ i Hinv2 eq_refl Hall). }
      destruct o as [a|e|].
      * apply (Hgo _ s' Hinv' Hres).
      * subst s'. split; cbn [st_main st_tasks st_trace]; try assumption.
        discriminate.
      * apply (Hgo _ s' Hinv' Hres).
    + subst s'. split; cbn [st_main st_tasks st_trace]; try assumption.
      discriminate.
    + subst s'. split; cbn [st_main st_tasks st_trace]; try assumption.
      discriminate.
  - (* the next write request is out *)
    specialize (Hact (Running (AwaitFn k)) Hnd Hin). cbn [is_running] in Hact.
    subst s'. split; cbn [st_main st_tasks st_trace].
    + lia.
    + intros (en1 & Hin1 & Hq).
      apply set_status_inv in Hin1 as [Hin1|(en0 & _ & _ & ->)]; [|discriminate].
      pose proof (Hqueue (ex_intro _ en1 (conj Hin1 Hq))). lia.
    + intros en1 t1 Hin1 Hrun1.
      apply set_status_inv in Hin1 as [Hin1|(en0 & _ & _ & ->)];
        [apply (Hsus en1 t1 Hin1 Hrun1)|].
      simpl in Hrun1. injection Hrun1 as <-. exact I.
    + intros i Hi. destruct (Hmain i Hi) as (en0 & Hin0 & Hb0 & Hs0).
      pose proof (set_status_in (e_id en) (Running (AwaitFn k)) ts en0 Hin0) as Hin1.
      eexists. split; [exact Hin1|].
      destruct (e_id en0 =? e_id en); split; try assumption; reflexivity.
  - (* the back-off timer is set *)
    specialize (Hact (Running (AwaitTimeout d k)) Hnd Hin).
    cbn [is_running] in Hact.
    subst s'. split; cbn [st_main st_tasks st_trace].
    + lia.
    + intros (en1 & Hin1 & Hq).
      apply set_status_inv in Hin1 as [Hin1|(en0 & _ & _ & ->)]; [|discriminate].
      pose proof (Hqueue (ex_intro _ en1 (conj Hin1 Hq))). lia.
    + intros en1 t1 Hin1 Hrun1.
      apply set_status_inv in Hin1 as [Hin1|(en0 & _ & _ & ->)];
        [apply (Hsus en1 t1 Hin1 Hrun1)|].
      simpl in Hrun1. injection Hrun1 as <-. exact I.
    + intros i Hi. destruct (Hmain i Hi) as (en0 & Hin0 & Hb0 & Hs0).
      pose proof (set_status_in (e_id en) (Running (AwaitTimeout d k)) ts en0 Hin0)
        as Hin1.
      eexists. split; [exact Hin1|].
      destruct (e_id en0 =? e_id en); split; try assumption; reflexivity.
Qed.

Lemma flow_fire docs n s a s' :
  inv docs n s -> flow s -> fire docs a s = Some s' -> flow s'.
Proof.
  intros Hinv Hflow Hfire.
  destruct (inv_fire docs n s a s' Hinv Hfire) as (n' & Hinv').
  destruct a as [id settled|id]; simpl in Hfire;
    destruct (find _ (st_tasks s)) as [en|] eqn:Hfind; try discriminate;
    apply find_some in Hfind as [Hin _];
    destruct (e_status en) as [|[o|k|m t|d t]|o] eqn:Hst; try discriminate;
    injection Hfire as Hres;
    apply (flow_resume docs n s en _ _ Hinv Hflow Hin Hst n' s' Hres Hinv').
Qed.

Lemma flow_reachable docs s : reachable docs s -> flow s.
Proof.
  intros (acts & Hexec).
  destruct (inv_init (A:=A) (E:=E) docs) as (n0 & Hinv0).
  pose proof (flow_init docs) as Hflow0.
  revert Hexec Hinv0 Hflow0. generalize (initializeVectorStore (A:=A) (E:=E) docs).
  revert n0. induction acts as [|a acts IH]; intros n0 s0 Hexec Hinv0 Hflow0;
    simpl in Hexec.
  - injection Hexec as <-. exact Hflow0.
  - destruct (fire docs a s0) as [s1|] eqn:Hfire; [|discriminate].
    destruct (inv_fire docs n0 s0 a s1 Hinv0 Hfire) as (n1 & Hinv1).
    apply (IH n1 s1 Hexec Hinv1).
    apply (flow_fire docs n0 s0 a s1 Hinv0 Hflow0 Hfire).
Qed.

(** X12. p-limit's ceiling holds in every state
    [initializeVectorStore] can be in, whatever fails and in whatever
    order writes settle and timers fire: at most five calls are under
    way (waiting for a write or for a back-off timer), and a call waits
    in the queue only while exactly five are under way. *)
Theorem initializeVectorStore_concurrency docs s :
  reachable docs s ->
  active (st_tasks s) <= concurrency
  /\ ((exists en, In en (st_tasks s) /\ e_status en = Queued) ->
      active (st_tasks s) = concurrency).
Proof.
  intros Hreach. destruct (flow_reachable docs s Hreach) as [Hceil Hqueue _ _].
  split; [exact Hceil|]. intros Hq. specialize (Hqueue Hq). lia.
Qed.

(** X13. [initializeVectorStore] cannot hang by itself: in every
    state in which it is still awaiting a batch, a call of that batch
    has not settled and some call is waiting for a write to settle or
    for a timer to fire, so the run goes on as soon as the outside
    answers. *)
Theorem initializeVectorStore_never_stuck docs s i :
  reachable docs s -> st_main s = AwaitingAll i ->
  exists en,
    In en (st_tasks s)
    /\ ((exists k, e_status en = Running (AwaitFn k)
                   /\ forall settled,
                        fire docs (WriteSettles (e_id en) settled) s =
                        Some (resume docs en (k settled) s))
        \/ (exists d k, e_status en = Running (AwaitTimeout d k)
                        /\ fire docs (TimerFires (e_id en)) s =
                           Some (resume docs en k s))).
Proof.
  intros Hreach Hawait.
  destruct (flow_reachable docs s Hreach) as [Hceil Hqueue Hsus Hmain].
  destruct (inv_reachable docs s Hreach) as (n & [Hc _ _ _]).
  destruct (Hmain i Hawait) as (en & Hin & _ & Hns).
  assert (Hrun : exists en1 t1, In en1 (st_tasks s)
                                /\ e_status en1 = Running t1).
  { destruct (e_status en) as [|t|o] eqn:Hst;
      [|exists en, t; split; assumption|discriminate].
    pose proof (Hqueue (ex_intro _ en (conj Hin Hst))) as Hact.
    unfold active in Hact.
    destruct (filter (fun en0 => is_running (e_status en0) = true) (st_tasks s))
      as [|en1 rest] eqn:Hf; [unfold concurrency in Hact; simpl in Hact; lia|].
    assert (Hin1 : en1 ∈ filter (fun en0 => is_running (e_status en0) = true)
                           (st_tasks s)) by (rewrite Hf; left).
    apply list_elem_of_filter in Hin1 as [Hr Hin1].
    destruct (e_status en1) as [|t1|o1] eqn:Hst1; try discriminate.
    exists en1, t1. split; [apply list_elem_of_In, Hin1|exact Hst1]. }
  destruct Hrun as (en1 & t1 & Hin1 & Hst1).
  pose proof (Hsus en1 t1 Hin1 Hst1) as Hsusp.
  assert (Hfind : find (fun en' => e_id en' =? e_id en1) (st_tasks s) = Some en1).
  { apply find_by_id; [|exact Hin1]. rewrite (core_ids _ _ _ Hc). apply NoDup_seq. }
  exists en1. split; [exact Hin1|].
  destruct t1 as [o|k|m t|d t]; try destruct Hsusp.
  - left. exists k. split; [exact Hst1|]. intros settled. simpl.
    rewrite Hfind, Hst1. reflexivity.
  - right. exists d, t. split; [exact Hst1|]. simpl.
    rewrite Hfind, Hst1. reflexivity.
Qed.
End IngestMore.

(* ================================================================== *)
(** * The write budget of [initializeVectorStore] *)
(* ================================================================== *)

Section IngestBudget.
Import Async Ingest Flow.
Context {Doc A E : Type}.
Implicit Types (docs : list Doc) (ts : list (entry Doc A E))
  (tr new : list (event A E)) (en : entry Doc A E) (s : state Doc A E).

Lemma attempts_left_retry_loop maxRetries initialDelay :
  forall (n : nat) (retries : Z),
    Z.to_nat (maxRetries - retries) = n ->
    attempts_left n (retry_loop (A:=A) (E:=E) maxRetries initialDelay retries).
Proof.
  induction n as [|n IH]; intros retries Hn.
  - rewrite retry_loop_head_false by lia. exact I.
  - rewrite retry_loop_head_true by lia. cbn [attempts_left].
    intros [a|error]; [exact I|].
    destruct (Z.eqb_spec (retries + 1) maxRetries) as [Heq|Hne].
    + cbn [attempts_left]. lia.
    + cbn [attempts_left]. apply IH. lia.
Qed.

Lemma attempts_eq : attempts = 3.
Proof. reflexivity. Qed.

Lemma default_budget :
  exists k,
    retryWithBackoff_default (A:=A) (E:=E) = AwaitFn k
    /\ forall settled, attempts_left (attempts - 1) (k settled).
Proof.
  pose proof (attempts_left_retry_loop DEFAULT_MAX_RETRIES
                DEFAULT_INITIAL_DELAY attempts 0%Z eq_refl) as H.
  destruct (retryWithBackoff_default_head (A:=A) (E:=E)) as (k & Hk & _).
  exists k. split; [exact Hk|].
  unfold retryWithBackoff_default, retryWithBackoff in Hk. rewrite Hk in H.
  exact H.
Qed.

Lemma issues_cons id (ev : event A E) tr :
  issues id (ev :: tr) =
  (match ev with
   | EvIssue _ k => if k =? id then 1 else 0
   | _ => 0
   end) + issues id tr.
Proof.
  unfold issues. simpl. destruct ev as [b k|b k m|b k d|b k o|p t];
    try reflexivity.
  destruct (k =? id); reflexivity.
Qed.

(** What running a call up to its next suspension adds to the write
    requests, and what it leaves of the budget. *)
Lemma advance_budget i id (t : task A E) :
  forall n tr,
    attempts_left n t ->
    (forall id', id' <> id ->
       issues id' (snd (advance i id t tr)) = issues id' tr)
    /\ match fst (advance i id t tr) with
       | Settled (Thrown _) =>
           n = 0 /\ issues id (snd (advance i id t tr)) = issues id tr
       | Settled _ => issues id (snd (advance i id t tr)) = issues id tr
       | Running (AwaitFn k) =>
           issues id (snd (advance i id t tr)) = S (issues id tr)
           /\ exists n', n = S n' /\ forall settled, attempts_left n' (k settled)
       | Running (AwaitTimeout _ k) =>
           issues id (snd (advance i id t tr)) = issues id tr
           /\ attempts_left n k
       | _ => False
       end.
Proof.
  induction t as [o|k _|m t IH|d t _]; intros n tr Hleft; cbn [advance fst snd].
  - split; [intros id' _; rewrite issues_cons; reflexivity|].
    destruct o as [a|e|]; cbn [attempts_left] in Hleft;
      rewrite issues_cons; auto.
  - split.
    + intros id' Hne. rewrite issues_cons.
      destruct (Nat.eqb_spec id id') as [Heq|_]; [congruence|reflexivity].
    + rewrite issues_cons, Nat.eqb_refl. split; [reflexivity|].
      cbn [attempts_left] in Hleft. destruct n as [|n']; [destruct Hleft|].
      exists n'. split; [reflexivity|exact Hleft].
  - cbn [attempts_left] in Hleft.
    destruct (IH n (EvRetryLog i id m :: tr) Hleft) as [Hother Hself].
    rewrite issues_cons in Hself. split.
    + intros id' Hne. rewrite (Hother id' Hne), issues_cons. reflexivity.
    + destruct (fst (advance i id t (EvRetryLog i id m :: tr)))
        as [|[o|k|m' t'|d t']|[a|e|]]; exact Hself.
  - split; [intros id' _; rewrite issues_cons; reflexivity|].
    rewrite issues_cons. split; [reflexivity|exact Hleft].
Qed.

(** p-limit starts a queued call with its first write request, and
    sends nothing else. *)
Lemma start_queued_budget ts :
  forall running tr ts' tr',
    NoDup (map e_id ts) ->
    start_queued running ts tr = (ts', tr') ->
    (forall id, (forall en, In en ts -> e_id en <> id) ->
       issues id tr' = issues id tr)
    /\ (forall en', In en' ts' ->
          exists en, In en ts /\ e_id en' = e_id en
            /\ (within_budget (issues (e_id en) tr) (e_status en) ->
                within_budget (issues (e_id en) tr') (e_status en'))).
Proof.
  induction ts as [|en ts IH]; intros running tr ts' tr' Hnd Hstart.
  - simpl in Hstart. injection Hstart as <- <-. split; [reflexivity|intros en' []].
  - simpl in Hnd. apply NoDup_cons in Hnd as [Hfresh Hnd].
    assert (Hhead : forall en0, In en0 ts -> e_id en0 <> e_id en).
    { intros en0 Hin0 Heq. apply Hfresh. rewrite <- Heq.
      apply list_elem_of_In, in_map, Hin0. }
    simpl in Hstart. destruct (e_status en) as [|t|o] eqn:Hst.
    + destruct (running <? concurrency).
      * destruct default_budget as (k0 & Hk0 & Hleft). rewrite Hk0 in Hstart.
        cbn [advance is_running] in Hstart.
        destruct (start_queued (S running) ts
                    (EvIssue (e_batch en) (e_id en) :: tr))
          as [rest' tr2] eqn:Hrest.
        injection Hstart as <- <-.
        destruct (IH _ _ _ _ Hnd Hrest) as [Hother Hcalls].
        assert (Hself : issues (e_id en) tr2 = S (issues (e_id en) tr)).
        { rewrite (Hother _ Hhead), issues_cons, Nat.eqb_refl. reflexivity. }
        split.
        -- intros id Hid. rewrite Hother.
           ++ rewrite issues_cons.
              destruct (Nat.eqb_spec (e_id en) id) as [Heq|_]; [|reflexivity].
              destruct (Hid en (or_introl eq_refl) Heq).
           ++ intros en0 Hin0. apply Hid. right. exact Hin0.
        -- intros en' [<-|Hin'].
           ++ exists en. split; [left; reflexivity|]. split; [reflexivity|].
              rewrite Hst, Hself. cbn [with_status e_status within_budget].
              intros ->. split; [rewrite attempts_eq; lia|exact Hleft].
           ++ destruct (Hcalls en' Hin') as (en0 & Hin0 & Hid & Hwb).
              exists en0. split; [right; exact Hin0|]. split; [exact Hid|].
              rewrite issues_cons in Hwb.
              destruct (Nat.eqb_spec (e_id en) (e_id en0)) as [Heq|_];
                [destruct (Hhead en0 Hin0 (eq_sym Heq))|exact Hwb].
      * injection Hstart as <- <-. split; [reflexivity|].
        intros en' Hin'. exists en'. repeat split; auto.
    + destruct (start_queued running ts tr) as [rest' tr1] eqn:Hrest.
      injection Hstart as <- <-.
      destruct (IH _ _ _ _ Hnd Hrest) as [Hother Hcalls]. split.
      * intros id Hid. apply Hother. intros en0 Hin0. apply Hid. right. exact Hin0.
      * intros en' [<-|Hin'].
        -- exists en. split; [left; reflexivity|]. split; [reflexivity|].
           rewrite (Hother _ Hhead). auto.
        -- destruct (Hcalls en' Hin') as (en0 & Hin0 & Hid & Hwb).
           exists en0. split; [right; exact Hin0|]. split; assumption.
    + destruct (start_queued running ts tr) as [rest' tr1] eqn:Hrest.
      injection Hstart as <- <-.
      destruct (IH _ _ _ _ Hnd Hrest) as [Hother Hcalls]. split.
      * intros id Hid. apply Hother. intros en0 Hin0. apply Hid. right. exact Hin0.
      * intros en' [<-|Hin'].
        -- exists en. split; [left; reflexivity|]. split; [reflexivity|].
           rewrite (Hother _ Hhead). auto.
        -- destruct (Hcalls en' Hin') as (en0 & Hin0 & Hid & Hwb).
           exists en0. split; [right; exact Hin0|]. split; assumption.
Qed.

Lemma started_ids ts ts' :
  Forall2 started ts ts' -> map e_id ts' = map e_id ts.
Proof.
  intros Hrel. symmetry. apply (Forall2_map_eq _ _ _ _ _ Hrel).
  intros en en' [->|(_ & k & -> & _)]; reflexivity.
Qed.

Lemma pump_budget ts tr ts' tr' :
  NoDup (map e_id ts) -> budget ts tr -> pump ts tr = (ts', tr') ->
  budget ts' tr'.
Proof.
  intros Hnd [Hcalls Hfresh] Hp.
  pose proof (started_ids _ _ (pump_started _ _ _ _ Hp)) as Hids.
  unfold pump in Hp.
  destruct (start_queued_budget ts _ _ _ _ Hnd Hp) as [Hother Hnew]. split.
  - intros en' Hin'. destruct (Hnew en' Hin') as (en & Hin & Hid & Hwb).
    rewrite Hid. apply Hwb, Hcalls, Hin.
  - intros id Hid.
    assert (Hid0 : forall en, In en ts -> e_id en <> id).
    { intros en Hin Heq.
      assert (Hin' : In id (map e_id ts')).
      { rewrite Hids, <- Heq. apply in_map, Hin. }
      apply in_map_iff in Hin' as (en' & Heq' & Hin'). apply (Hid en' Hin' Heq'). }
    rewrite (Hother id Hid0). apply Hfresh, Hid0.
Qed.

Lemma budget_progress ts tr p t :
  budget ts tr -> budget ts (EvProgress p t :: tr).
Proof.
  intros [Hcalls Hfresh]. split.
  - intros en Hin. rewrite issues_cons. apply Hcalls, Hin.
  - intros id Hid. rewrite issues_cons. apply Hfresh, Hid.
Qed.

Lemma budget_new_batch ts tr i (batch : list Doc) :
  NoDup (map e_id (ts ++ new_entries (A:=A) (E:=E) i batch)) ->
  budget ts tr -> budget (ts ++ new_entries i batch) tr.
Proof.
  intros Hnd [Hcalls Hfresh]. split.
  - intros en Hin. apply in_app_or in Hin as [Hin|Hin]; [apply Hcalls, Hin|].
    pose proof (new_entries_in _ _ _ Hin) as [_ Hq]. rewrite Hq.
    cbn [within_budget]. apply Hfresh. intros en0 Hin0 Heq.
    rewrite map_app in Hnd. apply NoDup_app in Hnd as (_ & Hdisj & _).
    apply (Hdisj (e_id en0)).
    + apply list_elem_of_In, in_map, Hin0.
    + rewrite Heq. apply list_elem_of_In, in_map, Hin.
  - intros id Hid. apply Hfresh. intros en Hin. apply Hid, in_or_app.
    left. exact Hin.
Qed.

Lemma budget_loop_head docs n i ts tr :
  inv docs n (loop_head docs i ts tr) -> budget ts tr ->
  budget (st_tasks (loop_head docs i ts tr)) (st_trace (loop_head docs i ts tr)).
Proof.
  unfold loop_head. destruct (i <? length docs); [|intros _ H; exact H].
  destruct (pump _ tr) as [ts1 tr1] eqn:Hp. intros [Hc _ _ _] Hb.
  cbn [st_tasks st_trace] in *.
  assert (Hnd : NoDup (map e_id (ts ++ new_entries (A:=A) (E:=E) i
                                   (slice docs i (i + batchSize))))).
  { rewrite <- (started_ids _ _ (pump_started _ _ _ _ Hp)).
    rewrite (core_ids _ _ _ Hc). apply NoDup_seq. }
  apply (pump_budget _ _ _ _ Hnd (budget_new_batch _ _ _ _ Hnd Hb) Hp).
Qed.

Lemma set_status_split id st ts en' :
  In en' (set_status id st ts) ->
  (In en' ts /\ e_id en' <> id)
  \/ exists en, In en ts /\ e_id en = id /\ en' = with_status st en.
Proof.
  unfold set_status. intros Hin. apply in_map_iff in Hin as (en & <- & Hin).
  destruct (Nat.eqb_spec (e_id en) id) as [Heq|Hne].
  - right. exists en. repeat split; assumption.
  - left. split; assumption.
Qed.

(** A call that goes on stays within its budget, and spends none of
    the others'. *)
Lemma budget_step ts tr en t t0 :
  NoDup (map e_id ts) -> budget ts tr ->
  In en ts -> e_status en = Running t0 ->
  1 <= issues (e_id en) tr <= attempts ->
  attempts_left (attempts - issues (e_id en) tr) t ->
  budget (set_status (e_id en) (fst (advance (e_batch en) (e_id en) t tr)) ts)
         (snd (advance (e_batch en) (e_id en) t tr)).
Proof.
  intros Hnd [Hcalls Hfresh] Hin Hrun Hc Hleft.
  destruct (advance_budget (e_batch en) (e_id en) t _ tr Hleft) as [Hother Hself].
  destruct (advance (e_batch en) (e_id en) t tr) as [st tr1].
  cbn [fst snd] in *. split.
  - intros en' Hin'.
    apply set_status_split in Hin' as [[Hin' Hne]|(en0 & Hin0 & Hid & ->)].
    + rewrite (Hother _ Hne). apply Hcalls, Hin'.
    + assert (en0 = en) as ->.
      { apply (map_key_unique e_id ts Hnd); assumption. }
      cbn [with_status e_id e_status].
      destruct st as [|[o|k|m t'|d k]|[a|e|]]; try (exfalso; exact Hself);
        cbn [within_budget].
      * destruct Hself as [-> (n' & Hn' & Hk)].
        split; [lia|]. intros settled.
        replace (attempts - S (issues (e_id en) tr)) with n' by lia. apply Hk.
      * destruct Hself as [-> Hk]. split; assumption.
      * rewrite Hself. exact Hc.
      * destruct Hself as [Hn ->]. lia.
      * rewrite Hself. lia.
  - intros id Hid.
    assert (Hne : id <> e_id en).
    { intros ->.
      pose proof (set_status_in (e_id en) st ts en Hin) as Hin1.
      rewrite Nat.eqb_refl in Hin1. apply (Hid _ Hin1). reflexivity. }
    rewrite (Hother _ Hne). apply Hfresh. intros en0 Hin0 Heq.
    pose proof (set_status_in (e_id en) st ts en0 Hin0) as Hin1.
    apply (Hid _ Hin1). destruct (e_id en0 =? e_id en); exact Heq.
Qed.

Lemma budget_resume docs n s en t t0 :
  inv docs n s -> budget (st_tasks s) (st_trace s) ->
  In en (st_tasks s) -> e_status en = Running t0 ->
  1 <= issues (e_id en) (st_trace s) <= attempts ->
  attempts_left (attempts - issues (e_id en) (st_trace s)) t ->
  forall n', inv docs n' (resume docs en t s) ->
  budget (st_tasks (resume docs en t s)) (st_trace (resume docs en t s)).
Proof.
  intros Hinv Hb Hin Hrun Hc Hleft n'.
  pose proof (inv_core _ _ _ Hinv) as Hcore.
  assert (Hnd : NoDup (map e_id (st_tasks s))).
  { rewrite (core_ids _ _ _ Hcore). apply NoDup_seq. }
  pose proof (budget_step _ _ en t t0 Hnd Hb Hin Hrun Hc Hleft) as Hb1.
  unfold resume.
  destruct (advance (e_batch en) (e_id en) t (st_trace s)) as [st tr1].
  cbn [fst snd] in Hb1.
  assert (Hnd1 : NoDup (map e_id (set_status (e_id en) st (st_tasks s)))).
  { unfold set_status. rewrite map_map.
    rewrite (map_ext (fun x => e_id (if e_id x =? e_id en
                                     then with_status st x else x)) e_id);
      [exact Hnd|].
    intros en0. destruct (e_id en0 =? e_id en); reflexivity. }
  destruct st as [|t'|o]; try (intros _; exact Hb1).
  destruct (pump _ tr1) as [ts2 tr2] eqn:Hp.
  pose proof (pump_budget _ _ _ _ Hnd1 Hb1 Hp) as Hb2.
  unfold on_settled. destruct (st_main s) as [i| |e0]; try (intros _; exact Hb2).
  destruct (e_batch en =? i); [|intros _; exact Hb2].
  assert (Hgo : forall tr3,
            budget ts2 tr3 ->
            inv docs n'
              (if batch_fulfilled i ts2
               then loop_head docs (i + batchSize) ts2 tr3
               else {| st_main := AwaitingAll i; st_tasks := ts2;
                       st_trace := tr2 |}) ->
            budget
              (st_tasks (if batch_fulfilled i ts2
                         then loop_head docs (i + batchSize) ts2 tr3
                         else {| st_main := AwaitingAll i; st_tasks := ts2;
                                 st_trace := tr2 |}))
              (st_trace (if batch_fulfilled i ts2
                         then loop_head docs (i + batchSize) ts2 tr3
                         else {| st_main := AwaitingAll i; st_tasks := ts2;
                                 st_trace := tr2 |}))).
  { intros tr3 Hb3. destruct (batch_fulfilled i ts2); [|intros _; exact Hb2].
    intros Hinv3. apply (budget_loop_head docs n' _ _ _ Hinv3 Hb3). }
  destruct o as [a|e|]; [|intros _; exact Hb2|];
    apply Hgo, budget_progress, Hb2.
Qed.

Lemma budget_fire docs n s a s' :
  inv docs n s -> budget (st_tasks s) (st_trace s) ->
  fire docs a s = Some s' -> budget (st_tasks s') (st_trace s').
Proof.
  intros Hinv Hb Hfire.
  destruct (inv_fire docs n s a s' Hinv Hfire) as (n' & Hinv').
  destruct a as [id settled|id]; simpl in Hfire;
    destruct (find _ (st_tasks s)) as [en|] eqn:Hfind; try discriminate;
    apply find_some in Hfind as [Hin _];
    destruct (e_status en) as [|[o|k|m t|d t]|o] eqn:Hst; try discriminate;
    injection Hfire as <-;
    pose proof (budget_calls _ _ Hb en Hin) as Hwb; rewrite Hst in Hwb;
    cbn [within_budget] in Hwb; destruct Hwb as [Hc Hleft];
    apply (budget_resume docs n s en _ _ Hinv Hb Hin Hst Hc (Hleft _) n' Hinv')
    || apply (budget_resume docs n s en _ _ Hinv Hb Hin Hst Hc Hleft n' Hinv').
Qed.

Lemma budget_init docs :
  budget (st_tasks (initializeVectorStore (A:=A) (E:=E) docs))
         (st_trace (initializeVectorStore (A:=A) (E:=E) docs)).
Proof.
  destruct (inv_init (A:=A) (E:=E) docs) as (n0 & Hinv0).
  unfold initializeVectorStore in *.
  apply (budget_loop_head docs n0 _ _ _ Hinv0).
  split; [intros en []|reflexivity].
Qed.

Lemma budget_reachable docs s :
  reachable docs s -> budget (st_tasks s) (st_trace s).
Proof.
  intros (acts & Hexec).
  destruct (inv_init (A:=A) (E:=E) docs) as (n0 & Hinv0).
  pose proof (budget_init docs) as Hb0.
  revert Hexec Hinv0 Hb0. generalize (initializeVectorStore (A:=A) (E:=E) docs).
  revert n0. induction acts as [|a acts IH]; intros n0 s0 Hexec Hinv0 Hb0;
    simpl in Hexec.
  - injection Hexec as <-. exact Hb0.
  - destruct (fire docs a s0) as [s1|] eqn:Hfire; [|discriminate].
    destruct (inv_fire docs n0 s0 a s1 Hinv0 Hfire) as (n1 & Hinv1).
    apply (IH n1 s1 Hexec Hinv1).
    apply (budget_fire docs n0 s0 a s1 Hinv0 Hb0 Hfire).
Qed.

(** X14. The retry budget holds for the whole ingestion, whatever
    fails and in whatever order things happen: no document has its write
    requested more than three times; a call still in p-limit's queue has
    sent no request; a call that is under way or was fulfilled has sent
    at least one; a call is rejected only after exactly three. So when
    [initializeVectorStore] has thrown an error, a call was rejected
    with that error after the write of its document had been requested
    three times. *)
Theorem initializeVectorStore_write_budget docs s :
  reachable docs s ->
  (forall id, issues id (st_trace s) <= 3)
  /\ (forall en, In en (st_tasks s) ->
        match e_status en with
        | Queued => issues (e_id en) (st_trace s) = 0
        | Running _ => 1 <= issues (e_id en) (st_trace s)
        | Settled (Returned _) => 1 <= issues (e_id en) (st_trace s)
        | Settled (Thrown _) => issues (e_id en) (st_trace s) = 3
        | Settled Undefined => True
        end)
  /\ (forall e, st_main s = Failed e ->
        exists en, In en (st_tasks s) /\ e_status en = Settled (Thrown e)
                   /\ issues (e_id en) (st_trace s) = 3).
Proof.
  intros Hreach. destruct (budget_reachable docs s Hreach) as [Hcalls Hfresh].
  destruct (inv_reachable docs s Hreach) as (n & [Hc _ _ Hm]).
  assert (Hat : attempts = 3) by reflexivity.
  assert (Hen : forall en, In en (st_tasks s) ->
            issues (e_id en) (st_trace s) <= 3
            /\ match e_status en with
               | Queued => issues (e_id en) (st_trace s) = 0
               | Running _ => 1 <= issues (e_id en) (st_trace s)
               | Settled (Returned _) => 1 <= issues (e_id en) (st_trace s)
               | Settled (Thrown _) => issues (e_id en) (st_trace s) = 3
               | Settled Undefined => True
               end).
  { intros en Hin. pose proof (Hcalls en Hin) as Hwb.
    destruct (e_status en) as [|[o|k|m t|d t]|[a|e|]];
      cbn [within_budget] in Hwb; rewrite ?Hat in Hwb; try destruct Hwb; lia. }
  split; [|split].
  - intros id.
    destruct (in_dec Nat.eq_dec id (map e_id (st_tasks s))) as [Hin|Hout].
    + apply in_map_iff in Hin as (en & <- & Hin). apply (Hen en Hin).
    + rewrite Hfresh; [lia|]. intros en Hin Heq. apply Hout. rewrite <- Heq.
      apply in_map, Hin.
  - intros en Hin. apply (Hen en Hin).
  - intros e He. rewrite He in Hm. simpl in Hm.
    destruct Hm as (_ & _ & later & id & earlier & Htr & _).
    destruct (core_e2s _ _ _ Hc ((n - 1) * batchSize) id (Thrown e))
      as (en & Hin & _ & _ & Hst).
    { rewrite Htr. apply in_or_app. right. left. reflexivity. }
    exists en. split; [exact Hin|]. split; [exact Hst|].
    pose proof (Hen en Hin) as [_ H3]. rewrite Hst in H3. exact H3.
Qed.
End IngestBudget.

(* ================================================================== *)
(** * More on [initializeChatbot], [main] and the versions of the loader *)
(* ================================================================== *)

Section ChatbotMore.
Import Loader Chatbot.
Context {Err Dom Response : Type}.
Variable services : Services Err Dom Response.

Local Open Scope string_scope.

(** X15. [initializeChatbot] throws before it reaches the vector store
    in these cases and no others: the source type is none of
    ['directory'], ['url'] and ['github'] (compared as they are written),
    or the one load it makes is rejected: the listing of the directory,
    the load of the page, the load of the repository. A file of the
    directory that cannot be read or parsed never makes it throw. *)
Theorem initializeChatbot_throws_iff source sourceType :
  (exists e, fst (initializeChatbot services source sourceType) = Threw e)
  <->
  (sourceType <> "directory" /\ sourceType <> "url" /\ sourceType <> "github")
  \/ (sourceType = "directory"
      /\ exists e, readdir (files services) source = inl e)
  \/ (sourceType = "url" /\ exists e, web_load services source = inl e)
  \/ (sourceType = "github" /\ exists e, github_load services source = inl e).
Proof.
  unfold initializeChatbot, load_source.
  destruct (String.eqb_spec sourceType "directory") as [->|Hd].
  - unfold loadDocumentsFromDirectory.
    destruct (readdir (files services) source) as [e|listed] eqn:Hdir.
    + split; [|intros _; eexists; reflexivity].
      intros _. right. left. split; [reflexivity|]. exists e. reflexivity.
    + destruct (for_files (files services) source listed []) as [documents effs].
      split; [intros (e & He); discriminate|].
      intros [(H & _)|[(_ & e & He)|[(H & _)|(H & _)]]]; congruence.
  - destruct (String.eqb_spec sourceType "url") as [->|Hu].
    + destruct (web_load services source) as [e|docs] eqn:Hweb.
      * split; [|intros _; eexists; reflexivity].
        intros _. right. right. left. split; [reflexivity|]. exists e. reflexivity.
      * split; [intros (e & He); discriminate|].
        intros [(_ & H & _)|[(H & _)|[(_ & e & He)|(H & _)]]]; congruence.
    + destruct (String.eqb_spec sourceType "github") as [->|Hg].
      * destruct (github_load services source) as [e|docs] eqn:Hgit.
        -- split; [|intros _; eexists; reflexivity].
           intros _. right. right. right. split; [reflexivity|].
           exists e. reflexivity.
        -- split; [intros (e & He); discriminate|].
           intros [(_ & _ & H)|[(H & _)|[(H & _)|(_ & e & He)]]]; congruence.
      * split; [|intros _; eexists; reflexivity].
        intros _. left. repeat split; assumption.
Qed.
End ChatbotMore.

Section MainFacts.
Import Loader Chatbot Main.
Context {Err Dom Response Time : Type}.
Variable services : Services Err Dom Response.
Variable fromExistingCollection : Err + unit.
Variable content : Response -> string.
Variable minus : Time -> Time -> Time.

Local Open Scope string_scope.

(** X16. What [main] prints. Either the collection loads, the
    retrieval for the question of [main] and the model call with the
    prompt rendered from it succeed, and the output is: the start line,
    the end line with the time taken, the question, and the content of
    the model's response, in this order and with no error line. Or one
    of the three fails, and the output ends with the one line
    [console.error] prints and has neither a question line nor an
    answer line. *)
Theorem main_answer_or_error (now1 now2 : Time) :
  let out := run_main services fromExistingCollection content minus now1 now2 in
  (exists docs response,
      fromExistingCollection = inr tt
      /\ getRelevantDocuments services QUESTION = inr docs
      /\ ollama_invoke services
           (rendered (String.concat nl (map pageContent docs)) QUESTION)
         = inr response
      /\ out =
         [LoadCollection; LogStart now1;
          Chain (Retrieve QUESTION);
          Chain (InvokeModel
                   (rendered (String.concat nl (map pageContent docs))
                             QUESTION));
          LogEnd (minus now2 now1); LogQ QUESTION; LogA (content response)])
  \/ (exists e front,
        out = (front ++ [ConsoleError e])%list
        /\ List.filter is_error front = []
        /\ List.filter is_question out = []
        /\ List.filter is_answer out = []).
Proof.
  intros out. subst out.
  unfold run_main, main, Main.createChatbot, loadVectorStore, askQuestion,
    Chatbot.createChatbot.
  destruct fromExistingCollection as [e|[]].
  - right. exists (External e), [LoadCollection]. repeat split.
  - destruct (getRelevantDocuments services QUESTION) as [e|docs] eqn:Hret.
    + right. exists (External e),
        [LoadCollection; LogStart now1; Chain (Retrieve QUESTION)].
      repeat split.
    + rewrite format_template.
      set (prompt := rendered (String.concat nl (map pageContent docs)) QUESTION).
      destruct (ollama_invoke services prompt) as [e|response] eqn:Hllm.
      * right. exists (External e),
          [LoadCollection; LogStart now1; Chain (Retrieve QUESTION);
           Chain (InvokeModel prompt)].
        repeat split.
      * left. exists docs, response. repeat split. exact Hllm.
Qed.
End MainFacts.

Section LoaderVersions.
Import Loader.
Context {Err Dom : Type}.

Local Open Scope string_scope.

Section Pages.
Variable env : Env Err Dom.
Implicit Types (file directoryPath : string) (documents : list Document).

Lemma iteration_enriches directoryPath file documents olds :
  exists added added' effs,
    iteration env directoryPath file documents =
    ((documents ++ added)%list, effs)
    /\ Variant3.iteration env directoryPath file olds =
       ((olds ++ added')%list, effs)
    /\ Forall2 (Variant3.enriches env directoryPath) added added'.
Proof.
  unfold iteration, Variant3.iteration, try_block, Variant3.try_block,
    Variant3.enriches, is_html.
  set (ext := toLowerCase env (path_extname env file)).
  set (filePath := path_join env directoryPath file).
  destruct ((ext =? ".txt") || (ext =? ".md"))%bool eqn:Htext.
  - assert (Hhtml : (ext =? ".html") = false).
    { apply orb_prop in Htext as [H|H]; apply String.eqb_eq in H; rewrite H;
        reflexivity. }
    destruct (readFile env filePath) as [error|text].
    + exists [], [], [ReadFile filePath; ErrorProcessing file error].
      rewrite !app_nil_r. repeat split. constructor.
    + eexists [_], [_], _. repeat split. constructor; [|constructor].
      exists file. split; [reflexivity|]. fold ext. rewrite Hhtml. reflexivity.
  - destruct (ext =? ".html") eqn:Hhtml.
    + destruct (readFile env filePath) as [error|text] eqn:Hfile.
      * exists [], [], [LogParsing filePath; ReadFile filePath;
                        ErrorProcessing file error].
        rewrite !app_nil_r. repeat split. constructor.
      * destruct (cheerio_load env text) as [error|page] eqn:Hpage.
        -- exists [], [], [LogParsing filePath; ReadFile filePath;
                           ErrorProcessing file error].
           rewrite !app_nil_r. repeat split. constructor.
        -- eexists [_], [_], _. repeat split. constructor; [|constructor].
           exists file. split; [reflexivity|]. fold ext. rewrite Hhtml.
           exists text, page. repeat split; assumption.
    + exists [], [], [WarnUnsupported file]. rewrite !app_nil_r. repeat split.
      constructor.
Qed.

Lemma for_files_enriches directoryPath files :
  forall documents olds,
  exists added added' effs,
    for_files env directoryPath files documents =
    ((documents ++ added)%list, effs)
    /\ Variant3.for_files env directoryPath files olds =
       ((olds ++ added')%list, effs)
    /\ Forall2 (Variant3.enriches env directoryPath) added added'.
Proof.
  induction files as [|file files IH]; intros documents olds.
  - exists [], [], []. rewrite !app_nil_r. repeat split. constructor.
  - cbn [for_files Variant3.for_files].
    destruct (iteration_enriches directoryPath file documents olds)
      as (a1 & a1' & effs1 & -> & -> & Hrel1).
    destruct (IH (documents ++ a1)%list (olds ++ a1')%list)
      as (a2 & a2' & effs2 & -> & -> & Hrel2).
    exists (a1 ++ a2)%list, (a1' ++ a2')%list, (effs1 ++ effs2)%list.
    rewrite !app_assoc. repeat split. apply Forall2_app; assumption.
Qed.

(** X17. The version of the loader that takes only the main content
    of a page reads the same files and logs the same lines as the
    loader above, fails when it fails, and returns Documents for the
    same files in the same order. For a text file the two Documents are
    the same; for a page, the Document above has the title and the
    description in front of the old content, and as metadata. *)
Theorem loadDocumentsFromDirectory_enriches_pages directoryPath :
  snd (Variant3.loadDocumentsFromDirectory env directoryPath) =
  snd (loadDocumentsFromDirectory env directoryPath)
  /\ match fst (loadDocumentsFromDirectory env directoryPath),
           fst (Variant3.loadDocumentsFromDirectory env directoryPath) with
     | inr documents, inr olds =>
         Forall2 (Variant3.enriches env directoryPath) documents olds
     | inl e, inl e' => e = e'
     | _, _ => False
     end.
Proof.
  unfold loadDocumentsFromDirectory, Variant3.loadDocumentsFromDirectory.
  destruct (readdir env directoryPath) as [e|files]; [split; reflexivity|].
  destruct (for_files_enriches directoryPath files [] [])
    as (added & added' & effs & -> & -> & Hrel).
  split; [reflexivity|exact Hrel].
Qed.
End Pages.

Section Flat.
Variable env : Variant2.Env2 Err Dom.
Implicit Types (file directoryPath : string) (documents : list Document).

Lemma iteration_same_file directoryPath file documents olds :
  exists added added' effs,
    Variant2.iteration env directoryPath file documents =
    ((documents ++ added)%list, Variant2.without_parsing effs)
    /\ Variant3.iteration (Variant2.base env) directoryPath file olds =
       ((olds ++ added')%list, effs)
    /\ Forall2 (Variant2.same_file env) added added'.
Proof.
  unfold Variant2.iteration, Variant3.iteration, Variant2.try_block,
    Variant3.try_block, Variant2.same_file, is_html.
  set (ext := toLowerCase (Variant2.base env)
                (path_extname (Variant2.base env) file)).
  set (filePath := path_join (Variant2.base env) directoryPath file).
  destruct ((ext =? ".txt") || (ext =? ".md"))%bool eqn:Htext.
  - destruct (readFile (Variant2.base env) filePath) as [error|text].
    + exists [], [], [ReadFile filePath; ErrorProcessing file error].
      rewrite !app_nil_r. repeat split. constructor.
    + eexists [_], [_], [ReadFile filePath]. repeat split.
      constructor; [|constructor].
      exists file. repeat split.
  - destruct (ext =? ".html") eqn:Hhtml.
    + destruct (readFile (Variant2.base env) filePath) as [error|text].
      * exists [], [], [LogParsing filePath; ReadFile filePath;
                        ErrorProcessing file error].
        rewrite !app_nil_r. repeat split. constructor.
      * destruct (cheerio_load (Variant2.base env) text) as [error|page].
        -- exists [], [], [LogParsing filePath; ReadFile filePath;
                           ErrorProcessing file error].
           rewrite !app_nil_r. repeat split. constructor.
        -- eexists [_], [_], [LogParsing filePath; ReadFile filePath].
           repeat split. constructor; [|constructor].
           exists file. split; [reflexivity|]. split; [reflexivity|].
           fold ext. rewrite Hhtml. discriminate.
    + exists [], [], [WarnUnsupported file]. rewrite !app_nil_r. repeat split.
      constructor.
Qed.

Lemma for_files_same_file directoryPath files :
  forall documents olds,
  exists added added' effs,
    Variant2.for_files env directoryPath files documents =
    ((documents ++ added)%list, Variant2.without_parsing effs)
    /\ Variant3.for_files (Variant2.base env) directoryPath files olds =
       ((olds ++ added')%list, effs)
    /\ Forall2 (Variant2.same_file env) added added'.
Proof.
  induction files as [|file files IH]; intros documents olds.
  - exists [], [], []. rewrite !app_nil_r. repeat split. constructor.
  - cbn [Variant2.for_files Variant3.for_files].
    destruct (iteration_same_file directoryPath file documents olds)
      as (a1 & a1' & effs1 & -> & -> & Hrel1).
    destruct (IH (documents ++ a1)%list (olds ++ a1')%list)
      as (a2 & a2' & effs2 & -> & -> & Hrel2).
    exists (a1 ++ a2)%list, (a1' ++ a2')%list, (effs1 ++ effs2)%list.
    rewrite !app_assoc. unfold Variant2.without_parsing.
    rewrite List.filter_app. repeat split. apply Forall2_app; assumption.
Qed.

(** X18. On a directory whose plain listing is its recursive listing
    (it has no sub-directory with files), the version of the loader that
    lists the directory itself only does what the version above does,
    less the [Parsing ...] lines: the same files read, the same warnings
    and errors, and Documents for the same files in the same order, with
    the same metadata, and the same content unless the file is a
    page. *)
Theorem loadDocumentsFromDirectory_flat_listing directoryPath :
  Variant2.readdir_flat env directoryPath =
  readdir (Variant2.base env) directoryPath ->
  snd (Variant2.loadDocumentsFromDirectory env directoryPath) =
  Variant2.without_parsing
    (snd (Variant3.loadDocumentsFromDirectory (Variant2.base env) directoryPath))
  /\ match fst (Variant2.loadDocumentsFromDirectory env directoryPath),
           fst (Variant3.loadDocumentsFromDirectory (Variant2.base env)
                  directoryPath) with
     | inr documents, inr olds =>
         Forall2 (Variant2.same_file env) documents olds
     | inl e, inl e' => e = e'
     | _, _ => False
     end.
Proof.
  unfold Variant2.loadDocumentsFromDirectory,
    Variant3.loadDocumentsFromDirectory.
  intros ->.
  destruct (readdir (Variant2.base env) directoryPath) as [e|files];
    [split; reflexivity|].
  destruct (for_files_same_file directoryPath files [] [])
    as (added & added' & effs & -> & -> & Hrel).
  split; [reflexivity|exact Hrel].
Qed.
End Flat.
End LoaderVersions.

(* ================================================================== *)
(** * The further properties at concrete inputs *)
(* ================================================================== *)

Section MoreWitnesses.
Import Async Backoff Ingest Flow Loader LoaderLog Chatbot Examples MoreExamples.
Local Open Scope string_scope.


(** X2 at the defaults: the write that never succeeds asks for 6000 ms
    in all, the write that fails once for no more. *)
Lemma retryWithBackoff_requested_delays_witness :
  (1 <= 3)%Z /\ (0 <= 1000)%Z
  /\ requested_delay (fst (run (retryWithBackoff 3 1000) always_failing 0))
     = 6000%Z
  /\ (requested_delay (fst (run (retryWithBackoff 3 1000) flaky 0)) <= 6000)%Z.
Proof.
  assert (H1 : (1 <= 3)%Z) by lia.
  assert (H0 : (0 <= 1000)%Z) by lia.
  split; [exact H1|]. split; [exact H0|].
  destruct (retryWithBackoff_requested_delays always_failing 3 1000 H1 H0)
    as (_ & _ & Hall).
  destruct (retryWithBackoff_requested_delays flaky 3 1000 H1 H0)
    as ([_ Hle] & _).
  split; [exact (Hall (fun _ => I))|exact Hle].
Defined.

(** X3 for the write that fails once: two attempts are enough, and a
    third changes nothing. *)
Lemma retryWithBackoff_larger_budget_witness :
  (2 <= 3)%Z
  /\ snd (run (retryWithBackoff 2 1000) flaky 0) = Returned 7
  /\ run (retryWithBackoff 3 1000) flaky 0 =
     run (retryWithBackoff 2 1000) flaky 0.
Proof.
  assert (H23 : (2 <= 3)%Z) by lia.
  assert (Hret : snd (run (retryWithBackoff 2 1000) flaky 0) = Returned 7)
    by reflexivity.
  split; [exact H23|]. split; [exact Hret|].
  exact (retryWithBackoff_larger_budget flaky 2 3 1000 7 H23 Hret).
Defined.

(** X4: what the write does from its fourth invocation on is not
    looked at. *)
Lemma retryWithBackoff_first_invocations_only_witness :
  (forall k : nat, (Z.of_nat k < 3)%Z -> flaky_then_down k = flaky k)
  /\ run (retryWithBackoff 3 1000) flaky_then_down 0 =
     run (retryWithBackoff 3 1000) flaky 0.
Proof.
  assert (Hsame : forall k : nat,
            (Z.of_nat k < 3)%Z -> flaky_then_down k = flaky k).
  { intros k Hk. unfold flaky_then_down.
    destruct (Nat.ltb_spec k 3) as [_|Hge]; [reflexivity|lia]. }
  split; [exact Hsame|].
  exact (retryWithBackoff_first_invocations_only flaky flaky_then_down 3 1000
           Hsame).
Defined.

(** X6 for the directory with [a.md] and [b.unknown]: one warning, no
    error, one Document. *)
Lemma loadDocumentsFromDirectory_one_outcome_per_file_witness :
  readdir two_files "docs" = inr ["a.md"; "b.unknown"]
  /\ warned (snd (loadDocumentsFromDirectory two_files "docs")) = ["b.unknown"]
  /\ errored (snd (loadDocumentsFromDirectory two_files "docs")) = [].
Proof.
  assert (Hdir : readdir two_files "docs" = inr ["a.md"; "b.unknown"])
    by reflexivity.
  split; [exact Hdir|].
  destruct (loadDocumentsFromDirectory_one_outcome_per_file two_files "docs" _
              Hdir) as (Hw & He & _).
  split; [exact Hw|exact He].
Defined.

(** X7 for the Document made from [a.md]: [source] is its only key. *)
Lemma loadDocumentsFromDirectory_metadata_keys_witness :
  fst (loadDocumentsFromDirectory two_files "docs") = inr [hello_world]
  /\ In hello_world [hello_world]
  /\ exists file,
       metadata hello_world !! "source" = Some file
       /\ dom (metadata hello_world) =
          if is_html two_files file
          then ({[ "source"; "title"; "description" ]} : gset string)
          else {[ "source" ]}.
Proof.
  assert (Hload : fst (loadDocumentsFromDirectory two_files "docs")
                  = inr [hello_world]) by reflexivity.
  assert (Hin : In hello_world [hello_world]) by (left; reflexivity).
  split; [exact Hload|]. split; [exact Hin|].
  destruct (loadDocumentsFromDirectory_metadata_keys two_files "docs" _ _
              Hload Hin) as (files & file & _ & _ & Hsrc & Hdom).
  exists file. split; [exact Hsrc|exact Hdom].
Defined.

(** X8 for three chunks, all written. *)
Lemma initializeVectorStore_calls_witness :
  reachable chunks3 three_written
  /\ st_main three_written = Finished
  /\ map e_doc (st_tasks three_written) = chunks3
  /\ map e_id (st_tasks three_written) = [0; 1; 2].
Proof.
  assert (Hreach : reachable chunks3 three_written).
  { exists (all_succeed tt 3). vm_compute. reflexivity. }
  assert (Hfin : st_main three_written = Finished)
    by (vm_compute; reflexivity).
  split; [exact Hreach|]. split; [exact Hfin|].
  destruct (initializeVectorStore_calls chunks3 three_written Hreach)
    as (m & _ & Hdone).
  destruct (Hdone Hfin) as (Hdocs & Hids & _).
  split; [exact Hdocs|exact Hids].
Defined.

(** X9 for 60 chunks, after the call for chunk 52 was rejected: one
    progress line. *)
Lemma initializeVectorStore_progress_lines_witness :
  reachable chunks60 after_rejection
  /\ exists m,
       progress_reports (st_trace after_rejection) =
       map (progress_line chunks60) (seq 0 m)
       /\ m * batchSize < length chunks60 + batchSize.
Proof.
  assert (Hreach : reachable chunks60 after_rejection).
  { exists chunk52_rejected. vm_compute. reflexivity. }
  split; [exact Hreach|].
  destruct (initializeVectorStore_progress_lines chunks60 after_rejection Hreach)
    as (m & Hprog & Hm & _).
  exists m. split; [exact Hprog|exact Hm].
Defined.

(** X10 for three chunks, all written: nothing can happen any more. *)
Lemma initializeVectorStore_settles_once_witness :
  reachable chunks3 three_written
  /\ st_main three_written = Finished
  /\ forall a, fire chunks3 a three_written = None.
Proof.
  assert (Hreach : reachable chunks3 three_written).
  { exists (all_succeed tt 3). vm_compute. reflexivity. }
  assert (Hfin : st_main three_written = Finished)
    by (vm_compute; reflexivity).
  split; [exact Hreach|]. split; [exact Hfin|].
  exact (proj1 (initializeVectorStore_settles_once chunks3 three_written Hreach)
           Hfin).
Defined.

(** X12 for 60 chunks, before anything has settled: five calls are
    under way, the others wait. *)
Lemma initializeVectorStore_concurrency_witness :
  reachable chunks60 just_started
  /\ active (st_tasks just_started) <= concurrency.
Proof.
  assert (Hreach : reachable chunks60 just_started).
  { exists []. vm_compute. reflexivity. }
  split; [exact Hreach|].
  exact (proj1 (initializeVectorStore_concurrency chunks60 just_started Hreach)).
Defined.

(** X13 for 60 chunks, before anything has settled. *)
Lemma initializeVectorStore_never_stuck_witness :
  reachable chunks60 just_started
  /\ st_main just_started = AwaitingAll 0
  /\ exists en, In en (st_tasks just_started)
                /\ is_running (e_status en) = true.
Proof.
  assert (Hreach : reachable chunks60 just_started).
  { exists []. vm_compute. reflexivity. }
  assert (Hmain : st_main just_started = AwaitingAll 0)
    by (vm_compute; reflexivity).
  split; [exact Hreach|]. split; [exact Hmain|].
  destruct (initializeVectorStore_never_stuck chunks60 just_started 0
              Hreach Hmain)
    as (en & Hin & [(k & Hst & _)|(d & k & Hst & _)]);
    exists en; (split; [exact Hin|rewrite Hst; reflexivity]).
Defined.

(** X14 for 60 chunks, after the call for chunk 52 was rejected: its
    write was requested three times. *)
Lemma initializeVectorStore_write_budget_witness :
  reachable chunks60 after_rejection
  /\ st_main after_rejection = Failed "ECONNREFUSED"
  /\ (forall id, issues id (st_trace after_rejection) <= 3)
  /\ exists en,
       In en (st_tasks after_rejection)
       /\ e_status en = Settled (Thrown "ECONNREFUSED")
       /\ issues (e_id en) (st_trace after_rejection) = 3.
Proof.
  assert (Hreach : reachable chunks60 after_rejection).
  { exists chunk52_rejected. vm_compute. reflexivity. }
  assert (Hmain : st_main after_rejection = Failed "ECONNREFUSED")
    by (vm_compute; reflexivity).
  split; [exact Hreach|]. split; [exact Hmain|].
  destruct (initializeVectorStore_write_budget chunks60 after_rejection Hreach)
    as (Hall & _ & Hfail).
  split; [exact Hall|exact (Hfail _ Hmain)].
Defined.

(** X18 for the directory with [a.md] and [b.unknown]. *)
Lemma loadDocumentsFromDirectory_flat_listing_witness :
  Variant2.readdir_flat flat_docs "docs" =
  readdir (Variant2.base flat_docs) "docs"
  /\ snd (Variant2.loadDocumentsFromDirectory flat_docs "docs") =
     Variant2.without_parsing
       (snd (Variant3.loadDocumentsFromDirectory (Variant2.base flat_docs)
               "docs")).
Proof.
  assert (Hflat : Variant2.readdir_flat flat_docs "docs" =
                  readdir (Variant2.base flat_docs) "docs") by reflexivity.
  split; [exact Hflat|].
  exact (proj1 (loadDocumentsFromDirectory_flat_listing flat_docs "docs" Hflat)).
Defined.
End MoreWitnesses.
